(** * xv6 lock lab: physical page allocator (kernel/kalloc.c) and
      buffer cache (bio.c), embedded as state-passing functions.

    Both source units manipulate C globals through pointers.  The page
    allocator is modelled over a byte-addressed memory, because a free
    page stores the link of its own free list in its first eight bytes;
    the buffer cache is modelled over a store of [struct buf] records
    addressed by references, because the recency list is threaded
    through the [prev]/[next] fields of the slots themselves. *)

From Stdlib Require Import ZArith List Lia Bool String.
Import ListNotations.
Open Scope Z_scope.
Set Warnings "-notation-for-abbreviation".

(** ** Machine integers and call outcomes *)

(** [uint64] and [uint] arithmetic of the RISC-V target wraps around. *)
Definition wrap64 (x : Z) : Z := x mod 2 ^ 64.
Definition wrap32 (x : Z) : Z := x mod 2 ^ 32.

(** A kernel call either returns, or ends in [panic(msg)], or (for the
    loops whose trip count the code does not bound) has not returned
    within the fuel it was given. *)
Inductive outcome (A : Type) : Type :=
| Done (a : A)
| Panic (msg : string)
| OutOfFuel.
Arguments Done {A} a.
Arguments Panic {A} msg.
Arguments OutOfFuel {A}.

Definition bind {A B} (m : outcome A) (k : A -> outcome B) : outcome B :=
  match m with
  | Done a => k a
  | Panic msg => Panic msg
  | OutOfFuel => OutOfFuel
  end.

Notation "x <- m ;; k" := (bind m (fun x => k))
  (at level 61, m at next level, right associativity).

(** Update of one entry of a C array indexed by a small integer. *)
Definition upd {A} (f : nat -> A) (i : nat) (v : A) : nat -> A :=
  fun j => if Nat.eqb j i then v else f j.

(** ** Physical page allocator *)

Module Kalloc.

(** "Allocates whole 4096-byte pages" (kalloc.c, line 3). *)
Definition PGSIZE : Z := 4096.

(** Modelled from the spec: riscv.h is not among the sources; the spec asks
    for a page-aligned start of the partition, and [PGROUNDUP] is the
    kernel's mask-based rounding of a [uint64] to the next page boundary,
    [((sz)+PGSIZE-1) & ~(PGSIZE-1)]. *)
Definition PGROUNDUP (sz : Z) : Z :=
  Z.land (wrap64 (sz + PGSIZE - 1)) (Z.lnot (PGSIZE - 1)).

(** [pa % PGSIZE == 0]. *)
Definition aligned (p : Z) : Prop := p mod PGSIZE = 0.

(** Byte-addressed physical memory; addresses are taken modulo 2^64. *)
Definition mem := Z -> Z.

(** [memset(dst, c, n)]: the [n] bytes from [dst] on become [c]. *)
Definition memset (m : mem) (dst c n : Z) : mem :=
  fun a => if wrap64 (a - dst) <? n then c mod 256 else m a.

(** A 64-bit little-endian store and load: [r->next = v] and [r->next]
    for a [struct run *r], whose only field sits at offset 0. *)
Definition store64 (m : mem) (p v : Z) : mem :=
  fun a => let k := wrap64 (a - p) in
           if k <? 8 then (v / 256 ^ k) mod 256 else m a.

Definition load64 (m : mem) (p : Z) : Z :=
  m (wrap64 p) + 256 * (m (wrap64 (p + 1)) + 256 * (m (wrap64 (p + 2)) +
  256 * (m (wrap64 (p + 3)) + 256 * (m (wrap64 (p + 4)) +
  256 * (m (wrap64 (p + 5)) + 256 * (m (wrap64 (p + 6)) +
  256 * m (wrap64 (p + 7)))))))).

(** [kmem_list[NCPU]]: the head of every core's free list, and the memory
    the lists are threaded through.  The spin locks only bracket the
    critical sections; a single call runs them to completion. *)
Record kmem : Type := mkKmem {
  freelist : nat -> Z;
  ram : mem
}.

Section Allocator.

(** param.h and memlayout.h are not among the sources: the number of
    cores, the first address after the kernel image ([end], set by the
    linker script) and the top of physical memory are parameters. *)
Variable NCPU : nat.
Variable kend : Z.
Variable PHYSTOP : Z.

(** [kfree(pa)], run on core [cpu] (the value [cpuid()] returns). *)
Definition kfree (cpu : nat) (pa : Z) (s : kmem) : outcome kmem :=
  if negb (pa mod PGSIZE =? 0) || (pa <? kend) || (pa >=? PHYSTOP)
  then Panic "kfree"
  else
    let m1 := memset (ram s) pa 1 PGSIZE in
    let m2 := store64 m1 pa (freelist s cpu) in
    Done (mkKmem (upd (freelist s) cpu pa) m2).

(** The loop of [freerange]: [for(; p + PGSIZE <= pa_end; p += PGSIZE)]. *)
Fixpoint freerange_loop (fuel : nat) (cpu : nat) (p pa_end : Z) (s : kmem)
  : outcome kmem :=
  match fuel with
  | O => OutOfFuel
  | S fuel' =>
      if wrap64 (p + PGSIZE) <=? pa_end
      then s' <- kfree cpu p s ;;
           freerange_loop fuel' cpu (wrap64 (p + PGSIZE)) pa_end s'
      else Done s
  end.

Definition freerange (fuel : nat) (cpu : nat) (pa_start pa_end : Z) (s : kmem)
  : outcome kmem :=
  freerange_loop fuel cpu (PGROUNDUP pa_start) pa_end s.

(** [kinit()]: [initlock] leaves the modelled state alone. *)
Definition kinit (fuel : nat) (cpu : nat) (s : kmem) : outcome kmem :=
  freerange fuel cpu kend PHYSTOP s.

(** The steal loop of [kalloc]: [for (int i = 0; i < NCPU; i++)], with
    [n] iterations left; it runs with [r == 0]. *)
Fixpoint steal (n : nat) (i : nat) (cpu : nat) (s : kmem) : Z * kmem :=
  match n with
  | O => (0, s)
  | S n' =>
      if Nat.eqb i cpu then steal n' (S i) cpu s
      else
        let r := freelist s i in
        if negb (r =? 0)
        then (r, mkKmem (upd (freelist s) i (load64 (ram s) r)) (ram s))
        else steal n' (S i) cpu s
  end.

(** [kalloc()], run on core [cpu]; the result 0 is the null pointer. *)
Definition kalloc (cpu : nat) (s : kmem) : Z * kmem :=
  let r := freelist s cpu in
  let s1 := if negb (r =? 0)
            then mkKmem (upd (freelist s) cpu (load64 (ram s) r)) (ram s)
            else s in
  let '(r, s2) := if r =? 0 then steal NCPU 0 cpu s1 else (r, s1) in
  if negb (r =? 0)
  then (r, mkKmem (freelist s2) (memset (ram s2) r 5 PGSIZE))
  else (r, s2).

(** *** Specification vocabulary for the allocator *)

(** A pointer [kfree] accepts: page-aligned and inside [[end, PHYSTOP)]. *)
Definition valid_page (p : Z) : Prop :=
  p mod PGSIZE = 0 /\ kend <= p < PHYSTOP.

(** The zeroed globals the kernel boots with: every free list is empty. *)
Definition booted (s : kmem) : Prop :=
  forall i, (i < NCPU)%nat -> freelist s i = 0.

(** [n] consecutive pages starting at [p]. *)
Fixpoint page_run (n : nat) (p : Z) : list Z :=
  match n with
  | O => []
  | S n' => p :: page_run n' (p + PGSIZE)
  end.

(** The pages [freerange(end, PHYSTOP)] visits, in the order of the loop. *)
Definition npages : nat := Z.to_nat ((PHYSTOP - PGROUNDUP kend) / PGSIZE).
Definition managed_pages : list Z := page_run npages (PGROUNDUP kend).

(** The pages of a free list, read off memory: [h] is the head, every
    page holds the address of the next one, the null pointer ends it. *)
Fixpoint chain (m : mem) (h : Z) (l : list Z) : Prop :=
  match l with
  | [] => h = 0
  | p :: l' => h = p /\ p <> 0 /\ chain m (load64 m p) l'
  end.

(** All per-core lists laid end to end. *)
Definition all_free (L : nat -> list Z) : list Z :=
  flat_map L (seq 0 NCPU).

(** [a] is one of the bytes of page [p]. *)
Definition in_page (p a : Z) : Prop := p <= a < p + PGSIZE.

(** A store of one byte by the owner of some memory. *)
Definition poke (s : kmem) (a v : Z) : kmem :=
  mkKmem (freelist s) (fun x => if x =? a then v else ram s x).

(** The states the allocator runs through, with the pages each core's
    list holds (head first).  Pages enter a list by [kinit] and [kfree]
    only: a page handed to [kfree] is not on a free list already, and
    whoever writes to memory writes outside the free pages. *)
Inductive reach : kmem -> (nat -> list Z) -> Prop :=
| reach_kinit fuel cpu s0 s :
    booted s0 -> (cpu < NCPU)%nat ->
    kinit fuel cpu s0 = Done s ->
    reach s (upd (fun _ => []) cpu (rev managed_pages))
| reach_kfree cpu pa s L s' :
    reach s L -> (cpu < NCPU)%nat ->
    ~ In pa (all_free L) ->
    kfree cpu pa s = Done s' ->
    reach s' (upd L cpu (pa :: L cpu))
| reach_kalloc cpu s L :
    reach s L -> (cpu < NCPU)%nat ->
    reach (snd (kalloc cpu s))
          (fun i => remove Z.eq_dec (fst (kalloc cpu s)) (L i))
| reach_poke a v s L :
    reach s L ->
    (forall p, In p (all_free L) -> ~ in_page p a) ->
    reach (poke s a v) L.

(** What the lists look like between calls: every list is a null-ended
    chain of distinct pages [kfree] accepts, and no page is on two lists. *)
Definition lists_ok (s : kmem) (L : nat -> list Z) : Prop :=
  (forall i, (i < NCPU)%nat ->
     chain (ram s) (freelist s i) (L i) /\ NoDup (L i) /\
     Forall valid_page (L i)) /\
  (forall i j p, (i < NCPU)%nat -> (j < NCPU)%nat -> i <> j ->
     In p (L i) -> ~ In p (L j)).

(** [kalloc()] called once on each of the cores [cpus], in that order:
    the pointers returned and the state left. *)
Fixpoint kalloc_seq (cpus : list nat) (s : kmem) : list Z * kmem :=
  match cpus with
  | [] => ([], s)
  | cpu :: cpus' =>
      let '(r, s1) := kalloc cpu s in
      let '(rs, s2) := kalloc_seq cpus' s1 in
      (r :: rs, s2)
  end.

(** "Each per-core free list is populated." *)
Definition every_core_populated (s : kmem) : Prop :=
  forall i, (i < NCPU)%nat -> freelist s i <> 0.

End Allocator.

(** The zeroed allocator globals over a zeroed memory. *)
Definition boot0 : kmem := mkKmem (fun _ => 0) (fun _ => 0).

(** A small machine to run the calls on: eight cores, a kernel image that
    ends at 0x80021234 and four whole pages of memory above it,
    0x80022000 to 0x80025000. *)
Definition ex_NCPU : nat := 8.
Definition ex_end : Z := 2147619380.
Definition ex_PHYSTOP : Z := 2147639296.

(** That machine after [kinit] on core 0. *)
Definition ex_booted : kmem :=
  match kinit ex_end ex_PHYSTOP 16 0 boot0 with
  | Done s => s
  | _ => boot0
  end.

End Kalloc.

(** ** Buffer cache *)

Module Bio.

Definition NBUCKETS : nat := 7.

(** A pointer to a [struct buf] of the cache: [&bcache_list[i].head] or
    [&bcache_list[i].buf[j]].  The null links of the zeroed globals have
    no representation: [binit] stores every link before it reads it. *)
Inductive ref : Type :=
| Head (i : nat)
| Slot (i j : nat).

Definition ref_eqb (a b : ref) : bool :=
  match a, b with
  | Head i, Head i' => Nat.eqb i i'
  | Slot i j, Slot i' j' => Nat.eqb i i' && Nat.eqb j j'
  | _, _ => false
  end.

(** The block payload, [uchar data[BSIZE]]. *)
Definition payload := list Z.

(** Modelled from the spec: buf.h and sleeplock.c are not among the
    sources.  A slot carries "device id, block number, validity flag,
    reference count, exclusive-lock state, fixed-size payload buffer,
    recency-list links (prev/next)"; the exclusive lock "has at most one
    holder at any instant", recorded here as the holder's process id. *)
Record buf : Type := mkBuf {
  valid : Z;
  dev : Z;
  blockno : Z;
  lock : option Z;
  refcnt : Z;
  prev : ref;
  next : ref;
  data : payload
}.

Definition with_valid (b : buf) (v : Z) : buf :=
  mkBuf v (dev b) (blockno b) (lock b) (refcnt b) (prev b) (next b) (data b).
Definition with_dev (b : buf) (v : Z) : buf :=
  mkBuf (valid b) v (blockno b) (lock b) (refcnt b) (prev b) (next b) (data b).
Definition with_blockno (b : buf) (v : Z) : buf :=
  mkBuf (valid b) (dev b) v (lock b) (refcnt b) (prev b) (next b) (data b).
Definition with_lock (b : buf) (v : option Z) : buf :=
  mkBuf (valid b) (dev b) (blockno b) v (refcnt b) (prev b) (next b) (data b).
Definition with_refcnt (b : buf) (v : Z) : buf :=
  mkBuf (valid b) (dev b) (blockno b) (lock b) v (prev b) (next b) (data b).
Definition with_prev (b : buf) (v : ref) : buf :=
  mkBuf (valid b) (dev b) (blockno b) (lock b) (refcnt b) v (next b) (data b).
Definition with_next (b : buf) (v : ref) : buf :=
  mkBuf (valid b) (dev b) (blockno b) (lock b) (refcnt b) (prev b) v (data b).
Definition with_data (b : buf) (v : payload) : buf :=
  mkBuf (valid b) (dev b) (blockno b) (lock b) (refcnt b) (prev b) (next b) v.

(** One request to the storage driver. *)
Inductive io : Type :=
| DiskRead (d bn : Z)
| DiskWrite (d bn : Z) (p : payload).

(** [bcache_list[NBUCKETS]] as a store of its [struct buf]s, together
    with the disk behind the cache and the requests made to it so far
    (latest first). *)
Record bcache : Type := mkBcache {
  node : ref -> buf;
  disk : Z -> Z -> payload;
  iolog : list io
}.

Definition set_node (s : bcache) (r : ref) (b : buf) : bcache :=
  mkBcache (fun r' => if ref_eqb r' r then b else node s r') (disk s) (iolog s).

Definition set_valid s r v := set_node s r (with_valid (node s r) v).
Definition set_dev s r v := set_node s r (with_dev (node s r) v).
Definition set_blockno s r v := set_node s r (with_blockno (node s r) v).
Definition set_lock s r v := set_node s r (with_lock (node s r) v).
Definition set_refcnt s r v := set_node s r (with_refcnt (node s r) v).
Definition set_prev s r v := set_node s r (with_prev (node s r) v).
Definition set_next s r v := set_node s r (with_next (node s r) v).
Definition set_data s r v := set_node s r (with_data (node s r) v).

(** Modelled from the spec: the storage driver is an external collaborator,
    "a synchronous primitive addressed by (device id, block number,
    direction)" that populates or flushes a slot's payload.
    [virtio_disk_rw(b, write)]. *)
Definition virtio_disk_rw (s : bcache) (b : ref) (write : bool) : bcache :=
  let d := dev (node s b) in
  let bn := blockno (node s b) in
  if write
  then mkBcache (node s)
         (fun d' bn' => if (d' =? d) && (bn' =? bn) then data (node s b)
                        else disk s d' bn')
         (DiskWrite d bn (data (node s b)) :: iolog s)
  else mkBcache (node (set_data s b (disk s d bn))) (disk s)
         (DiskRead d bn :: iolog s).

(** Modelled from the spec: the sleep lock of sleeplock.c, as seen by the
    process [pid] that calls.  [holdingsleep] answers whether the caller
    is the holder; [acquiresleep] takes a free lock and otherwise leaves
    the caller asleep until the holder lets go, which a single run cannot
    continue past; [releasesleep] frees the lock. *)
Inductive slept (A : Type) : Type :=
| Awake (a : A)
| Asleep.
Arguments Awake {A} a.
Arguments Asleep {A}.

Definition holdingsleep (pid : Z) (s : bcache) (b : ref) : bool :=
  match lock (node s b) with
  | Some q => q =? pid
  | None => false
  end.

Definition acquiresleep (pid : Z) (s : bcache) (b : ref) : slept bcache :=
  match lock (node s b) with
  | Some _ => Asleep
  | None => Awake (set_lock s b (Some pid))
  end.

Definition releasesleep (s : bcache) (b : ref) : bcache :=
  set_lock s b None.

Section Cache.

(** param.h is not among the sources: the size of the whole pool is a
    parameter; every shard gets [NBUF/NBUCKETS] slots. *)
Variable NBUF : nat.
Definition NSLOT : nat := NBUF / NBUCKETS.

(** The inner loop of [binit], at [b = &bcache_list[i].buf[j]] with [n]
    slots to go. *)
Fixpoint binit_slots (n : nat) (i j : nat) (s : bcache) : bcache :=
  match n with
  | O => s
  | S n' =>
      let b := Slot i j in
      let s := set_next s b (next (node s (Head i))) in
      let s := set_prev s b (Head i) in
      let s := set_lock s b None in
      let s := set_prev s (next (node s (Head i))) b in
      let s := set_next s (Head i) b in
      binit_slots n' i (S j) s
  end.

(** The outer loop of [binit], at shard [i] with [n] shards to go. *)
Fixpoint binit_buckets (n : nat) (i : nat) (s : bcache) : bcache :=
  match n with
  | O => s
  | S n' =>
      let s := set_prev s (Head i) (Head i) in
      let s := set_next s (Head i) (Head i) in
      let s := binit_slots NSLOT i 0 s in
      binit_buckets n' (S i) s
  end.

Definition binit (s : bcache) : bcache := binit_buckets NBUCKETS 0 s.

(** [blockno % NBUCKETS]. *)
Definition bucket_of (bn : Z) : nat := Z.to_nat (bn mod Z.of_nat NBUCKETS).

(** First loop of [bget]: from [head.next] along [next] until the head
    comes round again, looking for the block. *)
Fixpoint scan_cached (fuel : nat) (i : nat) (b : ref) (d bn : Z) (s : bcache)
  : outcome (option ref) :=
  match fuel with
  | O => OutOfFuel
  | S fuel' =>
      if ref_eqb b (Head i) then Done None
      else if (dev (node s b) =? d) && (blockno (node s b) =? bn)
           then Done (Some b)
           else scan_cached fuel' i (next (node s b)) d bn s
  end.

(** Second loop of [bget]: from [head.prev] along [prev], looking for an
    unused slot. *)
Fixpoint scan_unused (fuel : nat) (i : nat) (b : ref) (s : bcache)
  : outcome (option ref) :=
  match fuel with
  | O => OutOfFuel
  | S fuel' =>
      if ref_eqb b (Head i) then Done None
      else if refcnt (node s b) =? 0
           then Done (Some b)
           else scan_unused fuel' i (prev (node s b)) s
  end.

(** The part of [bget] between [acquire] and [release] of the shard's
    spin lock: the slot chosen and the cache as the lock is dropped. *)
Definition bget_locked (fuel : nat) (d bn : Z) (s : bcache)
  : outcome (ref * bcache) :=
  let i := bucket_of bn in
  hit <- scan_cached fuel i (next (node s (Head i))) d bn s ;;
  match hit with
  | Some b => Done (b, set_refcnt s b (wrap32 (refcnt (node s b) + 1)))
  | None =>
      free <- scan_unused fuel i (prev (node s (Head i))) s ;;
      match free with
      | Some b =>
          let s := set_dev s b d in
          let s := set_blockno s b bn in
          let s := set_valid s b 0 in
          let s := set_refcnt s b 1 in
          Done (b, s)
      | None => Panic "bget: no buffers"
      end
  end.

(** [bget(dev, blockno)] called by process [pid]: the locked part, then
    [acquiresleep(&b->lock)]. *)
Definition bget (fuel : nat) (pid : Z) (d bn : Z) (s : bcache)
  : outcome (slept (ref * bcache)) :=
  r <- bget_locked fuel d bn s ;;
  match acquiresleep pid (snd r) (fst r) with
  | Awake s' => Done (Awake (fst r, s'))
  | Asleep => Done Asleep
  end.

(** [bread(dev, blockno)]. *)
Definition bread (fuel : nat) (pid : Z) (d bn : Z) (s : bcache)
  : outcome (slept (ref * bcache)) :=
  r <- bget fuel pid d bn s ;;
  match r with
  | Asleep => Done Asleep
  | Awake (b, s) =>
      if valid (node s b) =? 0
      then let s := virtio_disk_rw s b false in
           let s := set_valid s b 1 in
           Done (Awake (b, s))
      else Done (Awake (b, s))
  end.

(** [bwrite(b)]. *)
Definition bwrite (pid : Z) (b : ref) (s : bcache) : outcome bcache :=
  if negb (holdingsleep pid s b) then Panic "bwrite"
  else Done (virtio_disk_rw s b true).

(** The part of [brelse] between [acquire] and [release] of the spin lock
    of shard [b->blockno % NBUCKETS]. *)
Definition brelse_locked (b : ref) (s : bcache) : bcache :=
  let i := bucket_of (blockno (node s b)) in
  let s := set_refcnt s b (wrap32 (refcnt (node s b) - 1)) in
  if refcnt (node s b) =? 0
  then
    let s := set_prev s (next (node s b)) (prev (node s b)) in
    let s := set_next s (prev (node s b)) (next (node s b)) in
    let s := set_next s b (next (node s (Head i))) in
    let s := set_prev s b (Head i) in
    let s := set_prev s (next (node s (Head i))) b in
    let s := set_next s (Head i) b in
    s
  else s.

(** [brelse(b)]. *)
Definition brelse (pid : Z) (b : ref) (s : bcache) : outcome bcache :=
  if negb (holdingsleep pid s b) then Panic "brelse"
  else Done (brelse_locked b (releasesleep s b)).

(** [bpin(b)] and [bunpin(b)]. *)
Definition bpin (b : ref) (s : bcache) : bcache :=
  set_refcnt s b (wrap32 (refcnt (node s b) + 1)).

Definition bunpin (b : ref) (s : bcache) : bcache :=
  set_refcnt s b (wrap32 (refcnt (node s b) - 1)).

(** *** Specification vocabulary for the cache *)

(** Following the link [nx] from [a] visits the nodes of [l] in order
    and then arrives at [z]. *)
Fixpoint path (nx : ref -> ref) (a : ref) (l : list ref) (z : ref) : Prop :=
  match l with
  | [] => nx a = z
  | b :: l' => nx a = b /\ path nx b l' z
  end.

(** The recency list of shard [i] holds the slots [l], most recently
    released first: [next] leads from the head through [l] and back to
    the head, [prev] does the same through [l] backwards. *)
Definition dll (s : bcache) (i : nat) (l : list ref) : Prop :=
  NoDup l /\ ~ In (Head i) l /\
  path (fun r => next (node s r)) (Head i) l (Head i) /\
  path (fun r => prev (node s r)) (Head i) (rev l) (Head i).

(** A link function after the store of [v] into the link of [x]. *)
Definition fupd (f : ref -> ref) (x v : ref) : ref -> ref :=
  fun y => if ref_eqb y x then v else f y.

(** The list [l] with the slot [b] taken out. *)
Definition without (b : ref) (l : list ref) : list ref :=
  filter (fun r => negb (ref_eqb r b)) l.

(** The fields of a slot that are neither links nor the count. *)
Definition core (b : buf) : Z * Z * Z * option Z * payload :=
  (valid b, dev b, blockno b, lock b, data b).

(** The tests of the two loops of [bget]. *)
Definition is_block (s : bcache) (d bn : Z) (b : ref) : bool :=
  (dev (node s b) =? d) && (blockno (node s b) =? bn).

Definition is_unused (s : bcache) (b : ref) : bool :=
  refcnt (node s b) =? 0.

(** The slots of shard [i] with index below [n], highest index first:
    the order in which [binit] leaves them on the list. *)
Definition shard_slots (i n : nat) : list ref :=
  map (Slot i) (rev (seq 0 n)).

(** A shard nobody is using: every slot on its list is unreferenced and
    unlocked. *)
Definition idle (s : bcache) (l : list ref) : Prop :=
  forall b, In b l -> refcnt (node s b) = 0 /\ lock (node s b) = None.

(** Slot [t] holds block [blk] = (dev, blockno). *)
Definition holds (s : bcache) (t : ref) (blk : Z * Z) : Prop :=
  dev (node s t) = fst blk /\ blockno (node s t) = snd blk.

(** An idle shard whose list [lc] starts with the slots [ts], latest
    first, that were used for the blocks [bs] and still hold them. *)
Definition recent (s : bcache) (i : nat) (lc ts : list ref)
  (bs : list (Z * Z)) : Prop :=
  dll s i lc /\ idle s lc /\
  (exists rest, lc = rev ts ++ rest) /\
  Forall2 (holds s) ts bs.

(** [bget] of one block directly followed by [brelse] of the slot. *)
Definition get_release (fuel : nat) (pid : Z) (blk : Z * Z) (s : bcache)
  : outcome (slept (ref * bcache)) :=
  r <- bget fuel pid (fst blk) (snd blk) s ;;
  match r with
  | Asleep => Done Asleep
  | Awake (b, s1) => s2 <- brelse pid b s1 ;; Done (Awake (b, s2))
  end.

(** The same for a list of blocks, one after the other; the slots used
    are returned in the order of the blocks. *)
Fixpoint get_release_all (fuel : nat) (pid : Z) (blks : list (Z * Z))
  (s : bcache) : outcome (slept (list ref * bcache)) :=
  match blks with
  | [] => Done (Awake ([], s))
  | blk :: blks' =>
      r <- get_release fuel pid blk s ;;
      match r with
      | Asleep => Done Asleep
      | Awake (b, s1) =>
          r' <- get_release_all fuel pid blks' s1 ;;
          match r' with
          | Asleep => Done Asleep
          | Awake (bs, s2) => Done (Awake (b :: bs, s2))
          end
      end
  end.

(** [bget] of a list of blocks, one after the other, keeping every slot;
    the slots are returned in the order of the blocks. *)
Fixpoint get_all (fuel : nat) (pid : Z) (blks : list (Z * Z)) (s : bcache)
  : outcome (slept (list ref * bcache)) :=
  match blks with
  | [] => Done (Awake ([], s))
  | blk :: blks' =>
      r <- bget fuel pid (fst blk) (snd blk) s ;;
      match r with
      | Asleep => Done Asleep
      | Awake (b, s1) =>
          r' <- get_all fuel pid blks' s1 ;;
          match r' with
          | Asleep => Done Asleep
          | Awake (bs, s2) => Done (Awake (b :: bs, s2))
          end
      end
  end.

(** [brelse] of a list of slots, one after the other. *)
Fixpoint release_all (pid : Z) (slots : list ref) (s : bcache)
  : outcome bcache :=
  match slots with
  | [] => Done s
  | b :: slots' => s1 <- brelse pid b s ;; release_all pid slots' s1
  end.

(** A shard in which process [pid] holds the slots [ts] for the blocks
    [bs], once each, and nobody holds anything else. *)
Definition taken (s : bcache) (i : nat) (l : list ref) (pid : Z)
  (ts : list ref) (bs : list (Z * Z)) : Prop :=
  dll s i l /\ NoDup ts /\
  (forall t, In t ts ->
     In t l /\ refcnt (node s t) = 1 /\ lock (node s t) = Some pid) /\
  (forall r, In r l -> ~ In r ts ->
     refcnt (node s r) = 0 /\ lock (node s r) = None) /\
  Forall2 (holds s) ts bs.

(** The same shard while [pid] gives its slots back: [ts] are back, latest
    first on the list, and [hs] are still held, further down the list. *)
Definition draining (s : bcache) (i : nat) (lc : list ref) (pid : Z)
  (ts : list ref) (bs : list (Z * Z)) (hs : list ref) (hb : list (Z * Z))
  : Prop :=
  dll s i lc /\
  (exists rest, lc = rev ts ++ rest /\ forall t, In t hs -> In t rest) /\
  NoDup hs /\
  (forall t, In t hs -> refcnt (node s t) = 1 /\ lock (node s t) = Some pid) /\
  (forall r, In r lc -> ~ In r hs ->
     refcnt (node s r) = 0 /\ lock (node s r) = None) /\
  Forall2 (holds s) ts bs /\ Forall2 (holds s) hs hb.

End Cache.

(** The zeroed cache globals over an empty disk (the links, which
    [binit] overwrites, set to some head), and the cache of a kernel with
    thirty slots (four to a shard) after [binit]. *)
Definition cache0 : bcache :=
  mkBcache (fun _ => mkBuf 0 0 0 None 0 (Head 0) (Head 0) [])
           (fun _ _ => []) [].

Definition ex_NBUF : nat := 30.
Definition ex_cache : bcache := binit ex_NBUF cache0.

End Bio.

(** * Proofs *)

Lemma upd_same {A} (f : nat -> A) i v : upd f i v i = v.
Proof. unfold upd. now rewrite Nat.eqb_refl. Qed.

Lemma upd_other {A} (f : nat -> A) i j v : j <> i -> upd f i v j = f j.
Proof. unfold upd. intros H. apply Nat.eqb_neq in H. now rewrite H. Qed.

Lemma wrap64_small x : 0 <= x < 2 ^ 64 -> wrap64 x = x.
Proof. intros H. unfold wrap64. now apply Z.mod_small. Qed.

Lemma wrap64_range x : 0 <= wrap64 x < 2 ^ 64.
Proof. unfold wrap64. apply Z.mod_pos_bound. lia. Qed.

Lemma wrap64_offset p k : 0 <= k < 2 ^ 64 -> wrap64 (wrap64 (p + k) - p) = k.
Proof.
  intros H. unfold wrap64. rewrite Zminus_mod_idemp_l.
  replace (p + k - p) with k by lia. now apply Z.mod_small.
Qed.

Module KallocFacts.
Import Kalloc.

(** ** Memory lemmas *)

Lemma bytes_of_word v :
  0 <= v < 2 ^ 64 ->
  v = (v / 256 ^ 0) mod 256 + 256 * ((v / 256 ^ 1) mod 256 +
      256 * ((v / 256 ^ 2) mod 256 + 256 * ((v / 256 ^ 3) mod 256 +
      256 * ((v / 256 ^ 4) mod 256 + 256 * ((v / 256 ^ 5) mod 256 +
      256 * ((v / 256 ^ 6) mod 256 + 256 * ((v / 256 ^ 7) mod 256))))))).
Proof.
  intros H.
  change (256 ^ 0) with 1; change (256 ^ 1) with 256;
  change (256 ^ 2) with (256 * 256);
  change (256 ^ 3) with (256 * 256 * 256);
  change (256 ^ 4) with (256 * 256 * 256 * 256);
  change (256 ^ 5) with (256 * 256 * 256 * 256 * 256);
  change (256 ^ 6) with (256 * 256 * 256 * 256 * 256 * 256);
  change (256 ^ 7) with (256 * 256 * 256 * 256 * 256 * 256 * 256).
  rewrite <- !Z.div_div by lia.
  rewrite Z.div_1_r.
  change (2 ^ 64) with 18446744073709551616 in H.
  set (v1 := v / 256). set (v2 := v1 / 256). set (v3 := v2 / 256).
  set (v4 := v3 / 256). set (v5 := v4 / 256). set (v6 := v5 / 256).
  set (v7 := v6 / 256).
  assert (E0 := Z.div_mod v 256). assert (E1 := Z.div_mod v1 256).
  assert (E2 := Z.div_mod v2 256). assert (E3 := Z.div_mod v3 256).
  assert (E4 := Z.div_mod v4 256). assert (E5 := Z.div_mod v5 256).
  assert (E6 := Z.div_mod v6 256). 
  assert (B7 : 0 <= v7 < 256).
  { subst v7 v6 v5 v4 v3 v2 v1. rewrite !Z.div_div by lia.
    split; [apply Z.div_pos; lia | apply Z.div_lt_upper_bound; lia]. }
  rewrite (Z.mod_small v7) by lia.
  fold v1 in E0. fold v2 in E1. fold v3 in E2. fold v4 in E3. fold v5 in E4.
  fold v6 in E5. fold v7 in E6. lia.
Qed.

Lemma load64_store64 m p v :
  0 <= v < 2 ^ 64 -> load64 (store64 m p v) p = v.
Proof.
  intros H. unfold load64, store64. cbv zeta.
  replace (wrap64 p) with (wrap64 (p + 0)) by (f_equal; lia).
  rewrite !wrap64_offset by (change (2 ^ 64) with 18446744073709551616; lia).
  cbn [Z.ltb Z.compare Pos.compare Pos.compare_cont].
  symmetry. now apply bytes_of_word.
Qed.

Lemma load64_ext m m' q :
  (forall k, 0 <= k < 8 -> m' (wrap64 (q + k)) = m (wrap64 (q + k))) ->
  load64 m' q = load64 m q.
Proof.
  intros H. unfold load64.
  replace (wrap64 q) with (wrap64 (q + 0)) by (f_equal; lia).
  rewrite !H by lia. reflexivity.
Qed.

(** A write of [n] bytes at [p] leaves every address outside
    [[p, p+n)] alone, and reaches every address inside. *)
Lemma span_out p n a :
  0 <= p -> 0 <= n -> p + n <= 2 ^ 64 -> 0 <= a < 2 ^ 64 -> ~ (p <= a < p + n) ->
  (wrap64 (a - p) <? n) = false.
Proof.
  intros Hp Hn0 Hn Ha Hout. apply Z.ltb_ge. unfold wrap64.
  change (2 ^ 64) with 18446744073709551616 in *.
  destruct (Z_lt_ge_dec a p) as [Hlt | Hge].
  - rewrite <- (Z.mod_add _ 1) by lia. rewrite Z.mod_small; lia.
  - rewrite Z.mod_small; lia.
Qed.

Lemma span_in p n a :
  p <= a < p + n -> n <= 2 ^ 64 -> (wrap64 (a - p) <? n) = true.
Proof.
  intros Ha Hn. apply Z.ltb_lt. rewrite wrap64_small; lia.
Qed.

Lemma memset_out m p c n a :
  0 <= p -> 0 <= n -> p + n <= 2 ^ 64 -> 0 <= a < 2 ^ 64 -> ~ (p <= a < p + n) ->
  memset m p c n a = m a.
Proof. intros. unfold memset. now rewrite span_out. Qed.

Lemma memset_in m p c n a :
  p <= a < p + n -> n <= 2 ^ 64 -> memset m p c n a = c mod 256.
Proof. intros. unfold memset. now rewrite span_in. Qed.

Lemma store64_out m p v a :
  0 <= p -> p + 8 <= 2 ^ 64 -> 0 <= a < 2 ^ 64 -> ~ (p <= a < p + 8) ->
  store64 m p v a = m a.
Proof. intros. unfold store64. cbv zeta. now rewrite span_out by lia. Qed.

(** ** Pages *)

Lemma aligned_top p : aligned p -> 0 <= p < 2 ^ 64 -> p + PGSIZE <= 2 ^ 64.
Proof.
  unfold aligned, PGSIZE. intros Ha Hp.
  change (2 ^ 64) with (4096 * 4503599627370496) in *.
  apply Z.mod_divide in Ha; [| lia]. destruct Ha as [k Hk]. lia.
Qed.

Lemma aligned_apart p q a :
  aligned p -> aligned q -> p <> q -> q <= a < q + PGSIZE -> ~ in_page p a.
Proof.
  unfold aligned, in_page, PGSIZE. intros Hp Hq Hne Ha.
  apply Z.mod_divide in Hp; [| lia]. apply Z.mod_divide in Hq; [| lia].
  destruct Hp as [k Hk]. destruct Hq as [j Hj]. lia.
Qed.

(** The link of page [q] survives any write that stays inside another
    page [p]. *)
Lemma load64_other_page m m' p q :
  aligned p -> aligned q -> 0 <= q < 2 ^ 64 -> p <> q ->
  (forall a, 0 <= a < 2 ^ 64 -> ~ in_page p a -> m' a = m a) ->
  load64 m' q = load64 m q.
Proof.
  intros Hp Hq Hqr Hne Hout. apply load64_ext. intros k Hk.
  assert (Htop := aligned_top q Hq Hqr). unfold PGSIZE in Htop.
  rewrite wrap64_small by lia.
  apply Hout; [lia |].
  apply (aligned_apart p q); auto. unfold PGSIZE. lia.
Qed.

Lemma chain_ext m m' h l :
  (forall p, In p l -> load64 m' p = load64 m p) ->
  chain m h l -> chain m' h l.
Proof.
  revert h. induction l as [| p l IH]; intros h Hl Hc; simpl in *; auto.
  destruct Hc as (Hh & Hnz & Hc). repeat split; auto.
  rewrite Hl by auto. apply IH; auto.
Qed.

Lemma chain_head_nonzero m h l : chain m h l -> h <> 0 -> l <> [].
Proof. destruct l; simpl; intros; congruence. Qed.

Lemma chain_functional m h l l' :
  chain m h l -> chain m h l' -> l = l'.
Proof.
  revert h l'. induction l as [| p l IH]; intros h [| p' l'] H H'; simpl in *;
    auto.
  - destruct H' as (-> & Hnz & _). congruence.
  - destruct H as (-> & Hnz & _). congruence.
  - destruct H as (-> & _ & H). destruct H' as (<- & _ & H').
    f_equal. eapply IH; eauto.
Qed.

Lemma PGROUNDUP_spec x :
  0 <= x -> x + PGSIZE <= 2 ^ 64 ->
  aligned (PGROUNDUP x) /\ x <= PGROUNDUP x < x + PGSIZE.
Proof.
  intros H0 Htop. unfold PGROUNDUP, aligned, PGSIZE in *.
  change (2 ^ 64) with 18446744073709551616 in Htop.
  rewrite wrap64_small by (change (2 ^ 64) with 18446744073709551616; lia).
  rewrite <- Z.ldiff_land.
  change (4096 - 1) with (Z.ones 12).
  rewrite Z.ldiff_ones_r by lia.
  rewrite Z.shiftl_mul_pow2, Z.shiftr_div_pow2 by lia.
  change (2 ^ 12) with 4096. change (Z.ones 12) with 4095.
  split.
  - apply Z_mod_mult.
  - assert (E := Z.div_mod (x + 4096 - 4095) 4096).
    assert (B := Z.mod_pos_bound (x + 4096 - 4095) 4096).
    replace (x + 4096 - 1) with (x + 4095) by lia.
    assert (E' := Z.div_mod (x + 4095) 4096).
    assert (B' := Z.mod_pos_bound (x + 4095) 4096). lia.
Qed.

Lemma In_page_run n p q :
  In q (page_run n p) <->
  exists k, 0 <= k < Z.of_nat n /\ q = p + k * PGSIZE.
Proof.
  revert p. induction n as [| n IH]; intros p; simpl.
  - split; [tauto | intros (k & Hk & _); lia].
  - rewrite IH. split.
    + intros [<- | (k & Hk & ->)].
      * exists 0. lia.
      * exists (k + 1). lia.
    + intros (k & Hk & ->). destruct (Z.eq_dec k 0) as [-> | Hne].
      * left. lia.
      * right. exists (k - 1). lia.
Qed.

Lemma NoDup_page_run n p : NoDup (page_run n p).
Proof.
  revert p. induction n as [| n IH]; intros p; simpl; constructor; auto.
  rewrite In_page_run. unfold PGSIZE. intros (k & Hk & E). lia.
Qed.

(** ** The calls *)

Section AllocatorFacts.

Variable NCPU : nat.
Variable kend : Z.
Variable PHYSTOP : Z.

Local Notation kfree := (kfree kend PHYSTOP).
Local Notation kalloc := (kalloc NCPU).
Local Notation kinit := (kinit kend PHYSTOP).
Local Notation valid_page := (valid_page kend PHYSTOP).
Local Notation lists_ok := (lists_ok NCPU kend PHYSTOP).
Local Notation reach := (reach NCPU kend PHYSTOP).
Local Notation all_free := (all_free NCPU).

Lemma kfree_panics cpu pa s :
  ~ valid_page pa -> kfree cpu pa s = Panic "kfree".
Proof.
  intros H. unfold Kalloc.kfree.
  destruct (pa mod PGSIZE =? 0) eqn:E1; simpl; auto.
  destruct (pa <? kend) eqn:E2; simpl; auto.
  destruct (pa >=? PHYSTOP) eqn:E3; simpl; auto.
  exfalso. apply H. unfold Kalloc.valid_page. lia.
Qed.

Lemma kfree_returns cpu pa s :
  valid_page pa ->
  kfree cpu pa s =
  Done (mkKmem (upd (freelist s) cpu pa)
               (store64 (memset (ram s) pa 1 PGSIZE) pa (freelist s cpu))).
Proof.
  intros (Ha & Hr). unfold Kalloc.kfree.
  replace (pa mod PGSIZE =? 0) with true by (symmetry; lia).
  replace (pa <? kend) with false by (symmetry; lia).
  replace (pa >=? PHYSTOP) with false by (symmetry; lia).
  reflexivity.
Qed.

Lemma valid_page_aligned p : valid_page p -> aligned p.
Proof. now intros (H & _). Qed.

(** The steal loop returns the head of the first non-empty list at or
    after index [i], the calling core's own list left out. *)
Lemma steal_char n i cpu s :
  (forall j, (j < i)%nat -> j <> cpu -> freelist s j = 0) ->
  ((forall j, (j < i + n)%nat -> j <> cpu -> freelist s j = 0) /\
   steal n i cpu s = (0, s)) \/
  (exists k, (i <= k < i + n)%nat /\ k <> cpu /\ freelist s k <> 0 /\
     (forall j, (j < k)%nat -> j <> cpu -> freelist s j = 0) /\
     steal n i cpu s =
     (freelist s k,
      mkKmem (upd (freelist s) k (load64 (ram s) (freelist s k))) (ram s))).
Proof.
  revert i. induction n as [| n IH]; intros i Hlow.
  - left. split; [| reflexivity]. intros j Hj. apply Hlow. lia.
  - simpl. destruct (Nat.eqb i cpu) eqn:Ei.
    + apply Nat.eqb_eq in Ei.
      destruct (IH (S i)) as [(Hall & Hs) | (k & Hk & Hkc & Hnz & Hlo & Hs)].
      * intros j Hj Hjc. apply Hlow; auto. lia.
      * left. split; auto. intros j Hj. apply Hall. lia.
      * right. exists k. repeat split; auto; lia.
    + apply Nat.eqb_neq in Ei.
      destruct (freelist s i =? 0) eqn:Ez; simpl.
      * apply Z.eqb_eq in Ez.
        destruct (IH (S i)) as [(Hall & Hs) | (k & Hk & Hkc & Hnz & Hlo & Hs)].
        -- intros j Hj Hjc. destruct (Nat.eq_dec j i) as [-> | Hne]; auto.
           apply Hlow; auto. lia.
        -- left. split; auto. intros j Hj. apply Hall. lia.
        -- right. exists k. repeat split; auto; lia.
      * apply Z.eqb_neq in Ez. right. exists i. repeat split; auto; lia.
Qed.

(** [kalloc] either finds every list empty and changes nothing, or pops
    the head of one list [k] -- the caller's own, or else the first
    non-empty one in index order -- and fills that page with 5s. *)
Lemma kalloc_char cpu s :
  (cpu < NCPU)%nat ->
  ((forall j, (j < NCPU)%nat -> freelist s j = 0) /\ kalloc cpu s = (0, s)) \/
  (exists k, (k < NCPU)%nat /\ freelist s k <> 0 /\
     (k = cpu \/
      (freelist s cpu = 0 /\ forall j, (j < k)%nat -> freelist s j = 0)) /\
     kalloc cpu s =
     (freelist s k,
      mkKmem (upd (freelist s) k (load64 (ram s) (freelist s k)))
             (memset (ram s) (freelist s k) 5 PGSIZE))).
Proof.
  intros Hcpu. unfold Kalloc.kalloc.
  destruct (freelist s cpu =? 0) eqn:E0; cbn [negb].
  - apply Z.eqb_eq in E0.
    destruct (steal_char NCPU 0 cpu s) as [(Hall & Hs) | (k & Hk & Hkc & Hnz & Hlo & Hs)].
    + intros j Hj. lia.
    + left. rewrite Hs. cbn. split; auto.
      intros j Hj. destruct (Nat.eq_dec j cpu) as [-> | Hne]; auto.
    + right. exists k. rewrite Hs.
      apply Z.eqb_neq in Hnz. rewrite Hnz. cbn [negb ram freelist].
      apply Z.eqb_neq in Hnz. repeat split; auto; try lia.
      right. split; auto. intros j Hj.
      destruct (Nat.eq_dec j cpu) as [-> | Hne]; auto.
  - right. exists cpu. rewrite E0. cbn [negb ram freelist].
    apply Z.eqb_neq in E0. repeat split; auto.
Qed.

Section Bounded.

Hypothesis kend_pos : 0 < kend.
Hypothesis PHYSTOP_max : PHYSTOP <= 2 ^ 64.

Lemma valid_page_range p : valid_page p -> 0 <= p < 2 ^ 64.
Proof. intros (_ & H). lia. Qed.

Lemma valid_page_top p : valid_page p -> p + PGSIZE <= 2 ^ 64.
Proof.
  intros H. apply aligned_top; [now apply valid_page_aligned |].
  now apply valid_page_range.
Qed.

(** The memory [kfree(pa)] leaves behind, byte by byte. *)
Lemma kfree_ram pa h m :
  valid_page pa -> 0 <= h < 2 ^ 64 ->
  let m' := store64 (memset m pa 1 PGSIZE) pa h in
  load64 m' pa = h /\
  (forall a, pa + 8 <= a < pa + PGSIZE -> m' a = 1) /\
  (forall a, 0 <= a < 2 ^ 64 -> ~ in_page pa a -> m' a = m a).
Proof.
  intros Hv Hh m'. subst m'.
  assert (Hr := valid_page_range pa Hv).
  assert (Ht := valid_page_top pa Hv). unfold PGSIZE in *.
  split; [now apply load64_store64 |]. split.
  - intros a Ha. rewrite store64_out by lia.
    rewrite memset_in by (change (2 ^ 64) with 18446744073709551616; lia).
    reflexivity.
  - intros a Ha Hout. unfold in_page, PGSIZE in Hout.
    rewrite store64_out by lia. apply memset_out; lia.
Qed.

Lemma chain_after_write m m' h l pa :
  Forall valid_page l -> ~ In pa l -> aligned pa ->
  (forall a, 0 <= a < 2 ^ 64 -> ~ in_page pa a -> m' a = m a) ->
  chain m h l -> chain m' h l.
Proof.
  intros Hv Hni Hpa Hout. apply chain_ext. intros q Hq.
  rewrite Forall_forall in Hv.
  apply (load64_other_page m m' pa q); auto.
  - now apply valid_page_aligned, Hv.
  - now apply valid_page_range, Hv.
  - intros ->. now apply Hni.
Qed.

Lemma chain_head_range m h l :
  chain m h l -> Forall valid_page l -> 0 <= h < 2 ^ 64.
Proof.
  destruct l as [| p l]; simpl.
  - intros ->. change (2 ^ 64) with 18446744073709551616. lia.
  - intros (-> & _) Hv. inversion Hv; subst. now apply valid_page_range.
Qed.

(** Pushing page [pa] on a list whose pages it is not among. *)
Lemma kfree_push m h l pa :
  valid_page pa -> chain m h l -> Forall valid_page l -> ~ In pa l ->
  chain (store64 (memset m pa 1 PGSIZE) pa h) pa (pa :: l).
Proof.
  intros Hv Hc Hvl Hni.
  assert (Hh := chain_head_range m h l Hc Hvl).
  destruct (kfree_ram pa h m Hv Hh) as (Hld & _ & Hout).
  simpl. repeat split.
  - destruct Hv as (_ & Hv). lia.
  - rewrite Hld. eapply chain_after_write; eauto.
    now apply valid_page_aligned.
Qed.

Lemma In_all_free L p :
  In p (all_free L) <-> exists i, (i < NCPU)%nat /\ In p (L i).
Proof.
  unfold Kalloc.all_free. rewrite in_flat_map. split.
  - intros (i & Hi & Hp). apply in_seq in Hi. exists i. split; [lia | auto].
  - intros (i & Hi & Hp). exists i. split; auto. apply in_seq. lia.
Qed.

Lemma lists_ok_ext s L L' :
  (forall i, (i < NCPU)%nat -> L i = L' i) -> lists_ok s L -> lists_ok s L'.
Proof.
  intros He (H1 & H2). split.
  - intros i Hi. rewrite <- He by auto. now apply H1.
  - intros i j p Hi Hj Hne. rewrite <- !He by auto. now apply H2.
Qed.

(** [kfree] of a page that is on no list keeps the lists in order. *)
Lemma kfree_lists_ok cpu pa s L :
  lists_ok s L -> (cpu < NCPU)%nat -> valid_page pa ->
  ~ In pa (all_free L) ->
  lists_ok (mkKmem (upd (freelist s) cpu pa)
                   (store64 (memset (ram s) pa 1 PGSIZE) pa (freelist s cpu)))
           (upd L cpu (pa :: L cpu)).
Proof.
  intros (H1 & H2) Hcpu Hv Hni.
  assert (Hnot : forall i, (i < NCPU)%nat -> ~ In pa (L i)).
  { intros i Hi Hin. apply Hni. apply In_all_free. eauto. }
  split.
  - intros i Hi. destruct (H1 i Hi) as (Hc & Hnd & Hvl).
    destruct (Nat.eq_dec i cpu) as [-> | Hne].
    + rewrite !upd_same. cbn [ram freelist]. rewrite upd_same.
      split; [apply kfree_push; auto |].
      split; [constructor; auto | constructor; auto].
    + rewrite !upd_other by auto. cbn [ram freelist].
      rewrite upd_other by auto. repeat split; auto.
      destruct (H1 cpu Hcpu) as (Hcc & _ & Hvc).
      assert (Hh := chain_head_range _ _ _ Hcc Hvc).
      destruct (kfree_ram pa (freelist s cpu) (ram s) Hv Hh) as (_ & _ & Hout).
      eapply chain_after_write; eauto. now apply valid_page_aligned.
  - intros i j p Hi Hj Hne Hin Hin'.
    destruct (Nat.eq_dec i cpu) as [-> | Hic];
      destruct (Nat.eq_dec j cpu) as [-> | Hjc]; try congruence.
    + rewrite upd_same in Hin. rewrite upd_other in Hin' by auto.
      destruct Hin as [<- | Hin]; [now apply (Hnot j) | now apply (H2 cpu j p)].
    + rewrite upd_other in Hin by auto. rewrite upd_same in Hin'.
      destruct Hin' as [<- | Hin']; [now apply (Hnot i) | now apply (H2 i cpu p)].
    + rewrite upd_other in Hin, Hin' by auto. now apply (H2 i j p).
Qed.

(** Popping the head of a non-empty list [k], as [kalloc] does, keeps
    the lists in order and takes exactly that page off list [k]. *)
Lemma pop_lists_ok s L k :
  lists_ok s L -> (k < NCPU)%nat -> freelist s k <> 0 ->
  exists tl,
    L k = freelist s k :: tl /\
    valid_page (freelist s k) /\
    lists_ok (mkKmem (upd (freelist s) k (load64 (ram s) (freelist s k)))
                     (memset (ram s) (freelist s k) 5 PGSIZE))
             (upd L k tl) /\
    (forall i, (i < NCPU)%nat ->
               remove Z.eq_dec (freelist s k) (L i) = upd L k tl i).
Proof.
  intros (H1 & H2) Hk Hnz.
  destruct (H1 k Hk) as (Hc & Hnd & Hvl).
  destruct (L k) as [| r tl] eqn:El; simpl in Hc; [congruence |].
  destruct Hc as (Hr & _ & Hc). rewrite Hr in *. clear Hr.
  exists tl. split; [reflexivity |].
  inversion Hnd as [| ? ? Hrtl Hndtl]; subst.
  inversion Hvl as [| ? ? Hvr Hvtl]; subst.
  split; [exact Hvr |].
  assert (Hout : forall a, 0 <= a < 2 ^ 64 -> ~ in_page r a ->
                           memset (ram s) r 5 PGSIZE a = ram s a).
  { intros a Ha Hout. unfold in_page in Hout.
    assert (Hrr := valid_page_range r Hvr).
    assert (Ht := valid_page_top r Hvr).
    apply memset_out; unfold PGSIZE in *; lia. }
  assert (Hother : forall i, (i < NCPU)%nat -> i <> k -> ~ In r (L i)).
  { intros i Hi Hne Hin. apply (H2 k i r); auto. rewrite El. now left. }
  split; [split |].
  - intros i Hi. destruct (Nat.eq_dec i k) as [-> | Hne].
    + rewrite upd_same. cbn [ram freelist]. rewrite upd_same.
      repeat split; auto.
      eapply chain_after_write; eauto. now apply valid_page_aligned.
    + rewrite upd_other by auto. cbn [ram freelist]. rewrite upd_other by auto.
      destruct (H1 i Hi) as (Hci & Hndi & Hvi). repeat split; auto.
      eapply chain_after_write; eauto. now apply valid_page_aligned.
  - intros i j p Hi Hj Hne Hin Hin'.
    destruct (Nat.eq_dec i k) as [-> | Hik];
      destruct (Nat.eq_dec j k) as [-> | Hjk]; try congruence.
    + rewrite upd_same in Hin. rewrite upd_other in Hin' by auto.
      apply (H2 k j p); auto. rewrite El. now right.
    + rewrite upd_other in Hin by auto. rewrite upd_same in Hin'.
      apply (H2 i k p); auto. rewrite El. now right.
    + rewrite upd_other in Hin, Hin' by auto. now apply (H2 i j p).
  - intros i Hi. destruct (Nat.eq_dec i k) as [-> | Hne].
    + rewrite upd_same, El. simpl.
      destruct (Z.eq_dec r r); [| congruence]. now apply notin_remove.
    + rewrite upd_other by auto. apply notin_remove. now apply Hother.
Qed.

Lemma kalloc_lists_ok cpu s L :
  lists_ok s L -> (cpu < NCPU)%nat ->
  lists_ok (snd (kalloc cpu s))
           (fun i => remove Z.eq_dec (fst (kalloc cpu s)) (L i)) /\
  (fst (kalloc cpu s) = 0 \/ valid_page (fst (kalloc cpu s))).
Proof.
  intros Hok Hcpu.
  destruct (kalloc_char cpu s Hcpu) as [(Hall & ->) | (k & Hk & Hnz & _ & ->)];
    cbn [fst snd].
  - split; [| now left].
    apply (lists_ok_ext s L); auto. intros i Hi. symmetry.
    apply notin_remove. intros Hin.
    destruct Hok as (H1 & _). destruct (H1 i Hi) as (_ & _ & Hv).
    rewrite Forall_forall in Hv. destruct (Hv 0 Hin) as (_ & Hr). lia.
  - destruct (pop_lists_ok s L k Hok Hk Hnz) as (tl & El & Hv & Hok' & Hrm).
    split; [| now right].
    eapply lists_ok_ext; [| exact Hok']. intros i Hi. symmetry. now apply Hrm.
Qed.

(** C7. [kalloc] has no [panic]: it always returns.  Its result is the
    null pointer exactly when every core's list is empty, and the state
    is then untouched.  With a non-empty list of its own the caller pops
    that list's head; otherwise it takes the head of the first non-empty
    list in index order; either way one head moves on to its successor,
    all other heads stay, the page is filled with 5s, and of well-kept
    lists exactly one loses exactly its first page. *)
Theorem kalloc_spec cpu s :
  (cpu < NCPU)%nat ->
  let r := fst (kalloc cpu s) in
  let s' := snd (kalloc cpu s) in
  (r = 0 <-> forall i, (i < NCPU)%nat -> freelist s i = 0) /\
  (r = 0 -> s' = s) /\
  (freelist s cpu <> 0 ->
     r = freelist s cpu /\ freelist s' cpu = load64 (ram s) r /\
     forall i, i <> cpu -> freelist s' i = freelist s i) /\
  (freelist s cpu = 0 ->
     forall k, (k < NCPU)%nat -> freelist s k <> 0 ->
       (forall j, (j < k)%nat -> freelist s j = 0) ->
       r = freelist s k /\ freelist s' k = load64 (ram s) r /\
       forall i, i <> k -> freelist s' i = freelist s i) /\
  (r <> 0 -> ram s' = memset (ram s) r 5 PGSIZE) /\
  (forall L, lists_ok s L -> r <> 0 ->
     exists k tl, (k < NCPU)%nat /\ L k = r :: tl /\
                  lists_ok s' (upd L k tl)).
Proof.
  intros Hcpu.
  destruct (kalloc_char cpu s Hcpu) as [(Hall & ->) | (k & Hk & Hnz & Hwhich & ->)];
    cbn [fst snd freelist ram].
  - split; [tauto |]. split; [auto |].
    split; [intros H; rewrite Hall in H by auto; congruence |].
    split; [intros _ j Hj Hjn; rewrite Hall in Hjn by auto; congruence |].
    split; [congruence |]. intros L _ H. congruence.
  - split.
    { split; [congruence |]. intros Hall. now rewrite Hall in Hnz. }
    split; [congruence |]. split.
    { intros Hown. destruct Hwhich as [-> | (Hz & _)]; [| congruence].
      rewrite upd_same. repeat split. intros i Hi. now apply upd_other. }
    split.
    { intros Hown j Hj Hjnz Hjlow.
      assert (j = k) as ->.
      { destruct Hwhich as [-> | (_ & Hklow)]; [congruence |].
        destruct (Nat.lt_trichotomy j k) as [Hlt | [-> | Hgt]]; auto.
        - rewrite Hklow in Hjnz by auto. congruence.
        - rewrite Hjlow in Hnz by auto. congruence. }
      rewrite upd_same. repeat split. intros i Hi. now apply upd_other. }
    split; [reflexivity |].
    intros L Hok _.
    destruct (pop_lists_ok s L k Hok Hk Hnz) as (tl & El & _ & Hok' & _).
    exists k, tl. auto.
Qed.

Lemma poke_lists_ok a v s L :
  lists_ok s L ->
  (forall p, In p (all_free L) -> ~ in_page p a) ->
  lists_ok (poke s a v) L.
Proof.
  intros (H1 & H2) Hout. split; auto.
  intros i Hi. destruct (H1 i Hi) as (Hc & Hnd & Hv).
  repeat split; auto. unfold poke. cbn [ram freelist].
  revert Hc. apply chain_ext. intros q Hq. apply load64_ext. intros k Hk.
  rewrite Forall_forall in Hv.
  assert (Hr := valid_page_range q (Hv q Hq)).
  assert (Ht := valid_page_top q (Hv q Hq)). unfold PGSIZE in Ht.
  rewrite wrap64_small by lia.
  destruct (Z.eqb_spec (q + k) a) as [<- | Hne]; auto.
  exfalso. apply (Hout q).
  - apply In_all_free. eauto.
  - unfold in_page, PGSIZE. lia.
Qed.

(** C6. [kfree(pa)] panics when [pa] is not page-aligned or lies outside
    [[end, PHYSTOP)].  Otherwise it returns: [memset] has put the fill
    byte 1 on every byte of the page, the page's first eight bytes then
    take the old head of the calling core's list and the page becomes
    that list's new head, whatever list it was on before; memory outside
    the page, the heads of the other cores and the pages on their lists
    are as they were. *)
Theorem kfree_spec cpu pa s :
  0 <= freelist s cpu < 2 ^ 64 ->
  ((pa mod PGSIZE <> 0 \/ pa < kend \/ PHYSTOP <= pa) ->
   kfree cpu pa s = Panic "kfree") /\
  (pa mod PGSIZE = 0 /\ kend <= pa < PHYSTOP ->
   exists s',
     kfree cpu pa s = Done s' /\
     (forall a, in_page pa a -> memset (ram s) pa 1 PGSIZE a = 1) /\
     ram s' = store64 (memset (ram s) pa 1 PGSIZE) pa (freelist s cpu) /\
     (forall a, pa + 8 <= a < pa + PGSIZE -> ram s' a = 1) /\
     load64 (ram s') pa = freelist s cpu /\
     freelist s' cpu = pa /\
     (forall l, chain (ram s) (freelist s cpu) l -> Forall valid_page l ->
                ~ In pa l -> chain (ram s') (freelist s' cpu) (pa :: l)) /\
     (forall a, 0 <= a < 2 ^ 64 -> ~ in_page pa a -> ram s' a = ram s a) /\
     (forall i, i <> cpu -> freelist s' i = freelist s i) /\
     (forall i l, i <> cpu -> chain (ram s) (freelist s i) l ->
                  Forall valid_page l -> ~ In pa l ->
                  chain (ram s') (freelist s' i) l)).
Proof.
  intros Hh. split.
  - intros H. apply kfree_panics. unfold Kalloc.valid_page. lia.
  - intros Hv. change (valid_page pa) in Hv.
    destruct (kfree_ram pa (freelist s cpu) (ram s) Hv Hh) as (Hld & Hfill & Hout).
    eexists. split; [now apply kfree_returns |]. cbn [ram freelist].
    assert (Ht := valid_page_top pa Hv).
    split; [| split; [reflexivity | split; [exact Hfill | split; [exact Hld |]]]].
    { intros a Ha. unfold in_page in Ha. rewrite memset_in; [reflexivity | lia |].
      unfold PGSIZE. change (2 ^ 64) with 18446744073709551616. lia. }
    split; [apply upd_same |]. split.
    { intros l Hc Hvl Hni. rewrite upd_same. simpl. repeat split.
      - destruct Hv as (_ & Hv). lia.
      - rewrite Hld. eapply chain_after_write; eauto.
        now apply valid_page_aligned. }
    split; [exact Hout |]. split.
    { intros i Hi. now apply upd_other. }
    intros i l Hi Hc Hvl Hni. rewrite upd_other by auto.
    eapply chain_after_write; eauto. now apply valid_page_aligned.
Qed.

(** *** How [kfree] and [kalloc] compose *)

Lemma kalloc_own cpu s :
  freelist s cpu <> 0 ->
  kalloc cpu s =
  (freelist s cpu,
   mkKmem (upd (freelist s) cpu (load64 (ram s) (freelist s cpu)))
          (memset (ram s) (freelist s cpu) 5 PGSIZE)).
Proof.
  intros Hnz. unfold Kalloc.kalloc. apply Z.eqb_neq in Hnz.
  rewrite Hnz. cbn [negb ram freelist]. rewrite Hnz. reflexivity.
Qed.

(** X1. A page freed and at once allocated again on the same core comes
    straight back: [kalloc] returns the very pointer [kfree] was given,
    every list head is what it was before the [kfree], the page is 5s
    from end to end and memory outside the page is untouched. *)
Theorem kfree_then_kalloc cpu pa s :
  pa mod PGSIZE = 0 /\ kend <= pa < PHYSTOP ->
  0 <= freelist s cpu < 2 ^ 64 ->
  exists s1,
    kfree cpu pa s = Done s1 /\
    fst (kalloc cpu s1) = pa /\
    (forall i, freelist (snd (kalloc cpu s1)) i = freelist s i) /\
    (forall a, in_page pa a -> ram (snd (kalloc cpu s1)) a = 5) /\
    (forall a, 0 <= a < 2 ^ 64 -> ~ in_page pa a ->
               ram (snd (kalloc cpu s1)) a = ram s a).
Proof.
  intros Hv Hh. change (valid_page pa) in Hv.
  destruct (kfree_ram pa (freelist s cpu) (ram s) Hv Hh) as (Hld & _ & Hout).
  assert (Hr := valid_page_range pa Hv). assert (Ht := valid_page_top pa Hv).
  eexists. split; [now apply kfree_returns |].
  rewrite kalloc_own; cbn [freelist ram fst snd]; rewrite upd_same.
  - split; [reflexivity |]. split; [| split].
    + intros i. destruct (Nat.eq_dec i cpu) as [-> | Hne].
      * rewrite upd_same. exact Hld.
      * now rewrite !upd_other by auto.
    + intros a Ha. unfold in_page in Ha. rewrite memset_in; [reflexivity | lia |].
      unfold PGSIZE. change (2 ^ 64) with 18446744073709551616. lia.
    + intros a Ha Hna. unfold in_page in Hna.
      rewrite memset_out by (unfold PGSIZE in *; lia). now apply Hout.
  - destruct Hv as (_ & Hv). lia.
Qed.

(** X2. With every list empty, a page freed on one core is what the next
    [kalloc] returns on any core, its own or another (which steals it),
    and every list is empty again afterwards. *)
Theorem kfree_then_steal a b pa s :
  (a < NCPU)%nat -> (b < NCPU)%nat ->
  (forall i, (i < NCPU)%nat -> freelist s i = 0) ->
  pa mod PGSIZE = 0 /\ kend <= pa < PHYSTOP ->
  exists s1,
    kfree a pa s = Done s1 /\
    fst (kalloc b s1) = pa /\
    (forall i, (i < NCPU)%nat -> freelist (snd (kalloc b s1)) i = 0).
Proof.
  intros Ha Hb Hempty Hv. change (valid_page pa) in Hv.
  assert (Hh : 0 <= freelist s a < 2 ^ 64).
  { rewrite Hempty by auto. change (2 ^ 64) with 18446744073709551616. lia. }
  destruct (kfree_ram pa (freelist s a) (ram s) Hv Hh) as (Hld & _ & _).
  assert (Hnz : pa <> 0) by (destruct Hv as (_ & Hv); lia).
  eexists. split; [now apply kfree_returns |].
  match goal with |- context [kalloc b ?t] => set (s1 := t) end.
  assert (Hheads : forall k, (k < NCPU)%nat -> freelist s1 k <> 0 -> k = a).
  { intros k Hk Hkz. destruct (Nat.eq_dec k a) as [-> | Hne]; auto.
    exfalso. apply Hkz. unfold s1. cbn [freelist].
    rewrite upd_other by auto. now apply Hempty. }
  destruct (kalloc_char b s1 Hb) as [(Hall & _) | (k & Hk & Hkz & _ & ->)].
  - exfalso. specialize (Hall a Ha). unfold s1 in Hall. cbn [freelist] in Hall.
    rewrite upd_same in Hall. contradiction.
  - assert (k = a) as -> by auto. unfold s1. cbn [fst snd freelist ram].
    rewrite upd_same. split; [reflexivity |].
    intros i Hi. destruct (Nat.eq_dec i a) as [-> | Hne].
    + rewrite upd_same, Hld. now apply Hempty.
    + rewrite !upd_other by auto. now apply Hempty.
Qed.

(** X3. A page allocated and at once freed again on the same core goes
    to the head of that core's list, whichever list it was taken from,
    and the lists stay well kept; if it was taken from the core's own
    list, every list holds exactly the pages it held before. *)
Theorem kalloc_then_kfree cpu s L :
  lists_ok s L -> (cpu < NCPU)%nat ->
  let r := fst (kalloc cpu s) in
  r <> 0 ->
  exists s2 k tl,
    kfree cpu r (snd (kalloc cpu s)) = Done s2 /\
    (k < NCPU)%nat /\ L k = r :: tl /\
    lists_ok s2 (upd (upd L k tl) cpu (r :: upd L k tl cpu)) /\
    (freelist s cpu <> 0 -> k = cpu /\ lists_ok s2 L).
Proof.
  intros Hok Hcpu r Hr. subst r.
  destruct (kalloc_char cpu s Hcpu)
    as [(_ & E) | (k & Hk & Hnz & Hwhich & E)]; rewrite E in *;
    cbn [fst snd] in *; [congruence |].
  destruct (pop_lists_ok s L k Hok Hk Hnz) as (tl & El & Hv & Hok' & Hrm).
  assert (Hfree : ~ In (freelist s k) (all_free (upd L k tl))).
  { rewrite In_all_free. intros (i & Hi & Hin). rewrite <- Hrm in Hin by auto.
    now apply remove_In in Hin. }
  assert (Hok2 := kfree_lists_ok cpu (freelist s k) _ _ Hok' Hcpu Hv Hfree).
  eexists. exists k, tl. split; [now apply kfree_returns |].
  split; [exact Hk |]. split; [exact El |]. split; [exact Hok2 |].
  intros Hown. destruct Hwhich as [-> | (Hz & _)]; [| congruence].
  split; [reflexivity |].
  revert Hok2. apply lists_ok_ext. intros i Hi.
  destruct (Nat.eq_dec i cpu) as [-> | Hne].
  - now rewrite !upd_same.
  - now rewrite !upd_other by auto.
Qed.

Section Booting.

Hypothesis kend_le : kend <= PHYSTOP.
Hypothesis PHYSTOP_room : PHYSTOP + 2 * PGSIZE <= 2 ^ 64.

(** The loop of [freerange], [n] pages before it stops: it pushes them
    one after the other on the calling core's list. *)
Lemma freerange_loop_spec cpu n :
  forall fuel p s l,
    (n < fuel)%nat -> aligned p -> kend <= p -> p + PGSIZE < 2 ^ 64 ->
    (n = O \/ p + Z.of_nat n * PGSIZE <= PHYSTOP) ->
    PHYSTOP < p + (Z.of_nat n + 1) * PGSIZE ->
    chain (ram s) (freelist s cpu) l -> Forall valid_page l ->
    (forall q, In q l -> q < p) ->
    exists s',
      freerange_loop kend PHYSTOP fuel cpu p PHYSTOP s = Done s' /\
      chain (ram s') (freelist s' cpu) (rev (page_run n p) ++ l) /\
      (forall i, i <> cpu -> freelist s' i = freelist s i).
Proof.
  pose proof PHYSTOP_room as Hroom. unfold PGSIZE in Hroom.
  change (2 ^ 64) with 18446744073709551616 in Hroom.
  induction n as [| n IH];
    intros fuel p s l Hfuel Hal Hlow Hnw Hfit Hstop Hc Hv Hlt;
    change (2 ^ 64) with 18446744073709551616 in Hnw;
    (destruct fuel as [| fuel]; [lia |]); cbn [freerange_loop].
  - unfold PGSIZE in *.
    rewrite wrap64_small by (change (2 ^ 64) with 18446744073709551616; lia).
    replace (p + 4096 <=? PHYSTOP) with false by (symmetry; lia).
    exists s. simpl. auto.
  - unfold PGSIZE in Hnw, Hfit, Hstop. destruct Hfit as [Hfit | Hfit]; [lia |].
    assert (Hw : wrap64 (p + PGSIZE) = p + PGSIZE)
      by (apply wrap64_small; unfold PGSIZE;
          change (2 ^ 64) with 18446744073709551616; lia).
    rewrite Hw. unfold PGSIZE at 1.
    replace (p + 4096 <=? PHYSTOP) with true by (symmetry; lia).
    assert (Hvp : valid_page p) by (split; [exact Hal | lia]).
    rewrite kfree_returns by exact Hvp. cbn [bind].
    assert (Hni : ~ In p l) by (intros Hin; apply Hlt in Hin; lia).
    destruct (IH fuel (p + PGSIZE)
                (mkKmem (upd (freelist s) cpu p)
                   (store64 (memset (ram s) p 1 PGSIZE) p (freelist s cpu)))
                (p :: l)) as (s' & Hrun & Hc' & Hoth).
    + lia.
    + unfold aligned, PGSIZE in *. rewrite <- Zplus_mod_idemp_l, Hal.
      reflexivity.
    + unfold PGSIZE. lia.
    + unfold PGSIZE. change (2 ^ 64) with 18446744073709551616. lia.
    + right. unfold PGSIZE. lia.
    + unfold PGSIZE. lia.
    + cbn [ram freelist]. rewrite upd_same. now apply kfree_push.
    + now constructor.
    + unfold PGSIZE. intros q [<- | Hq]; [lia |]. apply Hlt in Hq. lia.
    + exists s'. split; [exact Hrun |]. split.
      * cbn [page_run rev]. rewrite <- app_assoc. exact Hc'.
      * intros i Hi. rewrite Hoth by auto. cbn [freelist]. now apply upd_other.
Qed.

Lemma freerange_loop_more cpu pa_end fuel :
  forall fuel' p s s',
    (fuel <= fuel')%nat ->
    freerange_loop kend PHYSTOP fuel cpu p pa_end s = Done s' ->
    freerange_loop kend PHYSTOP fuel' cpu p pa_end s = Done s'.
Proof.
  induction fuel as [| fuel IH]; intros fuel' p s s' Hle Hrun;
    [discriminate |].
  destruct fuel' as [| fuel']; [lia |]. cbn [freerange_loop] in *.
  destruct (wrap64 (p + PGSIZE) <=? pa_end); auto.
  destruct (kfree cpu p s) as [s1 | |]; cbn [bind] in *; try discriminate.
  apply IH; [lia | exact Hrun].
Qed.

Lemma npages_bounds :
  let N := Z.of_nat (npages kend PHYSTOP) in
  (npages kend PHYSTOP = O \/ PGROUNDUP kend + N * PGSIZE <= PHYSTOP) /\
  PHYSTOP < PGROUNDUP kend + (N + 1) * PGSIZE.
Proof.
  unfold npages, PGSIZE.
  set (p0 := PGROUNDUP kend).
  assert (E := Z.div_mod (PHYSTOP - p0) 4096).
  assert (B := Z.mod_pos_bound (PHYSTOP - p0) 4096).
  destruct (Z_lt_ge_dec ((PHYSTOP - p0) / 4096) 0) as [Hneg | Hpos].
  - replace (Z.to_nat ((PHYSTOP - p0) / 4096)) with O by lia.
    simpl. split; [now left | lia].
  - rewrite Z2Nat.id by lia. split; [right |]; lia.
Qed.

Lemma In_managed_pages p :
  In p (managed_pages kend PHYSTOP) <->
  aligned p /\ kend <= p /\ p + PGSIZE <= PHYSTOP.
Proof.
  unfold managed_pages. rewrite In_page_run.
  destruct (PGROUNDUP_spec kend) as (Hal & Hge); [lia | unfold PGSIZE in *; lia |].
  destruct npages_bounds as (Hfit & Hstop).
  unfold aligned, PGSIZE in *.
  apply Z.mod_divide in Hal; [| lia]. destruct Hal as [j Hj].
  split.
  - intros (k & Hk & ->). split; [| lia].
    rewrite Hj, <- Z.mul_add_distr_r. apply Z_mod_mult.
  - intros (Hp & Hlow & Hhigh).
    apply Z.mod_divide in Hp; [| lia]. destruct Hp as [i Hi].
    exists (i - j). split; [| lia].
    destruct Hfit as [Hz | Hfit]; [rewrite Hz in *; simpl in *; lia | lia].
Qed.

(** [kinit] on core [cpu], out of the zeroed globals. *)
Lemma kinit_lists fuel cpu s0 :
  booted NCPU s0 -> (cpu < NCPU)%nat -> (npages kend PHYSTOP < fuel)%nat ->
  exists s,
    kinit fuel cpu s0 = Done s /\
    chain (ram s) (freelist s cpu) (rev (managed_pages kend PHYSTOP)) /\
    (forall i, (i < NCPU)%nat -> i <> cpu -> freelist s i = 0).
Proof.
  intros Hboot Hcpu Hfuel. unfold Kalloc.kinit, freerange.
  destruct (PGROUNDUP_spec kend) as (Hal & Hge); [lia | unfold PGSIZE in *; lia |].
  destruct npages_bounds as (Hfit & Hstop).
  destruct (freerange_loop_spec cpu (npages kend PHYSTOP) fuel
              (PGROUNDUP kend) s0 []) as (s & Hrun & Hc & Hoth); auto.
  - lia.
  - unfold PGSIZE in *. change (2 ^ 64) with 18446744073709551616 in *. lia.
  - simpl. now apply Hboot.
  - intros q [].
  - exists s. split; [exact Hrun |]. rewrite app_nil_r in Hc.
    split; [exact Hc |]. intros i Hi Hne. rewrite Hoth by auto.
    now apply Hboot.
Qed.

Lemma managed_pages_valid :
  Forall valid_page (managed_pages kend PHYSTOP).
Proof.
  apply Forall_forall. intros p Hp. apply In_managed_pages in Hp.
  destruct Hp as (Hal & Hlow & Hhigh). split; [exact Hal |].
  unfold PGSIZE in *. lia.
Qed.

Lemma kinit_lists_ok fuel cpu s0 s :
  booted NCPU s0 -> (cpu < NCPU)%nat -> kinit fuel cpu s0 = Done s ->
  lists_ok s (upd (fun _ => []) cpu (rev (managed_pages kend PHYSTOP))).
Proof.
  intros Hboot Hcpu Hrun.
  destruct (kinit_lists (S (Nat.max fuel (npages kend PHYSTOP))) cpu s0)
    as (s' & Hrun' & Hc & Hoth); auto; [lia |].
  unfold Kalloc.kinit, freerange in Hrun, Hrun'.
  apply (freerange_loop_more _ _ _ (S (Nat.max fuel (npages kend PHYSTOP))))
    in Hrun; [| lia].
  rewrite Hrun in Hrun'. injection Hrun' as <-.
  split.
  - intros i Hi. destruct (Nat.eq_dec i cpu) as [-> | Hne].
    + rewrite upd_same. split; [exact Hc |]. split.
      * apply NoDup_rev, NoDup_page_run.
      * apply Forall_rev, managed_pages_valid.
    + rewrite upd_other by auto. simpl. repeat split; auto using NoDup_nil.
  - intros i j p Hi Hj Hne Hin Hin'.
    destruct (Nat.eq_dec i cpu) as [-> | Hic].
    + rewrite upd_other in Hin' by auto. destruct Hin'.
    + rewrite upd_other in Hin by auto. destruct Hin.
Qed.

(** Every state the allocator runs through keeps its lists in order. *)
Lemma reach_lists_ok s L : reach s L -> lists_ok s L.
Proof.
  induction 1 as [fuel cpu s0 s Hboot Hcpu Hrun
                 | cpu pa s L s' Hreach IH Hcpu Hni Hrun
                 | cpu s L Hreach IH Hcpu
                 | a v s L Hreach IH Hout].
  - eapply kinit_lists_ok; eauto.
  - destruct (Z.eq_dec (pa mod PGSIZE) 0) as [Hal | Hal];
      [destruct (Z_lt_ge_dec pa kend) as [Hlo | Hlo];
       [| destruct (Z_lt_ge_dec pa PHYSTOP) as [Hhi | Hhi]] |].
    + rewrite kfree_panics in Hrun; [discriminate |].
      unfold Kalloc.valid_page. lia.
    + assert (Hv : valid_page pa) by (split; [exact Hal | lia]).
      rewrite kfree_returns in Hrun by exact Hv. injection Hrun as <-.
      now apply kfree_lists_ok.
    + rewrite kfree_panics in Hrun; [discriminate |].
      unfold Kalloc.valid_page. lia.
    + rewrite kfree_panics in Hrun; [discriminate |].
      unfold Kalloc.valid_page. lia.
  - now apply kalloc_lists_ok.
  - now apply poke_lists_ok.
Qed.

(** C1, as the code has it.  [kinit] run on core [cpu] returns (given
    fuel for one more than the number of pages), and puts every whole
    page-aligned page between the end of the kernel image and [PHYSTOP],
    each once, on the list of core [cpu] alone, the highest page first;
    the list of every other core stays empty. *)
Theorem kinit_spec fuel cpu s0 :
  booted NCPU s0 -> (cpu < NCPU)%nat -> (npages kend PHYSTOP < fuel)%nat ->
  exists s,
    kinit fuel cpu s0 = Done s /\
    chain (ram s) (freelist s cpu) (rev (managed_pages kend PHYSTOP)) /\
    (forall p, In p (managed_pages kend PHYSTOP) <->
               p mod PGSIZE = 0 /\ kend <= p /\ p + PGSIZE <= PHYSTOP) /\
    NoDup (managed_pages kend PHYSTOP) /\
    (forall i, (i < NCPU)%nat -> i <> cpu -> freelist s i = 0).
Proof.
  intros Hboot Hcpu Hfuel.
  destruct (kinit_lists fuel cpu s0 Hboot Hcpu Hfuel) as (s & Hrun & Hc & Hoth).
  exists s. split; [exact Hrun |]. split; [exact Hc |].
  split; [apply In_managed_pages |]. split; [apply NoDup_page_run | exact Hoth].
Qed.

(** C8. In every state the allocator runs through -- [kinit], then any
    calls of [kalloc], of [kfree] on pages that are not on a free list,
    and any writes outside the free pages -- the pointer [kalloc]
    returns is null or a page-aligned address in [[end, PHYSTOP)]. *)
Theorem kalloc_in_range cpu s L :
  reach s L -> (cpu < NCPU)%nat ->
  let r := fst (kalloc cpu s) in
  r = 0 \/ (r mod PGSIZE = 0 /\ kend <= r < PHYSTOP).
Proof.
  intros Hreach Hcpu. apply reach_lists_ok in Hreach.
  exact (proj2 (kalloc_lists_ok cpu s L Hreach Hcpu)).
Qed.

(** *** Runs of [kalloc] *)

Lemma kalloc_seq_cons cpu cpus s :
  kalloc_seq NCPU (cpu :: cpus) s =
  (fst (kalloc cpu s) :: fst (kalloc_seq NCPU cpus (snd (kalloc cpu s))),
   snd (kalloc_seq NCPU cpus (snd (kalloc cpu s)))).
Proof.
  cbn [kalloc_seq]. destruct (kalloc cpu s) as [r s1]. cbn [fst snd].
  now destruct (kalloc_seq NCPU cpus s1).
Qed.

Lemma kalloc_seq_fresh cpus :
  forall s L,
    lists_ok s L -> Forall (fun c => (c < NCPU)%nat) cpus ->
    NoDup (filter (fun r => negb (r =? 0)) (fst (kalloc_seq NCPU cpus s))) /\
    (forall r, In r (fst (kalloc_seq NCPU cpus s)) ->
               r = 0 \/ (In r (all_free L) /\ valid_page r)).
Proof.
  induction cpus as [| cpu cpus IH]; intros s L Hok Hcpus.
  - simpl. split; [constructor | intros r []].
  - inversion Hcpus as [| ? ? Hcpu Hcpus']; subst.
    rewrite kalloc_seq_cons. cbn [fst].
    destruct (kalloc_lists_ok cpu s L Hok Hcpu) as (Hok1 & Hr).
    destruct (IH _ _ Hok1 Hcpus') as (Hnd & Hin).
    assert (Hsub : forall x,
              In x (all_free (fun i => remove Z.eq_dec (fst (kalloc cpu s)) (L i))) ->
              In x (all_free L) /\ x <> fst (kalloc cpu s)).
    { intros x Hx. apply In_all_free in Hx. destruct Hx as (i & Hi & Hx).
      apply in_remove in Hx. destruct Hx as (Hx & Hne).
      split; [apply In_all_free; eauto | exact Hne]. }
    split.
    + cbn [filter]. destruct (fst (kalloc cpu s) =? 0) eqn:Ez; cbn [negb];
        [exact Hnd |].
      constructor; [| exact Hnd]. intros Hdup. apply filter_In in Hdup.
      destruct Hdup as (Hdup & Hnz). destruct (Hin _ Hdup) as [E | (Hf & _)].
      * rewrite E in Ez. discriminate.
      * apply Hsub in Hf. now destruct Hf.
    + intros r [<- | Hrin].
      * destruct Hr as [Hz | Hv]; [now left |]. right. split; [| exact Hv].
        destruct (kalloc_char cpu s Hcpu)
          as [(_ & E) | (k & Hk & Hnz & _ & E)]; rewrite E in *;
          cbn [fst] in *.
        -- destruct Hv as (_ & Hv). lia.
        -- destruct (pop_lists_ok s L k Hok Hk Hnz) as (tl & El & _).
           apply In_all_free. exists k. split; [exact Hk |].
           rewrite El. now left.
      * destruct (Hin r Hrin) as [Hz | (Hf & Hv)]; [now left |].
        right. split; [now apply Hsub in Hf | exact Hv].
Qed.

(** X4. [kalloc] never hands a page out twice: in a run of [kalloc]
    calls on any cores, with no [kfree] in between, the pointers returned
    that are not null are pairwise different, and each is a page that was
    on a free list at the start (so page-aligned and in range). *)
Theorem kalloc_never_twice cpus s L :
  reach s L -> Forall (fun c => (c < NCPU)%nat) cpus ->
  let rs := fst (kalloc_seq NCPU cpus s) in
  NoDup (filter (fun r => negb (r =? 0)) rs) /\
  (forall r, In r rs ->
     r = 0 \/ (In r (all_free L) /\ r mod PGSIZE = 0 /\ kend <= r < PHYSTOP)).
Proof.
  intros Hreach Hcpus. apply reach_lists_ok in Hreach.
  exact (kalloc_seq_fresh cpus s L Hreach Hcpus).
Qed.

Lemma length_page_run n p : List.length (page_run n p) = n.
Proof. revert p. induction n as [| n IH]; intros p; simpl; auto. Qed.

(** While only the list of core [c] holds pages, every [kalloc], on
    whichever core, takes that list's first page. *)
Lemma kalloc_seq_one_list c l :
  forall cpus s,
    (c < NCPU)%nat -> lists_ok s (upd (fun _ => []) c l) ->
    Forall (fun cpu => (cpu < NCPU)%nat) cpus ->
    List.length cpus = List.length l ->
    fst (kalloc_seq NCPU cpus s) = l /\
    lists_ok (snd (kalloc_seq NCPU cpus s)) (upd (fun _ => []) c []).
Proof.
  induction l as [| r tl IH]; intros cpus s Hc Hok Hcpus Hlen.
  - destruct cpus; [| discriminate]. simpl. auto.
  - destruct cpus as [| cpu cpus]; [discriminate |].
    inversion Hcpus as [| ? ? Hcpu Hcpus']; subst.
    rewrite kalloc_seq_cons. cbn [fst snd].
    assert (Hheads : forall k, (k < NCPU)%nat -> freelist s k <> 0 -> k = c).
    { intros k Hk Hkz. destruct (Nat.eq_dec k c) as [-> | Hne]; auto.
      exfalso. apply Hkz. destruct Hok as (H1 & _).
      destruct (H1 k Hk) as (Hch & _). rewrite upd_other in Hch by auto.
      exact Hch. }
    destruct (kalloc_char cpu s Hcpu)
      as [(Hall & _) | (k & Hk & Hnz & _ & E)].
    + exfalso. destruct Hok as (H1 & _). destruct (H1 c Hc) as (Hch & _).
      rewrite upd_same in Hch. simpl in Hch. destruct Hch as (Hh & Hrz & _).
      rewrite Hall in Hh by auto. congruence.
    + assert (k = c) as -> by auto. rewrite E. cbn [fst snd].
      destruct (pop_lists_ok s _ c Hok Hc Hnz) as (tl' & El & _ & Hok' & _).
      rewrite upd_same in El. injection El as Er Etl. subst tl'.
      destruct (IH cpus (mkKmem
                  (upd (freelist s) c (load64 (ram s) (freelist s c)))
                  (memset (ram s) (freelist s c) 5 PGSIZE)) Hc)
        as (Hrs & Hok'').
      * revert Hok'. apply lists_ok_ext. intros i Hi.
        destruct (Nat.eq_dec i c) as [-> | Hne].
        -- now rewrite !upd_same.
        -- now rewrite !upd_other by auto.
      * exact Hcpus'.
      * simpl in Hlen. lia.
      * split; [| exact Hok'']. now rewrite Hrs, Er.
Qed.

(** X5. What the allocator has to give after boot: once [kinit] has run,
    the next [kalloc] calls, as many as there are managed pages and on
    whichever cores, return the managed pages one by one from the
    highest down; after that [kalloc] returns null on every core and
    leaves the state alone. *)
Theorem boot_capacity fuel c s0 s cpus :
  booted NCPU s0 -> (c < NCPU)%nat -> kinit fuel c s0 = Done s ->
  Forall (fun cpu => (cpu < NCPU)%nat) cpus ->
  List.length cpus = npages kend PHYSTOP ->
  fst (kalloc_seq NCPU cpus s) = rev (managed_pages kend PHYSTOP) /\
  (forall cpu, (cpu < NCPU)%nat ->
     kalloc cpu (snd (kalloc_seq NCPU cpus s))
     = (0, snd (kalloc_seq NCPU cpus s))).
Proof.
  intros Hboot Hc Hrun Hcpus Hlen.
  assert (Hok := kinit_lists_ok fuel c s0 s Hboot Hc Hrun).
  destruct (kalloc_seq_one_list c _ cpus s Hc Hok Hcpus) as (Hrs & Hok').
  { rewrite length_rev. unfold managed_pages. now rewrite length_page_run. }
  split; [exact Hrs |]. intros cpu Hcpu.
  destruct (kalloc_char cpu (snd (kalloc_seq NCPU cpus s)) Hcpu)
    as [(_ & E) | (k & Hk & Hnz & _)]; [exact E |].
  exfalso. apply Hnz. destruct Hok' as (H1 & _).
  destruct (H1 k Hk) as (Hch & _).
  destruct (Nat.eq_dec k c) as [-> | Hne].
  - rewrite upd_same in Hch. exact Hch.
  - rewrite upd_other in Hch by auto. exact Hch.
Qed.

End Booting.

End Bounded.

End AllocatorFacts.

(** ** The calls on the example machine *)

Ltac ex_side :=
  first [ reflexivity
        | (unfold ex_NCPU; lia)
        | (vm_compute; repeat split; first [reflexivity | discriminate])
        | (vm_compute; lia) ].

Lemma ex_booted_run : kinit ex_end ex_PHYSTOP 16 0 boot0 = Done ex_booted.
Proof. reflexivity. Qed.

(** C1 as stated fails: [kinit] on core 0 of the example machine leaves
    the list of core 1 (and of every other core but 0) empty. *)
Lemma kinit_fills_one_list_only :
  kinit ex_end ex_PHYSTOP 16 0 boot0 = Done ex_booted /\
  freelist ex_booted 1 = 0 /\
  ~ every_core_populated ex_NCPU ex_booted.
Proof.
  split; [reflexivity |]. split; [reflexivity |].
  intros H. apply (H 1%nat); [unfold ex_NCPU; lia | reflexivity].
Qed.

Lemma kinit_spec_witness :
  exists s,
    kinit ex_end ex_PHYSTOP 16 0 boot0 = Done s /\
    (forall i, (i < ex_NCPU)%nat -> i <> 0%nat -> freelist s i = 0).
Proof.
  destruct (kinit_spec ex_NCPU ex_end ex_PHYSTOP
              ltac:(ex_side) ltac:(ex_side) ltac:(ex_side) ltac:(ex_side)
              16%nat 0%nat boot0)
    as (s & Hrun & _ & _ & _ & Hoth).
  - intros i _. reflexivity.
  - ex_side.
  - ex_side.
  - exists s. split; [exact Hrun | exact Hoth].
Defined.

Lemma kfree_spec_witness :
  exists s',
    kfree ex_end ex_PHYSTOP 1 2147627008 boot0 = Done s' /\
    freelist s' 1 = 2147627008 /\
    freelist s' 0 = freelist boot0 0.
Proof.
  destruct (kfree_spec ex_end ex_PHYSTOP ltac:(ex_side) ltac:(ex_side)
              1%nat 2147627008 boot0)
    as (_ & Hret).
  - ex_side.
  - destruct Hret as (s' & Hrun & _ & _ & _ & _ & Hhead & _ & _ & Hoth & _).
    + ex_side.
    + exists s'. split; [exact Hrun |]. split; [exact Hhead |].
      apply Hoth. discriminate.
Defined.

Lemma kalloc_spec_witness :
  fst (kalloc ex_NCPU 3 ex_booted) = freelist ex_booted 0.
Proof.
  destruct (kalloc_spec ex_NCPU ex_end ex_PHYSTOP ltac:(ex_side) ltac:(ex_side)
              3%nat ex_booted ltac:(ex_side))
    as (_ & _ & _ & Hsteal & _).
  assert (Hown : freelist ex_booted 3 = 0) by (vm_compute; reflexivity).
  assert (Hnz : freelist ex_booted 0 <> 0) by (vm_compute; discriminate).
  assert (Hlow : forall j, (j < 0)%nat -> freelist ex_booted j = 0)
    by (intros j Hj; lia).
  destruct (Hsteal Hown 0%nat ltac:(ex_side) Hnz Hlow) as (Hr & _).
  exact Hr.
Defined.

Lemma kalloc_in_range_witness :
  let r := fst (kalloc ex_NCPU 3 ex_booted) in
  r = 0 \/ (r mod PGSIZE = 0 /\ ex_end <= r < ex_PHYSTOP).
Proof.
  apply (kalloc_in_range ex_NCPU ex_end ex_PHYSTOP
           ltac:(ex_side) ltac:(ex_side) ltac:(ex_side) ltac:(ex_side)
           3%nat ex_booted
           (upd (fun _ => []) 0 (rev (managed_pages ex_end ex_PHYSTOP)))).
  - apply (reach_kinit ex_NCPU ex_end ex_PHYSTOP 16 0 boot0).
    + intros i _. reflexivity.
    + ex_side.
    + reflexivity.
  - ex_side.
Defined.

(** C8 as stated fails: [kfree] does not check that the page it is given
    is off the lists.  On the example machine, after [kinit], the page
    0x80025000 is allocated and then freed twice, which leaves it linked
    to itself; the next [kalloc] hands it out, its owner stores the
    number 0x80023008 in its first eight bytes, and [kalloc] hands the
    page out once more and takes that number for the rest of the list.
    The [kalloc] after that returns 0x80023008, inside [[end, PHYSTOP)]
    and not null, but eight bytes off a page boundary. *)
Lemma kalloc_unaligned_after_double_free :
  let p := 2147635200 in
  let q := 2147627016 in
  let a1 := kalloc ex_NCPU 0 ex_booted in
  fst a1 = p /\
  match kfree ex_end ex_PHYSTOP 0 p (snd a1) with
  | Done s2 =>
      match kfree ex_end ex_PHYSTOP 0 p s2 with
      | Done s3 =>
          let a2 := kalloc ex_NCPU 0 s3 in
          let s4 := mkKmem (freelist (snd a2)) (store64 (ram (snd a2)) p q) in
          let a3 := kalloc ex_NCPU 0 s4 in
          let r := fst (kalloc ex_NCPU 0 (snd a3)) in
          fst a2 = p /\ fst a3 = p /\
          r = q /\ r <> 0 /\ ex_end <= r < ex_PHYSTOP /\
          r mod PGSIZE = 8
      | _ => False
      end
  | _ => False
  end.
Proof.
  vm_compute. repeat split; try reflexivity; discriminate.
Qed.

(** The lists of the example machine after [kinit], by evaluation. *)
Ltac ex_lists :=
  split;
  [ let i := fresh "i" in
    let Hi := fresh "Hi" in
    intros i Hi; destruct i as [| i];
    [ split; [vm_compute; repeat split; discriminate |];
      split; [repeat (constructor; [simpl; intuition discriminate |]);
              constructor
             | repeat (constructor;
                       [vm_compute; repeat split;
                        first [reflexivity | discriminate] |]);
               constructor]
    | split; [vm_compute; reflexivity |];
      split; [constructor | constructor] ]
  | let i := fresh "i" in
    let j := fresh "j" in
    let Hin := fresh "Hin" in
    let Hin' := fresh "Hin'" in
    intros i j ? _ _ ? Hin Hin'; destruct i as [| i], j as [| j];
    [ congruence | destruct Hin' | destruct Hin | destruct Hin ] ].

Lemma kfree_then_kalloc_witness :
  exists s1,
    kfree ex_end ex_PHYSTOP 2 2147627008 boot0 = Done s1 /\
    fst (kalloc ex_NCPU 2 s1) = 2147627008.
Proof.
  destruct (kfree_then_kalloc ex_NCPU ex_end ex_PHYSTOP
              ltac:(ex_side) ltac:(ex_side) 2%nat 2147627008 boot0)
    as (s1 & Hrun & Hback & _).
  - ex_side.
  - ex_side.
  - exists s1. split; [exact Hrun | exact Hback].
Defined.

Lemma kfree_then_steal_witness :
  exists s1,
    kfree ex_end ex_PHYSTOP 5 2147627008 boot0 = Done s1 /\
    fst (kalloc ex_NCPU 1 s1) = 2147627008.
Proof.
  destruct (kfree_then_steal ex_NCPU ex_end ex_PHYSTOP
              ltac:(ex_side) ltac:(ex_side) 5%nat 1%nat 2147627008 boot0)
    as (s1 & Hrun & Hback & _).
  - ex_side.
  - ex_side.
  - intros i _. reflexivity.
  - ex_side.
  - exists s1. split; [exact Hrun | exact Hback].
Defined.

Lemma kalloc_then_kfree_witness :
  exists s2,
    kfree ex_end ex_PHYSTOP 0 (fst (kalloc ex_NCPU 0 ex_booted))
      (snd (kalloc ex_NCPU 0 ex_booted)) = Done s2 /\
    lists_ok ex_NCPU ex_end ex_PHYSTOP s2
      (upd (fun _ => []) 0 (rev (managed_pages ex_end ex_PHYSTOP))).
Proof.
  destruct (kalloc_then_kfree ex_NCPU ex_end ex_PHYSTOP
              ltac:(ex_side) ltac:(ex_side) 0%nat ex_booted
              (upd (fun _ => []) 0 (rev (managed_pages ex_end ex_PHYSTOP))))
    as (s2 & k & tl & Hrun & _ & _ & _ & Hsame).
  - ex_lists.
  - ex_side.
  - vm_compute. discriminate.
  - exists s2. split; [exact Hrun |]. apply Hsame. vm_compute. discriminate.
Defined.

Lemma kalloc_never_twice_witness :
  NoDup (filter (fun r => negb (r =? 0))
           (fst (kalloc_seq ex_NCPU [3; 0; 5]%nat ex_booted))).
Proof.
  apply (kalloc_never_twice ex_NCPU ex_end ex_PHYSTOP
           ltac:(ex_side) ltac:(ex_side) ltac:(ex_side) ltac:(ex_side)
           [3; 0; 5]%nat ex_booted
           (upd (fun _ => []) 0 (rev (managed_pages ex_end ex_PHYSTOP)))).
  - apply (reach_kinit ex_NCPU ex_end ex_PHYSTOP 16 0 boot0).
    + intros i _. reflexivity.
    + ex_side.
    + reflexivity.
  - repeat (constructor; [ex_side |]). constructor.
Defined.

Lemma boot_capacity_witness :
  fst (kalloc_seq ex_NCPU [1; 0; 7; 2]%nat ex_booted)
  = rev (managed_pages ex_end ex_PHYSTOP).
Proof.
  apply (boot_capacity ex_NCPU ex_end ex_PHYSTOP
           ltac:(ex_side) ltac:(ex_side) ltac:(ex_side) ltac:(ex_side)
           16%nat 0%nat boot0 ex_booted [1; 0; 7; 2]%nat).
  - intros i _. reflexivity.
  - ex_side.
  - reflexivity.
  - repeat (constructor; [ex_side |]). constructor.
  - vm_compute. reflexivity.
Defined.

End KallocFacts.


Module BioFacts.
Import Bio.

(** ** References and the store *)

Lemma ref_eqb_spec a b : reflect (a = b) (ref_eqb a b).
Proof.
  destruct a as [i | i j], b as [i' | i' j']; simpl; try (constructor; congruence).
  - destruct (Nat.eqb_spec i i'); constructor; congruence.
  - destruct (Nat.eqb_spec i i'), (Nat.eqb_spec j j'); simpl;
      constructor; congruence.
Qed.

Lemma ref_eqb_refl a : ref_eqb a a = true.
Proof. destruct (ref_eqb_spec a a); congruence. Qed.

Lemma ref_eq_dec (a b : ref) : {a = b} + {a <> b}.
Proof. destruct (ref_eqb_spec a b); auto. Qed.

Lemma node_set_same s r b : node (set_node s r b) r = b.
Proof. simpl. now rewrite ref_eqb_refl. Qed.

Lemma node_set_other s r r' b : r' <> r -> node (set_node s r b) r' = node s r'.
Proof. intros H. simpl. destruct (ref_eqb_spec r' r); congruence. Qed.

Lemma node_set s r r' b :
  node (set_node s r b) r' = if ref_eqb r' r then b else node s r'.
Proof. reflexivity. Qed.

Ltac setter :=
  intros;
  unfold set_valid, set_dev, set_blockno, set_lock, set_refcnt, set_prev,
         set_next, set_data, set_node;
  cbn [node disk iolog];
  try match goal with
      | |- context [ref_eqb ?a ?b] => destruct (ref_eqb_spec a b); subst
      end;
  try reflexivity; try congruence.

(** The links after each kind of store. *)
Lemma next_set_next s x v r :
  next (node (set_next s x v) r) = if ref_eqb r x then v else next (node s r).
Proof. setter. Qed.
Lemma next_set_prev s x v r : next (node (set_prev s x v) r) = next (node s r).
Proof. setter. Qed.
Lemma next_set_refcnt s x v r : next (node (set_refcnt s x v) r) = next (node s r).
Proof. setter. Qed.
Lemma next_set_lock s x v r : next (node (set_lock s x v) r) = next (node s r).
Proof. setter. Qed.
Lemma next_set_dev s x v r : next (node (set_dev s x v) r) = next (node s r).
Proof. setter. Qed.
Lemma next_set_blockno s x v r : next (node (set_blockno s x v) r) = next (node s r).
Proof. setter. Qed.
Lemma next_set_valid s x v r : next (node (set_valid s x v) r) = next (node s r).
Proof. setter. Qed.

Lemma prev_set_prev s x v r :
  prev (node (set_prev s x v) r) = if ref_eqb r x then v else prev (node s r).
Proof. setter. Qed.
Lemma prev_set_next s x v r : prev (node (set_next s x v) r) = prev (node s r).
Proof. setter. Qed.
Lemma prev_set_refcnt s x v r : prev (node (set_refcnt s x v) r) = prev (node s r).
Proof. setter. Qed.
Lemma prev_set_lock s x v r : prev (node (set_lock s x v) r) = prev (node s r).
Proof. setter. Qed.
Lemma prev_set_dev s x v r : prev (node (set_dev s x v) r) = prev (node s r).
Proof. setter. Qed.
Lemma prev_set_blockno s x v r : prev (node (set_blockno s x v) r) = prev (node s r).
Proof. setter. Qed.
Lemma prev_set_valid s x v r : prev (node (set_valid s x v) r) = prev (node s r).
Proof. setter. Qed.

(** ** Paths along a link *)

Lemma last_cons {A} (c : A) l a : last (c :: l) a = last l c.
Proof.
  revert c a. induction l as [| x l IH]; intros c a; [reflexivity |].
  change (last (c :: x :: l) a) with (last (x :: l) a).
  now rewrite !IH.
Qed.

Lemma last_In {A} (l : list A) a : In (last l a) (a :: l).
Proof.
  revert a. induction l as [| x l IH]; intros a; [now left |].
  rewrite last_cons. right. apply IH.
Qed.

Lemma last_rev {A} (l : list A) d : last (rev l) d = hd d l.
Proof.
  destruct l as [| x l]; [reflexivity |]. simpl. apply last_last.
Qed.

Lemma hd_rev {A} (l : list A) d : hd d (rev l) = last l d.
Proof. rewrite <- (rev_involutive l) at 2. now rewrite last_rev. Qed.

Lemma path_frame f g a l z :
  (forall x, In x (a :: l) -> g x = f x) -> path f a l z -> path g a l z.
Proof.
  revert a. induction l as [| b l IH]; intros a Hfg; simpl.
  - intros <-. apply Hfg. now left.
  - intros (<- & Hp). split; [apply Hfg; now left |].
    apply IH; auto. intros x Hx. apply Hfg. now right.
Qed.

Lemma path_app f a l1 b l2 z :
  path f a (l1 ++ b :: l2) z <-> path f a l1 b /\ path f b l2 z.
Proof.
  revert a. induction l1 as [| c l1 IH]; intros a; simpl; [tauto |].
  rewrite IH. tauto.
Qed.

Lemma path_hd f a l z : path f a l z -> f a = hd z l.
Proof. destruct l; simpl; tauto. Qed.

(** Taking [b] out: its predecessor is made to point past it. *)
Lemma path_unlink f a l1 b l2 z :
  path f a (l1 ++ b :: l2) z -> NoDup (a :: l1 ++ b :: l2) ->
  path (fupd f (last l1 a) (f b)) a (l1 ++ l2) z.
Proof.
  revert a. induction l1 as [| c l1 IH]; intros a Hp Hnd.
  - simpl in *. destruct Hp as (Hab & Hp).
    assert (Hfb := path_hd _ _ _ _ Hp).
    inversion Hnd as [| ? ? Ha Hnd']; subst.
    destruct l2 as [| c l2]; simpl in *; unfold fupd at 1.
    + rewrite ref_eqb_refl. exact Hfb.
    + rewrite ref_eqb_refl. split; [exact Hfb |].
      destruct Hp as (_ & Hp). revert Hp. apply path_frame.
      intros x Hx. unfold fupd. destruct (ref_eqb_spec x a) as [-> | _]; auto.
      exfalso. apply Ha. now right.
  - rewrite last_cons. simpl in Hp. destruct Hp as (Hac & Hp).
    inversion Hnd as [| ? ? Ha Hnd']; subst. simpl. split.
    + unfold fupd. destruct (ref_eqb_spec a (last l1 (f a))) as [E | _]; auto.
      exfalso. apply Ha.
      assert (Hin : In (last l1 (f a)) (f a :: l1 ++ b :: l2)).
      { destruct (last_In l1 (f a)) as [Heq | Hin]; [left; exact Heq |].
        right. apply in_or_app. now left. }
      rewrite <- E in Hin. exact Hin.
    + apply IH; auto.
Qed.

(** Putting [b] in front: [b] takes over the first link, the start
    points to [b]. *)
Lemma path_push_front f a m z b :
  path f a m z -> ~ In a m -> ~ In b (a :: m) ->
  path (fupd (fupd f b (f a)) a b) a (b :: m) z.
Proof.
  intros Hp Ha Hb. simpl. unfold fupd at 1. rewrite ref_eqb_refl.
  split; [reflexivity |].
  assert (Hba : b <> a) by (intros ->; apply Hb; now left).
  assert (Hgb : fupd (fupd f b (f a)) a b b = f a).
  { unfold fupd. destruct (ref_eqb_spec b a); [congruence |].
    now rewrite ref_eqb_refl. }
  destruct m as [| c m]; simpl in *.
  - congruence.
  - destruct Hp as (Hac & Hp). split; [congruence |].
    revert Hp. apply path_frame. intros x Hx. unfold fupd.
    destruct (ref_eqb_spec x a) as [-> | _]; [tauto |].
    destruct (ref_eqb_spec x b) as [-> | _]; [tauto | reflexivity].
Qed.

(** Putting [b] at the far end: the last node points to [b], and [b] to
    the end. *)
Lemma path_push_back f a m z b :
  path f a m z -> NoDup (a :: m) -> ~ In b (a :: m) ->
  path (fupd (fupd f b z) (last m a) b) a (m ++ [b]) z.
Proof.
  revert a. induction m as [| c m IH]; intros a Hp Hnd Hb.
  - simpl. unfold fupd. rewrite ref_eqb_refl.
    destruct (ref_eqb_spec b a) as [-> | _]; [exfalso; apply Hb; now left |].
    now rewrite ref_eqb_refl.
  - rewrite last_cons. simpl in Hp. destruct Hp as (Hac & Hp).
    inversion Hnd as [| ? ? Ha Hnd']; subst. simpl. split.
    + unfold fupd.
      destruct (ref_eqb_spec a (last m (f a))) as [E | _].
      * exfalso. apply Ha. assert (Hin := last_In m (f a)).
        rewrite <- E in Hin. exact Hin.
      * destruct (ref_eqb_spec a b) as [-> | _]; [| reflexivity].
        exfalso. apply Hb. now left.
    + apply IH; auto. intros Hin. apply Hb. now right.
Qed.

Lemma without_split b l1 l2 :
  NoDup (l1 ++ b :: l2) -> without b (l1 ++ b :: l2) = l1 ++ l2.
Proof.
  intros Hnd. unfold without. rewrite filter_app. simpl.
  rewrite ref_eqb_refl. simpl.
  apply NoDup_remove_2 in Hnd.
  assert (Hkeep : forall l, ~ In b l ->
            filter (fun r => negb (ref_eqb r b)) l = l).
  { induction l as [| x l IH]; intros Hni; simpl; [reflexivity |].
    destruct (ref_eqb_spec x b) as [-> | _]; simpl.
    - exfalso. apply Hni. now left.
    - f_equal. apply IH. intros H. apply Hni. now right. }
  rewrite !Hkeep; auto; intros H; apply Hnd, in_or_app; auto.
Qed.

(** What a slot holds besides its links and its count. *)
Lemma core_set_next s x v r : core (node (set_next s x v) r) = core (node s r).
Proof. setter. Qed.
Lemma core_set_prev s x v r : core (node (set_prev s x v) r) = core (node s r).
Proof. setter. Qed.
Lemma refcnt_set_next s x v r :
  refcnt (node (set_next s x v) r) = refcnt (node s r).
Proof. setter. Qed.
Lemma refcnt_set_prev s x v r :
  refcnt (node (set_prev s x v) r) = refcnt (node s r).
Proof. setter. Qed.

Lemma core_fields b1 b2 :
  core b1 = core b2 ->
  valid b1 = valid b2 /\ dev b1 = dev b2 /\ blockno b1 = blockno b2 /\
  lock b1 = lock b2 /\ data b1 = data b2.
Proof. unfold core. intros [= -> -> -> -> ->]. auto. Qed.


(** ** The links after [brelse] *)

Ltac links :=
  repeat (rewrite next_set_next || rewrite next_set_prev
          || rewrite next_set_refcnt || rewrite next_set_lock
          || rewrite prev_set_prev || rewrite prev_set_next
          || rewrite prev_set_refcnt || rewrite prev_set_lock).

Lemma if_same {A} (c : bool) (x : A) : (if c then x else x) = x.
Proof. now destruct c. Qed.

Ltac ref_cases :=
  repeat match goal with
         | |- context [ref_eqb ?a ?b] =>
             destruct (ref_eqb_spec a b); try congruence
         end.

Lemma brelse_locked_zero b s :
  wrap32 (refcnt (node s b) - 1) = 0 ->
  (refcnt (node (set_refcnt s b (wrap32 (refcnt (node s b) - 1))) b) =? 0)
  = true.
Proof.
  intros H. unfold set_refcnt. rewrite node_set_same. cbn. now rewrite H.
Qed.

Lemma brelse_locked_next b s r :
  wrap32 (refcnt (node s b) - 1) = 0 ->
  let H := Head (bucket_of (blockno (node s b))) in
  let nx := fun r => next (node s r) in
  let nx2 := fupd nx (prev (node s b)) (next (node s b)) in
  b <> H ->
  next (node (brelse_locked b s) r) = fupd (fupd nx2 b (nx2 H)) H b r.
Proof.
  intros Hz H nx nx2 HbH. unfold brelse_locked. cbv zeta.
  rewrite brelse_locked_zero by exact Hz.
  fold H. links. rewrite ?if_same. subst nx2 nx. unfold fupd.
  ref_cases.
Qed.

Lemma brelse_locked_prev b s r :
  wrap32 (refcnt (node s b) - 1) = 0 ->
  let H := Head (bucket_of (blockno (node s b))) in
  let nx := fun r => next (node s r) in
  let pv := fun r => prev (node s r) in
  let nx2 := fupd nx (prev (node s b)) (next (node s b)) in
  b <> H ->
  prev (node (brelse_locked b s) r)
  = fupd (fupd (fupd pv (next (node s b)) (prev (node s b))) b H) (nx2 H) b r.
Proof.
  intros Hz H nx pv nx2 HbH. unfold brelse_locked. cbv zeta.
  rewrite brelse_locked_zero by exact Hz.
  fold H. links. rewrite ?if_same. subst nx2 nx pv. unfold fupd.
  ref_cases.
Qed.

Lemma dll_same_links s s' i l :
  (forall r, next (node s' r) = next (node s r)) ->
  (forall r, prev (node s' r) = prev (node s r)) ->
  dll s i l -> dll s' i l.
Proof.
  intros Hn Hp (Hnd & HH & Hnx & Hpv). repeat split; auto.
  - revert Hnx. apply path_frame. intros x _. apply Hn.
  - revert Hpv. apply path_frame. intros x _. apply Hp.
Qed.

Lemma NoDup_middle_out {A} (l1 l2 : list A) b :
  NoDup (l1 ++ b :: l2) -> NoDup (l1 ++ l2) /\ ~ In b (l1 ++ l2).
Proof.
  intros H. split; [eapply NoDup_remove_1 | eapply NoDup_remove_2]; eauto.
Qed.

(** When the count drops to 0, the critical section of [brelse] takes the
    slot out of its place and puts it first. *)
Lemma brelse_locked_moves b s l1 l2 :
  let i := bucket_of (blockno (node s b)) in
  dll s i (l1 ++ b :: l2) ->
  wrap32 (refcnt (node s b) - 1) = 0 ->
  dll (brelse_locked b s) i (b :: l1 ++ l2).
Proof.
  intros i (Hnd & HH & Hnx & Hpv) Hz.
  set (H := Head i) in *.
  set (nx := fun r => next (node s r)) in *.
  set (pv := fun r => prev (node s r)) in *.
  assert (HbH : b <> H).
  { intros E. apply HH. rewrite <- E. apply in_or_app. right. now left. }
  destruct (NoDup_middle_out _ _ _ Hnd) as (Hnd' & Hb').
  assert (HH' : ~ In H (l1 ++ l2)).
  { intros Hin. apply HH. apply in_app_or in Hin. apply in_or_app.
    destruct Hin; [left | right; right]; auto. }
  assert (HndH : NoDup (H :: l1 ++ b :: l2)) by (constructor; auto).
  (* the links of [b] *)
  assert (HN : nx b = hd H l2).
  { apply path_app in Hnx. destruct Hnx as (_ & Hnx). now apply path_hd in Hnx. }
  rewrite rev_app_distr in Hpv. simpl in Hpv. rewrite <- app_assoc in Hpv.
  simpl in Hpv.
  assert (HP : pv b = last l1 H).
  { pose proof Hpv as Hpv'. apply path_app in Hpv'. destruct Hpv' as (_ & Hpv').
    apply path_hd in Hpv'. now rewrite hd_rev in Hpv'. }
  (* forwards *)
  assert (Hnx2 : path (fupd nx (pv b) (nx b)) H (l1 ++ l2) H).
  { rewrite HP. now apply path_unlink. }
  assert (HF : fupd nx (pv b) (nx b) H = hd H (l1 ++ l2))
    by now apply path_hd in Hnx2.
  (* backwards *)
  assert (HndR : NoDup (H :: rev l2 ++ b :: rev l1)).
  { constructor.
    - intros Hin. apply HH. apply in_app_or in Hin. apply in_or_app.
      destruct Hin as [Hin | [E | Hin]].
      + right. right. now apply in_rev.
      + exfalso. exact (HbH E).
      + left. now apply in_rev.
    - replace (rev l2 ++ b :: rev l1) with (rev (l1 ++ b :: l2)).
      + now apply NoDup_rev.
      + rewrite rev_app_distr. simpl. now rewrite <- app_assoc. }
  assert (Hpv1 : path (fupd pv (nx b) (pv b)) H (rev l2 ++ rev l1) H).
  { rewrite HN, <- (last_rev l2 H). now apply path_unlink. }
  assert (Hlast : last (rev l2 ++ rev l1) H = hd H (l1 ++ l2)).
  { rewrite <- rev_app_distr. apply last_rev. }
  split; [constructor; auto |]. split.
  { intros [E | Hin]; [exact (HbH E) | now apply HH']. }
  split.
  - apply (path_frame (fupd (fupd (fupd nx (pv b) (nx b)) b
                                  (fupd nx (pv b) (nx b) H)) H b)).
    + intros x _. now apply brelse_locked_next.
    + apply path_push_front; auto.
      intros [E | Hin]; [exact (HbH (eq_sym E)) | now apply Hb'].
  - apply (path_frame (fupd (fupd (fupd pv (nx b) (pv b)) b H)
                            (fupd nx (pv b) (nx b) H) b)).
    + intros x _. now apply brelse_locked_prev.
    + simpl. rewrite rev_app_distr, HF, <- Hlast.
      apply path_push_back; auto.
      * constructor.
        -- intros Hin. apply HH'. apply in_app_or in Hin. apply in_or_app.
           destruct Hin; [right | left]; now apply in_rev.
        -- rewrite <- rev_app_distr. now apply NoDup_rev.
      * intros [E | Hin]; [exact (HbH (eq_sym E)) |]. apply Hb'.
        apply in_app_or in Hin. apply in_or_app.
        destruct Hin; [right | left]; now apply in_rev.
Qed.

(** ** The lists [binit] builds *)

Lemma shard_slots_S i n : shard_slots i (S n) = Slot i n :: shard_slots i n.
Proof.
  unfold shard_slots. rewrite seq_S, rev_app_distr. reflexivity.
Qed.

Lemma In_shard_slots i n r :
  In r (shard_slots i n) <-> exists k, (k < n)%nat /\ r = Slot i k.
Proof.
  unfold shard_slots. rewrite in_map_iff. split.
  - intros (k & <- & Hk). apply in_rev, in_seq in Hk. exists k. split; [lia | auto].
  - intros (k & Hk & ->). exists k. split; [reflexivity |].
    apply in_rev. rewrite rev_involutive. apply in_seq. lia.
Qed.

(** One turn of the inner loop of [binit] links slot [b] in at the head
    and leaves the links of the nodes off the list alone. *)
Lemma binit_link s i l b :
  dll s i l -> ~ In b l -> b <> Head i ->
  let s1 := set_next s b (next (node s (Head i))) in
  let s2 := set_prev s1 b (Head i) in
  let s3 := set_lock s2 b None in
  let s4 := set_prev s3 (next (node s3 (Head i))) b in
  let s5 := set_next s4 (Head i) b in
  dll s5 i (b :: l) /\
  (forall r, r <> Head i -> r <> b -> ~ In r l ->
     next (node s5 r) = next (node s r) /\
     prev (node s5 r) = prev (node s r)).
Proof.
  intros (Hnd & HH & Hnx & Hpv) Hb HbH. cbv zeta.
  set (H := Head i) in *.
  set (nx := fun r => next (node s r)) in *.
  set (pv := fun r => prev (node s r)) in *.
  assert (HF : nx H = hd H l) by now apply path_hd in Hnx.
  assert (Hnext : forall x,
    next (node (set_next (set_prev (set_lock (set_prev (set_next s b
      (next (node s H))) b H) b None) (next (node (set_lock (set_prev
      (set_next s b (next (node s H))) b H) b None) H)) b) H b) x)
    = fupd (fupd nx b (nx H)) H b x).
  { intros x. links. rewrite ?if_same. subst nx. unfold fupd. ref_cases. }
  assert (Hprev : forall x,
    prev (node (set_next (set_prev (set_lock (set_prev (set_next s b
      (next (node s H))) b H) b None) (next (node (set_lock (set_prev
      (set_next s b (next (node s H))) b H) b None) H)) b) H b) x)
    = fupd (fupd pv b H) (nx H) b x).
  { intros x. links. rewrite ?if_same. subst nx pv. unfold fupd. ref_cases. }
  split.
  - split; [constructor; auto |]. split.
    { intros [E | Hin]; [exact (HbH E) | now apply HH]. }
    split.
    + apply (path_frame (fupd (fupd nx b (nx H)) H b)).
      * intros x _. apply Hnext.
      * apply path_push_front; auto.
        intros [E | Hin]; [exact (HbH (eq_sym E)) | now apply Hb].
    + apply (path_frame (fupd (fupd pv b H) (nx H) b)).
      * intros x _. apply Hprev.
      * simpl. rewrite HF, <- (last_rev l H). apply path_push_back; auto.
        -- constructor.
           ++ intros Hin. apply HH. now apply in_rev.
           ++ now apply NoDup_rev.
        -- intros [E | Hin]; [exact (HbH (eq_sym E)) |]. apply Hb.
           now apply in_rev.
  - intros r HrH Hrb Hrl. rewrite Hnext, Hprev. unfold fupd.
    destruct (ref_eqb_spec r H) as [E | _]; [exfalso; exact (HrH E) |].
    destruct (ref_eqb_spec r b) as [E | _]; [exfalso; exact (Hrb E) |].
    destruct (ref_eqb_spec r (nx H)) as [E | _]; [| auto].
    exfalso. rewrite HF in E. destruct l as [| c l]; simpl in E.
    + exact (HrH E).
    + apply Hrl. left. now symmetry.
Qed.

(** The inner loop of [binit] stores to links and to the locks of the
    slots it visits, nothing else. *)
Lemma binit_slots_keeps i : forall n j s r,
  let s' := binit_slots n i j s in
  valid (node s' r) = valid (node s r) /\
  dev (node s' r) = dev (node s r) /\
  blockno (node s' r) = blockno (node s r) /\
  refcnt (node s' r) = refcnt (node s r) /\
  data (node s' r) = data (node s r) /\
  ((forall k, (j <= k < j + n)%nat -> r <> Slot i k) ->
   lock (node s' r) = lock (node s r)) /\
  (forall k, (j <= k < j + n)%nat -> r = Slot i k ->
   lock (node s' r) = None).
Proof.
  induction n as [| n IH]; intros j s r; cbn [binit_slots].
  { repeat split; auto. intros k Hk. lia. }
  cbv zeta.
  match goal with
  | |- context [binit_slots n i (S j) ?t] => set (s5 := t)
  end.
  destruct (IH (S j) s5 r) as (H1 & H2 & H3 & H4 & H5 & H6 & H7).
  assert (K : valid (node s5 r) = valid (node s r) /\
              dev (node s5 r) = dev (node s r) /\
              blockno (node s5 r) = blockno (node s r) /\
              refcnt (node s5 r) = refcnt (node s r) /\
              data (node s5 r) = data (node s r) /\
              (r <> Slot i j -> lock (node s5 r) = lock (node s r)) /\
              (r = Slot i j -> lock (node s5 r) = None)).
  { unfold s5, set_next, set_prev, set_lock. cbn [node set_node].
    repeat match goal with
           | |- context [ref_eqb ?a ?b] => destruct (ref_eqb_spec a b)
           end; cbn; repeat split; auto; intros; congruence. }
  destruct K as (K1 & K2 & K3 & K4 & K5 & K6 & K7).
  rewrite H1, H2, H3, H4, H5. repeat split; auto.
  - intros Hr. rewrite H6, K6; auto.
    + apply Hr. lia.
    + intros k Hk. apply Hr. lia.
  - intros k Hk Hr. destruct (Nat.eq_dec k j) as [-> | Hne].
    + rewrite H6; [now apply K7 |]. intros k' Hk' E. rewrite E in Hr.
      injection Hr as Hr. lia.
    + apply (H7 k); [lia | exact Hr].
Qed.

(** The inner loop builds the list of shard [i] slot by slot and leaves
    the links outside shard [i] alone. *)
Lemma binit_slots_dll i : forall n j s,
  dll s i (shard_slots i j) ->
  let s' := binit_slots n i j s in
  dll s' i (shard_slots i (j + n)) /\
  (forall r, r <> Head i -> (forall k, r <> Slot i k) ->
     next (node s' r) = next (node s r) /\
     prev (node s' r) = prev (node s r)).
Proof.
  induction n as [| n IH]; intros j s Hdll; cbn [binit_slots].
  { rewrite Nat.add_0_r. auto. }
  cbv zeta.
  destruct (binit_link s i (shard_slots i j) (Slot i j) Hdll)
    as (Hdll5 & Hout5).
  { rewrite In_shard_slots. intros (k & Hk & E). injection E as E. lia. }
  { discriminate. }
  cbv zeta in Hdll5, Hout5. rewrite <- shard_slots_S in Hdll5.
  destruct (IH (S j) _ Hdll5) as (Hdll' & Hout').
  replace (j + S n)%nat with (S j + n)%nat by lia.
  split; [exact Hdll' |].
  intros r HrH Hr. destruct (Hout' r HrH Hr) as (-> & ->).
  apply Hout5; auto. rewrite In_shard_slots. intros (k & _ & E).
  now apply (Hr k).
Qed.

Lemma dll_frame s s' i l :
  (forall r, r = Head i \/ In r l ->
     next (node s' r) = next (node s r) /\
     prev (node s' r) = prev (node s r)) ->
  dll s i l -> dll s' i l.
Proof.
  intros Hsame (Hnd & HH & Hnx & Hpv). repeat split; auto.
  - revert Hnx. apply path_frame. intros x [<- | Hx]; apply Hsame; auto.
  - revert Hpv. apply path_frame. intros x [<- | Hx]; apply Hsame; auto.
    right. now apply in_rev.
Qed.

Lemma shard_slots_other i i' n r :
  i' <> i -> r = Head i' \/ In r (shard_slots i' n) ->
  r <> Head i /\ forall k, r <> Slot i k.
Proof.
  intros Hne [-> | Hin].
  - split; [congruence | discriminate].
  - apply In_shard_slots in Hin. destruct Hin as (k & _ & ->).
    split; [discriminate | congruence].
Qed.

Section BinitFacts.

Variable NBUF : nat.
Local Notation NSLOT := (NSLOT NBUF).

(** The outer loop of [binit]: the shards it has been through have their
    list, whatever it goes on to do to the others. *)
Lemma binit_buckets_dll : forall n i s,
  (forall i', (i' < i)%nat -> dll s i' (shard_slots i' NSLOT)) ->
  forall i', (i' < i + n)%nat ->
    dll (binit_buckets NBUF n i s) i' (shard_slots i' NSLOT).
Proof.
  induction n as [| n IH]; intros i s Hdone i' Hi'; cbn [binit_buckets].
  { apply Hdone. lia. }
  cbv zeta.
  set (s2 := set_next (set_prev s (Head i) (Head i)) (Head i) (Head i)).
  assert (Hempty : dll s2 i (shard_slots i 0)).
  { unfold shard_slots. simpl. split; [apply NoDup_nil |].
    split; [intros [] |].
    split; unfold s2; cbn [path rev]; links; now rewrite ref_eqb_refl. }
  destruct (binit_slots_dll i NSLOT 0 s2 Hempty) as (Hdll & Hout).
  apply IH; [| lia].
  intros i'' Hi''. destruct (Nat.eq_dec i'' i) as [-> | Hne]; [exact Hdll |].
  apply (dll_frame s); [| apply Hdone; lia].
  intros r Hr. destruct (shard_slots_other i i'' NSLOT r Hne Hr) as (HrH & Hrk).
  destruct (Hout r HrH Hrk) as (-> & ->). unfold s2. links.
  destruct (ref_eqb_spec r (Head i)); [congruence | auto].
Qed.

Lemma binit_buckets_keeps : forall n i s r,
  let s' := binit_buckets NBUF n i s in
  valid (node s' r) = valid (node s r) /\
  dev (node s' r) = dev (node s r) /\
  blockno (node s' r) = blockno (node s r) /\
  refcnt (node s' r) = refcnt (node s r) /\
  data (node s' r) = data (node s r) /\
  (forall i' k, (i <= i' < i + n)%nat -> (k < NSLOT)%nat -> r = Slot i' k ->
     lock (node s' r) = None).
Proof.
  induction n as [| n IH]; intros i s r; cbn [binit_buckets].
  { repeat split; auto. intros i' k Hi'. lia. }
  cbv zeta.
  set (s2 := set_next (set_prev s (Head i) (Head i)) (Head i) (Head i)).
  destruct (IH (S i) (binit_slots NSLOT i 0 s2) r)
    as (H1 & H2 & H3 & H4 & H5 & H6).
  destruct (binit_slots_keeps i NSLOT 0 s2 r)
    as (K1 & K2 & K3 & K4 & K5 & K6 & K7).
  assert (J : core (node s2 r) = core (node s r) /\
              refcnt (node s2 r) = refcnt (node s r)).
  { unfold s2. now rewrite core_set_next, core_set_prev, refcnt_set_next,
      refcnt_set_prev. }
  destruct J as (J1 & J2). apply core_fields in J1.
  destruct J1 as (J3 & J4 & J5 & J6 & J7).
  rewrite H1, H2, H3, H4, H5, K1, K2, K3, K4, K5. repeat split; auto.
  intros i' k Hi' Hk Hr. destruct (Nat.eq_dec i' i) as [-> | Hne].
  - assert (Hkeep : lock (node (binit_buckets NBUF n (S i)
                      (binit_slots NSLOT i 0 s2)) r)
                    = lock (node (binit_slots NSLOT i 0 s2) r)).
    { clear - Hr. revert r Hr. generalize (binit_slots NSLOT i 0 s2).
      generalize (Nat.le_refl (S i)). generalize (S i) at 2 3.
      induction n as [| n IHn]; intros i0 Hi0 s0 r Hr; cbn [binit_buckets];
        [reflexivity |].
      cbv zeta. rewrite IHn by (auto; lia).
      destruct (binit_slots_keeps i0 NSLOT 0
                  (set_next (set_prev s0 (Head i0) (Head i0)) (Head i0)
                     (Head i0)) r) as (_ & _ & _ & _ & _ & Hl & _).
      rewrite Hl.
      - destruct (core_fields _ _
                    (core_set_next (set_prev s0 (Head i0) (Head i0))
                       (Head i0) (Head i0) r)) as (_ & _ & _ & L1 & _).
        destruct (core_fields _ _ (core_set_prev s0 (Head i0) (Head i0) r))
          as (_ & _ & _ & L2 & _).
        now rewrite L1, L2.
      - intros k' _ E. rewrite E in Hr. injection Hr as Hr _. lia. }
    rewrite Hkeep. apply (K7 k); [lia | exact Hr].
  - apply (H6 i' k); [lia | exact Hk | exact Hr].
Qed.

(** After [binit] every shard has its list of [NBUF/NBUCKETS] slots, all
    unlocked, with the counts and identities the globals started with. *)
Lemma binit_spec s i :
  (i < NBUCKETS)%nat ->
  dll (binit NBUF s) i (shard_slots i NSLOT) /\
  List.length (shard_slots i NSLOT) = NSLOT /\
  (forall r, In r (shard_slots i NSLOT) ->
     lock (node (binit NBUF s) r) = None /\
     refcnt (node (binit NBUF s) r) = refcnt (node s r) /\
     dev (node (binit NBUF s) r) = dev (node s r) /\
     blockno (node (binit NBUF s) r) = blockno (node s r) /\
     valid (node (binit NBUF s) r) = valid (node s r)).
Proof.
  intros Hi. unfold binit. split; [| split].
  - apply binit_buckets_dll; [| lia]. intros i' Hi'. lia.
  - unfold shard_slots. now rewrite length_map, length_rev, length_seq.
  - intros r Hr. apply In_shard_slots in Hr. destruct Hr as (k & Hk & ->).
    destruct (binit_buckets_keeps NBUCKETS 0 s (Slot i k))
      as (H1 & H2 & H3 & H4 & _ & H6).
    rewrite H1, H2, H3, H4. repeat split.
    apply (H6 i k); auto. lia.
Qed.

(** So a kernel that boots with zeroed counts starts with idle shards. *)
Lemma binit_idle s i :
  (i < NBUCKETS)%nat -> (forall r, refcnt (node s r) = 0) ->
  idle (binit NBUF s) (shard_slots i NSLOT).
Proof.
  intros Hi Hz r Hr. destruct (binit_spec s i Hi) as (_ & _ & H).
  destruct (H r Hr) as (Hl & Hc & _). rewrite Hc. auto.
Qed.

End BinitFacts.

(** ** Reading, writing and the lock check *)

Lemma holdingsleep_true pid s b :
  holdingsleep pid s b = true <-> lock (node s b) = Some pid.
Proof.
  unfold holdingsleep. destruct (lock (node s b)) as [q |].
  - rewrite Z.eqb_eq. split; congruence.
  - split; congruence.
Qed.

Lemma holdingsleep_false pid s b :
  holdingsleep pid s b = false <-> lock (node s b) <> Some pid.
Proof.
  rewrite <- holdingsleep_true. destruct (holdingsleep pid s b); split; congruence.
Qed.

(** The critical section of [brelse] stores to [refcnt], [prev] and
    [next] only. *)
Lemma brelse_locked_keeps b s r :
  let s' := brelse_locked b s in
  valid (node s' r) = valid (node s r) /\
  dev (node s' r) = dev (node s r) /\
  blockno (node s' r) = blockno (node s r) /\
  lock (node s' r) = lock (node s r) /\
  data (node s' r) = data (node s r) /\
  (r <> b -> refcnt (node s' r) = refcnt (node s r)) /\
  refcnt (node s' b) = wrap32 (refcnt (node s b) - 1) /\
  disk s' = disk s /\ iolog s' = iolog s.
Proof.
  assert (Hcnt : forall r, core (node (set_refcnt s b (wrap32 (refcnt (node s b) - 1))) r)
                           = core (node s r)) by setter.
  assert (Hkeep : forall s0 r,
            core (node s0 r) = core (node s r) ->
            (r <> b -> refcnt (node s0 r) = refcnt (node s r)) ->
            refcnt (node s0 b) = wrap32 (refcnt (node s b) - 1) ->
            disk s0 = disk s -> iolog s0 = iolog s ->
            valid (node s0 r) = valid (node s r) /\
            dev (node s0 r) = dev (node s r) /\
            blockno (node s0 r) = blockno (node s r) /\
            lock (node s0 r) = lock (node s r) /\
            data (node s0 r) = data (node s r) /\
            (r <> b -> refcnt (node s0 r) = refcnt (node s r)) /\
            refcnt (node s0 b) = wrap32 (refcnt (node s b) - 1) /\
            disk s0 = disk s /\ iolog s0 = iolog s).
  { intros s0 r0 Hc. unfold core in Hc. injection Hc as -> -> -> -> ->. auto 10. }
  unfold brelse_locked. cbv zeta.
  match goal with |- context [if ?c then _ else _] => destruct c end.
  - apply Hkeep.
    + repeat (rewrite core_set_next || rewrite core_set_prev). apply Hcnt.
    + intros Hne. repeat (rewrite refcnt_set_next || rewrite refcnt_set_prev).
      setter.
    + repeat (rewrite refcnt_set_next || rewrite refcnt_set_prev). setter.
    + reflexivity.
    + reflexivity.
  - apply Hkeep; try reflexivity.
    + apply Hcnt.
    + intros Hne. setter.
    + setter.
Qed.

(** C4. [bwrite] and [brelse] called by a process that does not hold the
    slot's sleep lock end in [panic]; called by the holder both return:
    [bwrite] after one write request for the slot's block with the slot's
    payload, the slots untouched, and [brelse] with the slot's lock
    released and no request to the disk. *)
Theorem bwrite_brelse_lock pid b s :
  (lock (node s b) <> Some pid ->
     bwrite pid b s = Panic "bwrite" /\ brelse pid b s = Panic "brelse") /\
  (lock (node s b) = Some pid ->
     (exists s', bwrite pid b s = Done s' /\
        iolog s' = DiskWrite (dev (node s b)) (blockno (node s b))
                             (data (node s b)) :: iolog s /\
        disk s' (dev (node s b)) (blockno (node s b)) = data (node s b) /\
        node s' = node s) /\
     (exists s', brelse pid b s = Done s' /\
        lock (node s' b) = None /\ iolog s' = iolog s)).
Proof.
  split.
  - intros H. apply holdingsleep_false in H. unfold bwrite, brelse.
    now rewrite H.
  - intros H. apply holdingsleep_true in H. unfold bwrite, brelse.
    rewrite H. cbn [negb]. split.
    + eexists. split; [reflexivity |]. unfold virtio_disk_rw.
      cbn [iolog disk node]. rewrite !Z.eqb_refl. auto.
    + eexists. split; [reflexivity |].
      destruct (brelse_locked_keeps b (releasesleep s b) b)
        as (_ & _ & _ & Hl & _ & _ & _ & _ & Hio).
      rewrite Hl, Hio. unfold releasesleep. split; [| reflexivity].
      unfold set_lock. now rewrite node_set_same.
Qed.

Lemma scan_cached_some fuel i b0 d bn s b :
  scan_cached fuel i b0 d bn s = Done (Some b) -> is_block s d bn b = true.
Proof.
  revert b0. induction fuel as [| fuel IH]; intros b0; simpl; [discriminate |].
  destruct (ref_eqb b0 (Head i)); [discriminate |].
  destruct ((dev (node s b0) =? d) && (blockno (node s b0) =? bn)) eqn:E.
  - intros [= <-]. exact E.
  - apply IH.
Qed.

Lemma scan_unused_some fuel i b0 s b :
  scan_unused fuel i b0 s = Done (Some b) -> refcnt (node s b) = 0.
Proof.
  revert b0. induction fuel as [| fuel IH]; intros b0; simpl; [discriminate |].
  destruct (ref_eqb b0 (Head i)); [discriminate |].
  destruct (refcnt (node s b0) =? 0) eqn:E.
  - intros [= <-]. now apply Z.eqb_eq.
  - apply IH.
Qed.

(** Whatever slot [bget] settles on carries the identity asked for, and
    the disk has not been involved. *)
Lemma bget_locked_post fuel d bn s b s1 :
  bget_locked fuel d bn s = Done (b, s1) ->
  dev (node s1 b) = d /\ blockno (node s1 b) = bn /\
  disk s1 = disk s /\ iolog s1 = iolog s.
Proof.
  unfold bget_locked. cbv zeta.
  destruct (scan_cached _ _ _ _ _ _) as [[hit |] | |] eqn:Ehit; cbn [bind];
    try discriminate.
  - intros [= <- <-]. apply scan_cached_some in Ehit.
    unfold is_block in Ehit. apply andb_prop in Ehit. destruct Ehit as (Hd & Hb).
    apply Z.eqb_eq in Hd, Hb. unfold set_refcnt.
    rewrite node_set_same. cbn. auto.
  - destruct (scan_unused _ _ _ _) as [[free |] | |] eqn:Efree; cbn [bind];
      try discriminate.
    intros [= <- <-]. unfold set_refcnt, set_valid, set_blockno, set_dev.
    rewrite !node_set_same. cbn. auto.
Qed.

Lemma bget_post fuel pid d bn s b s1 :
  bget fuel pid d bn s = Done (Awake (b, s1)) ->
  dev (node s1 b) = d /\ blockno (node s1 b) = bn /\
  lock (node s1 b) = Some pid /\
  disk s1 = disk s /\ iolog s1 = iolog s.
Proof.
  unfold bget.
  destruct (bget_locked fuel d bn s) as [[b' s'] | |] eqn:E; cbn [bind fst snd];
    try discriminate.
  apply bget_locked_post in E. destruct E as (Hd & Hb & Hdisk & Hio).
  unfold acquiresleep. destruct (lock (node s' b')); [discriminate |].
  intros [= <- <-]. unfold set_lock. rewrite node_set_same. cbn. auto.
Qed.

(** C3. [bread] first calls [bget], and ends as [bget] does when that
    panics or leaves the caller asleep.  When [bget] returns a slot whose
    [valid] is 0, [bread] makes exactly one request to the disk, a read
    of the block asked for into the slot's payload, sets [valid] and
    returns the slot, locked by the caller; when [valid] is set already it
    returns the slot, locked, and the state [bget] left, with no request
    to the disk at all. *)
Theorem bread_spec fuel pid d bn s :
  match bget fuel pid d bn s with
  | Done (Awake (b, s1)) =>
      lock (node s1 b) = Some pid /\ iolog s1 = iolog s /\
      if valid (node s1 b) =? 0
      then exists s2,
             bread fuel pid d bn s = Done (Awake (b, s2)) /\
             iolog s2 = DiskRead d bn :: iolog s /\
             data (node s2 b) = disk s d bn /\
             valid (node s2 b) = 1 /\
             lock (node s2 b) = Some pid /\
             (forall r, r <> b -> node s2 r = node s1 r)
      else bread fuel pid d bn s = Done (Awake (b, s1))
  | Done Asleep => bread fuel pid d bn s = Done Asleep
  | Panic msg => bread fuel pid d bn s = Panic msg
  | OutOfFuel => bread fuel pid d bn s = OutOfFuel
  end.
Proof.
  unfold bread.
  destruct (bget fuel pid d bn s) as [[[b s1] |] | |] eqn:E; cbn [bind];
    try reflexivity.
  apply bget_post in E. destruct E as (Hd & Hb & Hl & Hdisk & Hio).
  split; [exact Hl |]. split; [exact Hio |].
  destruct (valid (node s1 b) =? 0); [| reflexivity].
  eexists. split; [reflexivity |].
  unfold virtio_disk_rw, set_valid, set_data. cbn [node iolog disk set_node].
  rewrite !ref_eqb_refl. cbn. rewrite Hd, Hb, Hio, Hdisk, Hl.
  repeat split.
  intros r Hr. destruct (ref_eqb_spec r b); congruence.
Qed.

(** [brelse] by the holder of the slot's lock. *)
Lemma brelse_holder pid b s l :
  let i := bucket_of (blockno (node s b)) in
  lock (node s b) = Some pid -> dll s i l -> In b l ->
  exists s',
    brelse pid b s = Done s' /\
    refcnt (node s' b) = wrap32 (refcnt (node s b) - 1) /\
    (0 < refcnt (node s b) < 2 ^ 32 ->
       refcnt (node s' b) = refcnt (node s b) - 1) /\
    core (node s' b) = core (with_lock (node s b) None) /\
    (forall r, r <> b -> core (node s' r) = core (node s r) /\
                         refcnt (node s' r) = refcnt (node s r)) /\
    (refcnt (node s' b) = 0 -> dll s' i (b :: without b l)) /\
    (refcnt (node s' b) <> 0 ->
       dll s' i l /\
       (forall r, r <> b -> node s' r = node s r) /\
       node s' b = with_refcnt (with_lock (node s b) None)
                               (wrap32 (refcnt (node s b) - 1))).
Proof.
  intros i Hlock Hdll Hin.
  apply holdingsleep_true in Hlock. unfold brelse. rewrite Hlock. cbn [negb].
  eexists. split; [reflexivity |].
  set (s1 := releasesleep s b).
  assert (Hs1 : forall r, r <> b -> node s1 r = node s r).
  { intros r Hr. unfold s1, releasesleep, set_lock. now apply node_set_other. }
  assert (Hs1b : node s1 b = with_lock (node s b) None).
  { unfold s1, releasesleep, set_lock. now apply node_set_same. }
  assert (Hdll1 : dll s1 (bucket_of (blockno (node s1 b))) l).
  { rewrite Hs1b. cbn [blockno with_lock].
    revert Hdll. apply dll_same_links; intros r; unfold s1, releasesleep.
    - apply next_set_lock.
    - apply prev_set_lock. }
  destruct (brelse_locked_keeps b s1 b)
    as (Hv & Hd & Hbn & Hl & Hda & _ & Hcnt & _).
  assert (Hcnt' : refcnt (node (brelse_locked b s1) b)
                  = wrap32 (refcnt (node s b) - 1)).
  { rewrite Hcnt, Hs1b. reflexivity. }
  split; [exact Hcnt' |]. split.
  { intros Hpos. rewrite Hcnt'. unfold wrap32. apply Z.mod_small. lia. }
  split.
  { unfold core. rewrite Hv, Hd, Hbn, Hl, Hda, Hs1b. reflexivity. }
  split.
  { intros r Hr.
    destruct (brelse_locked_keeps b s1 r)
      as (Hv' & Hd' & Hbn' & Hl' & Hda' & Hcnt'' & _).
    unfold core. rewrite Hv', Hd', Hbn', Hl', Hda', Hcnt'' by auto.
    now rewrite Hs1 by auto. }
  split.
  - intros Hz. rewrite Hcnt' in Hz.
    destruct (in_split _ _ Hin) as (l1 & l2 & ->).
    rewrite without_split by (destruct Hdll; auto).
    replace i with (bucket_of (blockno (node s1 b)))
      by (rewrite Hs1b; reflexivity).
    apply brelse_locked_moves; auto.
    rewrite Hs1b. exact Hz.
  - intros Hnz. rewrite Hcnt' in Hnz.
    assert (E : brelse_locked b s1
                = set_refcnt s1 b (wrap32 (refcnt (node s1 b) - 1))).
    { unfold brelse_locked. cbv zeta. unfold set_refcnt at 1.
      rewrite node_set_same. cbn [refcnt with_refcnt].
      rewrite Hs1b. cbn [refcnt with_lock].
      apply Z.eqb_neq in Hnz. now rewrite Hnz. }
    rewrite E. split; [| split].
    + replace i with (bucket_of (blockno (node s1 b)))
        by (rewrite Hs1b; reflexivity).
      revert Hdll1. apply dll_same_links; intros r.
      * apply next_set_refcnt.
      * apply prev_set_refcnt.
    + intros r Hr. unfold set_refcnt. rewrite node_set_other by auto.
      now apply Hs1.
    + unfold set_refcnt. rewrite node_set_same, Hs1b. reflexivity.
Qed.

(** ** The two scans of [bget] *)

Lemma find_first {A} (P : A -> bool) l1 b l2 :
  (forall x, In x l1 -> P x = false) -> P b = true ->
  find P (l1 ++ b :: l2) = Some b.
Proof.
  induction l1 as [| c l1 IH]; intros Hl1 Hb; simpl.
  - now rewrite Hb.
  - rewrite (Hl1 c) by now left. apply IH; auto.
    intros x Hx. apply Hl1. now right.
Qed.

Lemma find_nowhere {A} (P : A -> bool) l :
  (forall x, In x l -> P x = false) -> find P l = None.
Proof.
  induction l as [| c l IH]; intros Hl; simpl; [reflexivity |].
  rewrite (Hl c) by now left. apply IH. intros x Hx. apply Hl. now right.
Qed.

(** Along a well-formed list the first loop returns the first slot, from
    the head on, that holds the block. *)
Lemma scan_cached_find i d bn s l :
  forall fuel a,
    path (fun r => next (node s r)) a l (Head i) -> ~ In (Head i) l ->
    (List.length l < fuel)%nat ->
    scan_cached fuel i (next (node s a)) d bn s
    = Done (find (is_block s d bn) l).
Proof.
  induction l as [| b l IH]; intros fuel a Hp HH Hfuel;
    (destruct fuel as [| fuel]; [simpl in Hfuel; lia |]); simpl in *.
  - rewrite Hp, ref_eqb_refl. reflexivity.
  - destruct Hp as (-> & Hp).
    destruct (ref_eqb_spec b (Head i)) as [E | _];
      [exfalso; apply HH; now left |].
    unfold is_block at 1.
    destruct ((dev (node s b) =? d) && (blockno (node s b) =? bn));
      [reflexivity |].
    apply IH; auto. lia.
Qed.

(** And the second loop the first unused slot from the tail on. *)
Lemma scan_unused_find i s l :
  forall fuel a,
    path (fun r => prev (node s r)) a l (Head i) -> ~ In (Head i) l ->
    (List.length l < fuel)%nat ->
    scan_unused fuel i (prev (node s a)) s = Done (find (is_unused s) l).
Proof.
  induction l as [| b l IH]; intros fuel a Hp HH Hfuel;
    (destruct fuel as [| fuel]; [simpl in Hfuel; lia |]); simpl in *.
  - rewrite Hp, ref_eqb_refl. reflexivity.
  - destruct Hp as (-> & Hp).
    destruct (ref_eqb_spec b (Head i)) as [E | _];
      [exfalso; apply HH; now left |].
    unfold is_unused at 1.
    destruct (refcnt (node s b) =? 0); [reflexivity |].
    apply IH; auto. lia.
Qed.

Lemma bget_locked_find fuel d bn s l :
  dll s (bucket_of bn) l -> (List.length l < fuel)%nat ->
  bget_locked fuel d bn s =
  match find (is_block s d bn) l with
  | Some b => Done (b, set_refcnt s b (wrap32 (refcnt (node s b) + 1)))
  | None =>
      match find (is_unused s) (rev l) with
      | Some b =>
          Done (b, set_refcnt (set_valid (set_blockno (set_dev s b d) b bn)
                                         b 0) b 1)
      | None => Panic "bget: no buffers"
      end
  end.
Proof.
  intros (Hnd & HH & Hnx & Hpv) Hfuel. unfold bget_locked. cbv zeta.
  rewrite (scan_cached_find _ d bn s l) by auto.
  destruct (find (is_block s d bn) l); cbn [bind]; [reflexivity |].
  rewrite (scan_unused_find _ s (rev l)).
  - destruct (find (is_unused s) (rev l)); reflexivity.
  - exact Hpv.
  - intros Hin. apply HH. apply in_rev. exact Hin.
  - now rewrite length_rev.
Qed.

(** The stores of [bget] leave the links alone. *)
Lemma dll_recycled s i l b d bn v c :
  dll s i l ->
  dll (set_refcnt (set_valid (set_blockno (set_dev s b d) b bn) b v) b c) i l.
Proof.
  apply dll_same_links; intros r.
  - now rewrite next_set_refcnt, next_set_valid, next_set_blockno, next_set_dev.
  - now rewrite prev_set_refcnt, prev_set_valid, prev_set_blockno, prev_set_dev.
Qed.

Lemma dll_counted s i l b c : dll s i l -> dll (set_refcnt s b c) i l.
Proof.
  apply dll_same_links; intros r;
    [apply next_set_refcnt | apply prev_set_refcnt].
Qed.

Lemma dll_locked s i l b c : dll s i l -> dll (set_lock s b c) i l.
Proof.
  apply dll_same_links; intros r; [apply next_set_lock | apply prev_set_lock].
Qed.

(** [bget] once its locked part has returned slot [b] in state [s1]. *)
Lemma bget_after_locked fuel pid d bn s b s1 :
  bget_locked fuel d bn s = Done (b, s1) ->
  bget fuel pid d bn s =
  match lock (node s1 b) with
  | None => Done (Awake (b, set_lock s1 b (Some pid)))
  | Some _ => Done Asleep
  end.
Proof.
  intros E. unfold bget. rewrite E. cbn [bind fst snd]. unfold acquiresleep.
  now destruct (lock (node s1 b)).
Qed.


(** ** Least recently used *)

Lemma Forall2_In_l {A B} (R : A -> B -> Prop) l l' a :
  Forall2 R l l' -> In a l -> exists b, In b l' /\ R a b.
Proof.
  induction 1 as [| x y l l' Hxy _ IH]; intros Hin; [destruct Hin |].
  destruct Hin as [-> | Hin].
  - exists y. split; [now left | exact Hxy].
  - destruct (IH Hin) as (b & Hb & HR). exists b. split; [now right | exact HR].
Qed.

Lemma Forall2_weaken {A B} (R R' : A -> B -> Prop) l l' :
  (forall a b, In a l -> R a b -> R' a b) ->
  Forall2 R l l' -> Forall2 R' l l'.
Proof.
  intros Hw H. induction H as [| x y l l' Hxy _ IH]; constructor.
  - apply Hw; [now left | exact Hxy].
  - apply IH. intros a b Ha. apply Hw. now right.
Qed.

Lemma without_notin b l : ~ In b l -> without b l = l.
Proof.
  induction l as [| x l IH]; intros Hni; simpl; [reflexivity |].
  destruct (ref_eqb_spec x b) as [-> | _]; simpl.
  - exfalso. apply Hni. now left.
  - f_equal. apply IH. intros H. apply Hni. now right.
Qed.

Lemma without_In b l x : In x (without b l) -> In x l /\ x <> b.
Proof.
  unfold without. rewrite filter_In. intros (Hin & Hne). split; auto.
  intros ->. now rewrite ref_eqb_refl in Hne.
Qed.

Lemma without_length b l :
  NoDup l -> In b l -> S (List.length (without b l)) = List.length l.
Proof.
  intros Hnd Hin. destruct (in_split _ _ Hin) as (l1 & l2 & ->).
  rewrite without_split by auto. rewrite !length_app. simpl. lia.
Qed.

(** [bget] in an idle shard returns: the slot is the first that holds
    the block, or, when none does, the last slot of the list. *)
Lemma bget_idle fuel pid d bn s l :
  dll s (bucket_of bn) l -> idle s l -> l <> [] ->
  (List.length l < fuel)%nat ->
  exists b s1,
    bget fuel pid d bn s = Done (Awake (b, s1)) /\
    In b l /\
    (is_block s d bn b = true \/
     ((forall x, In x l -> is_block s d bn x = false) /\
      exists l', l = l' ++ [b])) /\
    dev (node s1 b) = d /\ blockno (node s1 b) = bn /\
    refcnt (node s1 b) = 1 /\ lock (node s1 b) = Some pid /\
    (forall r, r <> b -> node s1 r = node s r) /\
    dll s1 (bucket_of bn) l.
Proof.
  intros Hdll Hidle Hne Hfuel.
  assert (E := bget_locked_find fuel d bn s l Hdll Hfuel).
  destruct (find (is_block s d bn) l) as [b |] eqn:Ef.
  - apply find_some in Ef. destruct Ef as (Hin & Hb).
    destruct (Hidle b Hin) as (Hcnt & Hlock).
    rewrite Hcnt in E. change (wrap32 (0 + 1)) with 1 in E.
    exists b. eexists. split.
    { rewrite (bget_after_locked _ pid _ _ _ _ _ E).
      replace (lock (node (set_refcnt s b 1) b)) with (lock (node s b))
        by (symmetry; setter).
      rewrite Hlock. reflexivity. }
    unfold is_block in Hb. apply andb_prop in Hb. destruct Hb as (Hd & Hbn).
    apply Z.eqb_eq in Hd, Hbn.
    split; [exact Hin |]. split.
    { left. unfold is_block. now rewrite Hd, Hbn, !Z.eqb_refl. }
    assert (Hdll' : dll (set_lock (set_refcnt s b 1) b (Some pid))
                        (bucket_of bn) l)
      by (apply dll_locked; now apply dll_counted).
    unfold set_lock, set_refcnt in *. repeat rewrite node_set_same in Hdll'. repeat rewrite node_set_same.
    cbn [dev blockno refcnt lock with_lock with_refcnt].
    do 4 (split; [auto |]). split; [| exact Hdll'].
    intros r Hr. now rewrite !node_set_other by auto.
  - assert (Hmiss := find_none _ _ Ef).
    destruct (exists_last Hne) as (l' & b & ->).
    assert (Hin : In b (l' ++ [b])) by (apply in_or_app; right; now left).
    destruct (Hidle b Hin) as (Hcnt & Hlock).
    rewrite rev_app_distr in E. simpl in E.
    unfold is_unused at 1 in E. rewrite Hcnt in E. simpl in E.
    exists b. eexists. split.
    { rewrite (bget_after_locked _ pid _ _ _ _ _ E).
      replace (lock (node (set_refcnt (set_valid (set_blockno (set_dev s b d)
                 b bn) b 0) b 1) b)) with (lock (node s b)).
      - rewrite Hlock. reflexivity.
      - unfold set_refcnt, set_valid, set_blockno, set_dev.
        rewrite !node_set_same. reflexivity. }
    split; [exact Hin |]. split.
    { right. split; [exact Hmiss | now exists l']. }
    assert (Hdll' : dll (set_lock (set_refcnt (set_valid (set_blockno
                          (set_dev s b d) b bn) b 0) b 1) b (Some pid))
                        (bucket_of bn) (l' ++ [b]))
      by (apply dll_locked; now apply dll_recycled).
    unfold set_lock, set_refcnt, set_valid, set_blockno, set_dev in *.
    repeat rewrite node_set_same in Hdll'. repeat rewrite node_set_same.
    cbn [dev blockno refcnt lock with_lock with_refcnt with_valid
         with_blockno with_dev].
    do 4 (split; [auto |]). split; [| exact Hdll'].
    intros r Hr. now rewrite !node_set_other by auto.
Qed.

Lemma NoDup_app_apart {A} (l1 l2 : list A) x :
  NoDup (l1 ++ l2) -> In x l1 -> In x l2 -> False.
Proof.
  induction l1 as [| a l1 IH]; intros Hnd H1 H2; [destruct H1 |].
  simpl in Hnd. inversion Hnd as [| ? ? Ha Hnd']; subst.
  destruct H1 as [-> | H1]; [| now apply IH].
  apply Ha. apply in_or_app. now right.
Qed.

Lemma holds_same blk blk' s t : holds s t blk -> holds s t blk' -> blk = blk'.
Proof.
  destruct blk, blk'. unfold holds. simpl. intros (<- & <-) (<- & <-).
  reflexivity.
Qed.

(** One [bget] and [brelse] in an idle shard with a slot to spare: a slot
    not used so far takes the block and comes to stand first. *)
Lemma get_release_round fuel pid blk s lc ts bs :
  let i := bucket_of (snd blk) in
  recent s i lc ts bs -> ~ In blk bs ->
  (List.length ts < List.length lc)%nat -> (List.length lc < fuel)%nat ->
  exists t s' lc',
    get_release fuel pid blk s = Done (Awake (t, s')) /\
    recent s' i lc' (ts ++ [t]) (bs ++ [blk]) /\
    List.length lc' = List.length lc.
Proof.
  intros i (Hdll & Hidle & (rest & Hlc) & Hholds) Hnew Hroom Hfuel.
  assert (Hne : lc <> []) by (destruct lc; simpl in *; [lia | discriminate]).
  destruct (bget_idle fuel pid (fst blk) (snd blk) s lc Hdll Hidle Hne Hfuel)
    as (b & s1 & Hget & Hin & Hwhich & Hd & Hbn & Hcnt & Hlock & Hoth & Hdll1).
  assert (Hnd : NoDup lc) by (destruct Hdll; auto).
  assert (Hbts : ~ In b ts).
  { intros Hb. destruct Hwhich as [Hblk | (Hmiss & l' & El)].
    - destruct (Forall2_In_l _ _ _ _ Hholds Hb) as (blk0 & Hblk0 & Hh0).
      unfold is_block in Hblk. apply andb_prop in Hblk.
      destruct Hblk as (E1 & E2). apply Z.eqb_eq in E1, E2.
      apply Hnew. rewrite (holds_same blk blk0 s b); auto. now split.
    - assert (Hrest : rest <> []).
      { intros ->. rewrite Hlc, app_nil_r, length_rev in Hroom. lia. }
      destruct (exists_last Hrest) as (rest' & b' & ->).
      rewrite Hlc, app_assoc in El. apply app_inj_tail in El.
      destruct El as (_ & ->).
      rewrite Hlc in Hnd. apply (NoDup_app_apart _ _ b Hnd).
      + now apply in_rev in Hb.
      + apply in_or_app. right. now left. }
  assert (Hi : bucket_of (blockno (node s1 b)) = i) by (now rewrite Hbn).
  destruct (brelse_holder pid b s1 lc)
    as (s2 & Hrel & Hcnt2 & _ & Hcore & Hothers & Hzero & _).
  { exact Hlock. }
  { rewrite Hi. exact Hdll1. }
  { exact Hin. }
  rewrite Hcnt in Hcnt2. change (wrap32 (1 - 1)) with 0 in Hcnt2.
  specialize (Hzero Hcnt2). rewrite Hi in Hzero.
  destruct (core_fields _ _ Hcore) as (_ & Hdv & Hbk & Hlk & _).
  cbn [dev blockno lock with_lock] in Hdv, Hbk, Hlk.
  assert (Hkeep : forall r, r <> b ->
            dev (node s2 r) = dev (node s r) /\
            blockno (node s2 r) = blockno (node s r) /\
            lock (node s2 r) = lock (node s r) /\
            refcnt (node s2 r) = refcnt (node s r)).
  { intros r Hr. destruct (Hothers r Hr) as (Hc & Hrc).
    destruct (core_fields _ _ Hc) as (_ & H1 & H2 & H3 & _).
    rewrite H1, H2, H3, Hrc, (Hoth r Hr). auto. }
  exists b, s2, (b :: without b lc). split.
  { unfold get_release. rewrite Hget. cbn [bind]. rewrite Hrel. reflexivity. }
  split; [| simpl; now apply without_length].
  split; [exact Hzero |]. split.
  { intros r [<- | Hr].
    - split; [exact Hcnt2 | exact Hlk].
    - apply without_In in Hr. destruct Hr as (Hr & Hrb).
      destruct (Hkeep r Hrb) as (_ & _ & H3 & H4). rewrite H3, H4.
      now apply Hidle. }
  split.
  { exists (without b rest). rewrite Hlc. unfold without at 1.
    rewrite filter_app. fold (without b (rev ts)). fold (without b rest).
    rewrite (without_notin b (rev ts)).
    - rewrite rev_app_distr. reflexivity.
    - intros H. apply Hbts. now apply in_rev. }
  apply Forall2_app.
  - revert Hholds. apply Forall2_weaken. intros t blk0 Ht (H1 & H2).
    assert (Htb : t <> b) by (intros ->; auto).
    destruct (Hkeep t Htb) as (H3 & H4 & _). unfold holds.
    now rewrite H3, H4.
  - constructor; [| constructor]. unfold holds. now rewrite Hdv, Hbk.
Qed.

(** The same for a run of distinct blocks, as long as slots are left. *)
Lemma get_release_rounds fuel pid i :
  forall blks s lc ts bs,
    recent s i lc ts bs -> NoDup (bs ++ blks) ->
    (forall blk, In blk blks -> bucket_of (snd blk) = i) ->
    (List.length ts + List.length blks <= List.length lc)%nat ->
    (List.length lc < fuel)%nat ->
    exists slots s' lc',
      get_release_all fuel pid blks s = Done (Awake (slots, s')) /\
      recent s' i lc' (ts ++ slots) (bs ++ blks) /\
      List.length lc' = List.length lc.
Proof.
  induction blks as [| blk blks IH]; intros s lc ts bs Hrec Hnd Hi Hroom Hfuel.
  - exists [], s, lc. rewrite !app_nil_r. auto.
  - simpl in Hroom.
    assert (Hnew : ~ In blk bs).
    { apply NoDup_remove_2 in Hnd. intros H. apply Hnd, in_or_app. now left. }
    destruct (get_release_round fuel pid blk s lc ts bs)
      as (t & s1 & lc1 & Hrun1 & Hrec1 & Hlen1).
    { rewrite Hi by now left. exact Hrec. }
    { exact Hnew. }
    { lia. }
    { exact Hfuel. }
    rewrite Hi in Hrec1 by now left.
    destruct (IH s1 lc1 (ts ++ [t]) (bs ++ [blk]))
      as (slots & s2 & lc2 & Hrun2 & Hrec2 & Hlen2).
    { exact Hrec1. }
    { rewrite <- app_assoc. exact Hnd. }
    { intros blk0 H0. apply Hi. now right. }
    { rewrite length_app, Hlen1. simpl. lia. }
    { now rewrite Hlen1. }
    exists (t :: slots), s2, lc2.
    rewrite <- !app_assoc in Hrec2. simpl in Hrec2.
    split; [| split; [exact Hrec2 | congruence]].
    cbn [get_release_all]. rewrite Hrun1. cbn [bind]. rewrite Hrun2.
    reflexivity.
Qed.

(** Once every slot of an idle shard has been used for one of the blocks
    [blk1 :: blks], [bget] of a further block takes the slot of [blk1]:
    it stands last in the list and no slot holds the new block. *)
Lemma recent_full_recycles fuel pid s1 i lc ts blk1 blks blk' :
  recent s1 i lc ts (blk1 :: blks) ->
  List.length lc = List.length (blk1 :: blks) ->
  (List.length lc < fuel)%nat ->
  bucket_of (snd blk') = i -> ~ In blk' (blk1 :: blks) ->
  exists victim slots s2 l1,
    ts = victim :: slots /\
    holds s1 victim blk1 /\ refcnt (node s1 victim) = 0 /\
    dll s1 i (l1 ++ [victim]) /\
    bget fuel pid (fst blk') (snd blk') s1 = Done (Awake (victim, s2)) /\
    holds s2 victim blk' /\
    (forall r, r <> victim -> node s2 r = node s1 r).
Proof.
  intros (Hdll1 & Hidle1 & (rest & Hlc) & Hholds) Hlen Hfuel Hi Hnew.
  assert (Hts : List.length ts = List.length (blk1 :: blks))
    by (eapply Forall2_length; eauto).
  assert (Hrest : rest = []).
  { apply length_zero_iff_nil.
    assert (H := f_equal (@List.length ref) Hlc).
    rewrite length_app, length_rev in H. lia. }
  subst rest. rewrite app_nil_r in Hlc. subst lc.
  destruct ts as [| victim slots]; [discriminate |].
  inversion Hholds as [| ? ? ? ? Hv Hrest]; subst.
  simpl in Hdll1, Hidle1, Hfuel.
  assert (Hne : rev slots ++ [victim] <> [])
    by (destruct (rev slots); discriminate).
  destruct (bget_idle fuel pid (fst blk') (snd blk') s1 _ Hdll1 Hidle1 Hne Hfuel)
    as (b & s2 & Hget & Hin & Hwhich & Hd & Hbn & _ & _ & Hoth & _).
  assert (Hb : b = victim).
  { destruct Hwhich as [Hblk | (_ & l' & El)].
    - exfalso. apply Hnew.
      assert (Hbts : In b (victim :: slots)).
      { apply in_app_or in Hin. destruct Hin as [Hin | [<- | []]].
        - right. now apply in_rev.
        - now left. }
      destruct (Forall2_In_l _ _ _ _ Hholds Hbts) as (blk0 & Hblk0 & Hh0).
      unfold is_block in Hblk. apply andb_prop in Hblk.
      destruct Hblk as (E1 & E2). apply Z.eqb_eq in E1, E2.
      rewrite (holds_same blk' blk0 s1 b); auto. now split.
    - apply app_inj_tail in El. now destruct El. }
  subst b.
  exists victim, slots, s2, (rev slots).
  split; [reflexivity |]. split; [exact Hv |]. split.
  { apply Hidle1. apply in_or_app. right. now left. }
  split; [exact Hdll1 |]. split; [exact Hget |]. split; [now split | exact Hoth].
Qed.

(** *** Taking all the blocks first, giving them back afterwards *)

Lemma without_le a ts : (List.length (without a ts) <= List.length ts)%nat.
Proof.
  induction ts as [| x ts IH]; simpl; [lia |].
  destruct (negb (ref_eqb x a)); simpl; lia.
Qed.

Lemma without_shorter a ts :
  In a ts -> (List.length (without a ts) < List.length ts)%nat.
Proof.
  induction ts as [| x ts IH]; intros Hin; [destruct Hin |]. simpl.
  destruct (ref_eqb_spec x a) as [-> | Hne]; simpl.
  - assert (H := without_le a ts). lia.
  - destruct Hin as [E | Hin]; [congruence |]. apply IH in Hin. lia.
Qed.

Lemma In_without a ts r : In r ts -> r <> a -> In r (without a ts).
Proof.
  intros Hin Hne. unfold without. apply filter_In. split; [exact Hin |].
  destruct (ref_eqb_spec r a); [congruence | reflexivity].
Qed.

(** With fewer slots taken than there are, one is left. *)
Lemma spare_slot (l : list ref) : forall ts : list ref,
  NoDup l -> (List.length ts < List.length l)%nat ->
  exists r, In r l /\ ~ In r ts.
Proof.
  induction l as [| a l IH]; intros ts Hnd Hlen; [simpl in Hlen; lia |].
  inversion Hnd as [| ? ? Ha Hnd']; subst.
  destruct (in_dec ref_eq_dec a ts) as [Hin | Hni].
  - destruct (IH (without a ts) Hnd') as (r & Hr & Hrt).
    { apply without_shorter in Hin. simpl in Hlen. lia. }
    exists r. split; [now right |]. intros Hrts. apply Hrt.
    apply In_without; auto. intros ->. now apply Ha.
  - exists a. split; [now left | exact Hni].
Qed.

Lemma NoDup_snoc {A} (l : list A) x : NoDup l -> ~ In x l -> NoDup (l ++ [x]).
Proof.
  intros Hnd Hx. apply NoDup_rev in Hnd. rewrite <- (rev_involutive (l ++ [x])).
  apply NoDup_rev. rewrite rev_app_distr. simpl. constructor; auto.
  intros H. apply Hx. now apply in_rev.
Qed.

(** [bget] in a shard where some slot is unused, the slots in use do not
    hold the block, and unused slots are unlocked: it returns an unused
    slot, now counted once, locked and holding the block. *)
Lemma bget_picks fuel pid d bn s l :
  dll s (bucket_of bn) l -> (List.length l < fuel)%nat ->
  (exists r, In r l /\ refcnt (node s r) = 0) ->
  (forall r, In r l -> is_block s d bn r = true -> refcnt (node s r) = 0) ->
  (forall r, In r l -> refcnt (node s r) = 0 -> lock (node s r) = None) ->
  exists b s1,
    bget fuel pid d bn s = Done (Awake (b, s1)) /\
    In b l /\ refcnt (node s b) = 0 /\
    dev (node s1 b) = d /\ blockno (node s1 b) = bn /\
    refcnt (node s1 b) = 1 /\ lock (node s1 b) = Some pid /\
    (forall r, r <> b -> node s1 r = node s r) /\
    dll s1 (bucket_of bn) l.
Proof.
  intros Hdll Hfuel (r0 & Hr0 & Hr0z) Hblk Hunl.
  assert (E := bget_locked_find fuel d bn s l Hdll Hfuel).
  destruct (find (is_block s d bn) l) as [b |] eqn:Ef.
  - apply find_some in Ef. destruct Ef as (Hin & Hb).
    assert (Hcnt := Hblk b Hin Hb). assert (Hlock := Hunl b Hin Hcnt).
    rewrite Hcnt in E. change (wrap32 (0 + 1)) with 1 in E.
    exists b. eexists. split.
    { rewrite (bget_after_locked _ pid _ _ _ _ _ E).
      replace (lock (node (set_refcnt s b 1) b)) with (lock (node s b))
        by (symmetry; setter).
      rewrite Hlock. reflexivity. }
    unfold is_block in Hb. apply andb_prop in Hb. destruct Hb as (Hd & Hbn).
    apply Z.eqb_eq in Hd, Hbn.
    split; [exact Hin |]. split; [exact Hcnt |].
    assert (Hdll' : dll (set_lock (set_refcnt s b 1) b (Some pid))
                        (bucket_of bn) l)
      by (apply dll_locked; now apply dll_counted).
    unfold set_lock, set_refcnt in *.
    repeat rewrite node_set_same in Hdll'. repeat rewrite node_set_same.
    cbn [dev blockno refcnt lock with_lock with_refcnt].
    do 4 (split; [auto |]). split; [| exact Hdll'].
    intros r Hr. now rewrite !node_set_other by auto.
  - destruct (find (is_unused s) (rev l)) as [b |] eqn:Eu.
    + apply find_some in Eu. destruct Eu as (Hin & Hb).
      apply in_rev in Hin. unfold is_unused in Hb. apply Z.eqb_eq in Hb.
      assert (Hlock := Hunl b Hin Hb).
      exists b. eexists. split.
      { rewrite (bget_after_locked _ pid _ _ _ _ _ E).
        replace (lock (node (set_refcnt (set_valid (set_blockno (set_dev s b d)
                   b bn) b 0) b 1) b)) with (lock (node s b)).
        - rewrite Hlock. reflexivity.
        - unfold set_refcnt, set_valid, set_blockno, set_dev.
          rewrite !node_set_same. reflexivity. }
      split; [exact Hin |]. split; [exact Hb |].
      assert (Hdll' : dll (set_lock (set_refcnt (set_valid (set_blockno
                            (set_dev s b d) b bn) b 0) b 1) b (Some pid))
                          (bucket_of bn) l)
        by (apply dll_locked; now apply dll_recycled).
      unfold set_lock, set_refcnt, set_valid, set_blockno, set_dev in *.
      repeat rewrite node_set_same in Hdll'. repeat rewrite node_set_same.
      cbn [dev blockno refcnt lock with_lock with_refcnt with_valid
           with_blockno with_dev].
      do 4 (split; [auto |]). split; [| exact Hdll'].
      intros r Hr. now rewrite !node_set_other by auto.
    + exfalso. assert (Hn := find_none _ _ Eu r0).
      unfold is_unused in Hn. rewrite Hr0z in Hn.
      assert (In r0 (rev l)) by (now apply in_rev in Hr0). 
      specialize (Hn H). discriminate.
Qed.

(** One more [bget] by a process that keeps what it has. *)
Lemma bget_taken fuel pid blk s l ts bs :
  let i := bucket_of (snd blk) in
  taken s i l pid ts bs -> ~ In blk bs ->
  (List.length ts < List.length l)%nat -> (List.length l < fuel)%nat ->
  exists b s1,
    bget fuel pid (fst blk) (snd blk) s = Done (Awake (b, s1)) /\
    taken s1 i l pid (ts ++ [b]) (bs ++ [blk]).
Proof.
  intros i (Hdll & Hndts & Hheld & Hfree & Hholds) Hnew Hroom Hfuel.
  assert (Hnd : NoDup l) by (destruct Hdll; auto).
  destruct (bget_picks fuel pid (fst blk) (snd blk) s l Hdll Hfuel)
    as (b & s1 & Hget & Hin & Hz & Hd & Hbn & Hcnt & Hlock & Hoth & Hdll1).
  { destruct (spare_slot l ts Hnd Hroom) as (r & Hr & Hrt).
    exists r. split; [exact Hr |]. now apply Hfree. }
  { intros r Hr Hblk.
    destruct (in_dec ref_eq_dec r ts) as [Hrt | Hrt]; [| now apply Hfree].
    exfalso. apply Hnew.
    destruct (Forall2_In_l _ _ _ _ Hholds Hrt) as (blk0 & Hblk0 & Hh0).
    unfold is_block in Hblk. apply andb_prop in Hblk.
    destruct Hblk as (E1 & E2). apply Z.eqb_eq in E1, E2.
    rewrite (holds_same blk blk0 s r); auto. now split. }
  { intros r Hr Hrz.
    destruct (in_dec ref_eq_dec r ts) as [Hrt | Hrt]; [| now apply Hfree].
    destruct (Hheld r Hrt) as (_ & H1 & _). lia. }
  assert (Hbts : ~ In b ts).
  { intros Hb. destruct (Hheld b Hb) as (_ & H1 & _). lia. }
  exists b, s1. split; [exact Hget |].
  split; [exact Hdll1 |]. split; [now apply NoDup_snoc |]. split.
  { intros t Ht. apply in_app_or in Ht. destruct Ht as [Ht | [<- | []]].
    - assert (Htb : t <> b) by (intros ->; auto).
      rewrite (Hoth t Htb). now apply Hheld.
    - auto. }
  split.
  { intros r Hr Hrt.
    assert (Hrb : r <> b) by (intros ->; apply Hrt, in_or_app; right; now left).
    rewrite (Hoth r Hrb). apply Hfree; auto.
    intros H. apply Hrt, in_or_app. now left. }
  apply Forall2_app.
  - revert Hholds. apply Forall2_weaken. intros t blk0 Ht Hh.
    assert (Htb : t <> b) by (intros ->; auto).
    unfold holds. now rewrite (Hoth t Htb).
  - constructor; [| constructor]. now split.
Qed.

Lemma get_all_taken fuel pid i :
  forall blks s l ts bs,
    taken s i l pid ts bs -> NoDup (bs ++ blks) ->
    (forall blk, In blk blks -> bucket_of (snd blk) = i) ->
    (List.length ts + List.length blks <= List.length l)%nat ->
    (List.length l < fuel)%nat ->
    exists slots s',
      get_all fuel pid blks s = Done (Awake (slots, s')) /\
      taken s' i l pid (ts ++ slots) (bs ++ blks).
Proof.
  induction blks as [| blk blks IH]; intros s l ts bs Htk Hnd Hi Hroom Hfuel.
  - exists [], s. rewrite !app_nil_r. auto.
  - simpl in Hroom.
    assert (Hnew : ~ In blk bs).
    { apply NoDup_remove_2 in Hnd. intros H. apply Hnd, in_or_app. now left. }
    destruct (bget_taken fuel pid blk s l ts bs) as (b & s1 & Hget & Htk1).
    { rewrite Hi by now left. exact Htk. }
    { exact Hnew. }
    { lia. }
    { exact Hfuel. }
    rewrite Hi in Htk1 by now left.
    destruct (IH s1 l (ts ++ [b]) (bs ++ [blk]))
      as (slots & s2 & Hrun & Htk2).
    { exact Htk1. }
    { rewrite <- app_assoc. exact Hnd. }
    { intros blk0 H0. apply Hi. now right. }
    { rewrite length_app. simpl. lia. }
    { exact Hfuel. }
    exists (b :: slots), s2. rewrite <- !app_assoc in Htk2. simpl in Htk2.
    split; [| exact Htk2].
    cbn [get_all]. rewrite Hget. cbn [bind]. rewrite Hrun. reflexivity.
Qed.

(** One [brelse] by a process giving back what it holds. *)
Lemma brelse_draining pid s i lc ts bs t hs blk hb :
  draining s i lc pid ts bs (t :: hs) (blk :: hb) ->
  bucket_of (snd blk) = i ->
  exists s' lc',
    brelse pid t s = Done s' /\
    draining s' i lc' pid (ts ++ [t]) (bs ++ [blk]) hs hb /\
    List.length lc' = List.length lc.
Proof.
  intros (Hdll & (rest & Hlc & Hinr) & Hndh & Hheld & Hfree & Hts & Hhs) Hi.
  inversion Hhs as [| ? ? ? ? (Htd & Htb) Hhs']; subst.
  inversion Hndh as [| ? ? Hth Hndh']; subst.
  assert (Hnd : NoDup (rev ts ++ rest)) by (destruct Hdll; auto).
  assert (Htr : In t rest) by (apply Hinr; now left).
  assert (Htl : In t (rev ts ++ rest)) by (apply in_or_app; now right).
  assert (Htts : ~ In t (rev ts)).
  { intros H. exact (NoDup_app_apart _ _ t Hnd H Htr). }
  destruct (Hheld t) as (Hcnt & Hlock); [now left |].
  assert (Hbk : bucket_of (blockno (node s t)) = bucket_of (snd blk))
    by (now rewrite Htb).
  destruct (brelse_holder pid t s (rev ts ++ rest))
    as (s2 & Hrel & Hcnt2 & _ & Hcore & Hothers & Hzero & _).
  { exact Hlock. }
  { rewrite Hbk. exact Hdll. }
  { exact Htl. }
  rewrite Hcnt in Hcnt2. change (wrap32 (1 - 1)) with 0 in Hcnt2.
  specialize (Hzero Hcnt2). rewrite Hbk in Hzero.
  destruct (core_fields _ _ Hcore) as (_ & Hdv & Hbn & Hlk & _).
  cbn [dev blockno lock with_lock] in Hdv, Hbn, Hlk.
  assert (Hkeep : forall r, r <> t ->
            dev (node s2 r) = dev (node s r) /\
            blockno (node s2 r) = blockno (node s r) /\
            lock (node s2 r) = lock (node s r) /\
            refcnt (node s2 r) = refcnt (node s r)).
  { intros r Hr. destruct (Hothers r Hr) as (Hc & Hrc).
    destruct (core_fields _ _ Hc) as (_ & H1 & H2 & H3 & _). auto. }
  exists s2, (t :: without t (rev ts ++ rest)).
  split; [exact Hrel |].
  split; [| simpl; now apply without_length].
  split; [exact Hzero |]. split.
  { exists (without t rest). split.
    - unfold without at 1. rewrite filter_app.
      fold (without t (rev ts)). fold (without t rest).
      rewrite (without_notin t (rev ts)) by exact Htts.
      rewrite rev_app_distr. reflexivity.
    - intros h Hh. apply In_without.
      + apply Hinr. now right.
      + intros ->. exact (Hth Hh). }
  split; [exact Hndh' |]. split.
  { intros h Hh. assert (Hht : h <> t) by (intros ->; exact (Hth Hh)).
    destruct (Hkeep h Hht) as (_ & _ & H3 & H4). rewrite H3, H4.
    apply Hheld. now right. }
  split.
  { intros r [<- | Hr] Hrh.
    - split; [exact Hcnt2 | exact Hlk].
    - apply without_In in Hr. destruct Hr as (Hr & Hrt).
      destruct (Hkeep r Hrt) as (_ & _ & H3 & H4). rewrite H3, H4.
      apply Hfree; [exact Hr |]. intros [E | Hin]; [congruence | auto]. }
  split.
  - apply Forall2_app.
    + revert Hts. apply Forall2_weaken. intros r blk0 Hr (H1 & H2).
      assert (Hrt : r <> t) by (intros ->; apply Htts; now apply in_rev in Hr).
      destruct (Hkeep r Hrt) as (H3 & H4 & _). unfold holds.
      now rewrite H3, H4.
    + constructor; [| constructor]. unfold holds. now rewrite Hdv, Hbn.
  - revert Hhs'. apply Forall2_weaken. intros r blk0 Hr (H1 & H2).
    assert (Hrt : r <> t) by (intros ->; exact (Hth Hr)).
    destruct (Hkeep r Hrt) as (H3 & H4 & _). unfold holds. now rewrite H3, H4.
Qed.

Lemma release_all_draining pid i :
  forall hs hb s lc ts bs,
    draining s i lc pid ts bs hs hb ->
    (forall blk, In blk hb -> bucket_of (snd blk) = i) ->
    exists s' lc',
      release_all pid hs s = Done s' /\
      draining s' i lc' pid (ts ++ hs) (bs ++ hb) [] [] /\
      List.length lc' = List.length lc.
Proof.
  induction hs as [| t hs IH]; intros hb s lc ts bs Hdr Hi.
  - assert (hb = []) as ->.
    { destruct Hdr as (_ & _ & _ & _ & _ & _ & H). now inversion H. }
    exists s, lc. rewrite !app_nil_r. auto.
  - destruct hb as [| blk hb].
    { destruct Hdr as (_ & _ & _ & _ & _ & _ & H). inversion H. }
    destruct (brelse_draining pid s i lc ts bs t hs blk hb Hdr)
      as (s1 & lc1 & Hrel & Hdr1 & Hlen1).
    { apply Hi. now left. }
    destruct (IH hb s1 lc1 (ts ++ [t]) (bs ++ [blk]) Hdr1)
      as (s2 & lc2 & Hrun & Hdr2 & Hlen2).
    { intros blk0 H0. apply Hi. now right. }
    exists s2, lc2. rewrite <- !app_assoc in Hdr2. simpl in Hdr2.
    split; [| split; [exact Hdr2 | congruence]].
    cbn [release_all]. rewrite Hrel. cbn [bind]. exact Hrun.
Qed.

(** [bget] of distinct blocks, as many as the idle shard has slots, and
    then [brelse] of the slots in the same order: it all returns and the
    shard is idle again, the slots in the list most recently released
    first. *)
Lemma get_all_release_all fuel pid s i l blks :
  dll s i l -> idle s l -> (List.length l < fuel)%nat ->
  (List.length blks <= List.length l)%nat -> NoDup blks ->
  (forall blk, In blk blks -> bucket_of (snd blk) = i) ->
  exists ts s1 s2 lc,
    get_all fuel pid blks s = Done (Awake (ts, s1)) /\
    release_all pid ts s1 = Done s2 /\
    recent s2 i lc ts blks /\ List.length lc = List.length l.
Proof.
  intros Hdll Hidle Hfuel Hlen Hnd Hi.
  destruct (get_all_taken fuel pid i blks s l [] [])
    as (ts & s1 & Hget & Htk); auto.
  { split; [exact Hdll |]. split; [constructor |]. split; [intros t [] |].
    split; [| constructor]. intros r Hr _. now apply Hidle. }
  simpl in Htk. destruct Htk as (Hdll1 & Hndts & Hheld & Hfree & Hholds).
  destruct (release_all_draining pid i ts blks s1 l [] [])
    as (s2 & lc & Hrel & Hdr & Hlen2); auto.
  { split; [exact Hdll1 |]. split.
    { exists l. split; [reflexivity |]. intros t Ht. now apply Hheld. }
    split; [exact Hndts |]. split; [intros t Ht; now apply Hheld |].
    split; [exact Hfree |]. split; [constructor | exact Hholds]. }
  simpl in Hdr. destruct Hdr as (Hdll2 & (rest & Hlc & _) & _ & _ & Hfree2 & Hts & _).
  exists ts, s1, s2, lc. split; [exact Hget |]. split; [exact Hrel |].
  split; [| exact Hlen2].
  split; [exact Hdll2 |]. split.
  { intros r Hr. apply Hfree2; auto. }
  split; [now exists rest | exact Hts].
Qed.

(** C9. In an idle shard of K slots (well-formed list, all counts 0, all
    locks free), take K distinct blocks of the shard and one more block
    of the shard, different from them.
    - [bget] and [brelse] of the K blocks one after the other, each
      [bget] directly followed by its [brelse], all return; the slot
      [victim] used for the first block still holds it, has count 0 and
      stands last in the list; [bget] of the further block then returns
      that very slot, made over to the new block, and no other slot
      changes.
    - The same holds when the K blocks are first all taken with [bget]
      and the slots then given back with [brelse] in the order they were
      taken. *)
Theorem lru_recycles_oldest fuel pid s l blk1 blks blk' :
  let i := bucket_of (snd blk') in
  dll s i l -> idle s l -> (List.length l < fuel)%nat ->
  List.length (blk1 :: blks) = List.length l ->
  NoDup (blk1 :: blks) ->
  (forall blk, In blk (blk1 :: blks) -> bucket_of (snd blk) = i) ->
  ~ In blk' (blk1 :: blks) ->
  (exists victim slots s1 s2 l1,
     get_release_all fuel pid (blk1 :: blks) s
     = Done (Awake (victim :: slots, s1)) /\
     holds s1 victim blk1 /\ refcnt (node s1 victim) = 0 /\
     dll s1 i (l1 ++ [victim]) /\
     bget fuel pid (fst blk') (snd blk') s1 = Done (Awake (victim, s2)) /\
     holds s2 victim blk' /\
     (forall r, r <> victim -> node s2 r = node s1 r)) /\
  (exists victim slots s0 s1 s2 l1,
     get_all fuel pid (blk1 :: blks) s = Done (Awake (victim :: slots, s0)) /\
     release_all pid (victim :: slots) s0 = Done s1 /\
     holds s1 victim blk1 /\ refcnt (node s1 victim) = 0 /\
     dll s1 i (l1 ++ [victim]) /\
     bget fuel pid (fst blk') (snd blk') s1 = Done (Awake (victim, s2)) /\
     holds s2 victim blk' /\
     (forall r, r <> victim -> node s2 r = node s1 r)).
Proof.
  intros i Hdll Hidle Hfuel Hlen Hnd Hi Hnew. split.
  - destruct (get_release_rounds fuel pid i (blk1 :: blks) s l [] [])
      as (ts & s1 & lc & Hrun & Hrec & Hlen1).
    { split; [exact Hdll |]. split; [exact Hidle |]. split; [| constructor].
      now exists l. }
    { exact Hnd. }
    { exact Hi. }
    { simpl in *. lia. }
    { exact Hfuel. }
    simpl in Hrec.
    destruct (recent_full_recycles fuel pid s1 i lc ts blk1 blks blk' Hrec)
      as (victim & slots & s2 & l1 & -> & Hrest); auto; try congruence.
    exists victim, slots, s1, s2, l1. split; [exact Hrun | exact Hrest].
  - destruct (get_all_release_all fuel pid s i l (blk1 :: blks))
      as (ts & s0 & s1 & lc & Hget & Hrel & Hrec & Hlen1); auto.
    { rewrite Hlen. lia. }
    destruct (recent_full_recycles fuel pid s1 i lc ts blk1 blks blk' Hrec)
      as (victim & slots & s2 & l1 & -> & Hrest); auto; try congruence.
    exists victim, slots, s0, s1, s2, l1.
    split; [exact Hget |]. split; [exact Hrel | exact Hrest].
Qed.

(** C5. [brelse] by the holder of the slot's lock returns.  The count is
    one less, modulo 2^32; next to that, only the lock of the slot has
    changed (it is free) and, when the count has reached 0, links.  In
    that case the slot has left its place in the recency list of shard
    [blockno % NBUCKETS] and stands first in it, the other slots in their
    old order.  When the count stays above 0 the list is as before, and no
    slot differs from before but this one in its count and lock. *)
Theorem brelse_spec pid b s l :
  let i := bucket_of (blockno (node s b)) in
  lock (node s b) = Some pid -> dll s i l -> In b l ->
  exists s',
    brelse pid b s = Done s' /\
    refcnt (node s' b) = wrap32 (refcnt (node s b) - 1) /\
    (0 < refcnt (node s b) < 2 ^ 32 ->
       refcnt (node s' b) = refcnt (node s b) - 1) /\
    core (node s' b) = core (with_lock (node s b) None) /\
    (forall r, r <> b -> core (node s' r) = core (node s r) /\
                         refcnt (node s' r) = refcnt (node s r)) /\
    (refcnt (node s' b) = 0 -> dll s' i (b :: without b l)) /\
    (refcnt (node s' b) <> 0 ->
       dll s' i l /\
       (forall r, r <> b -> node s' r = node s r) /\
       node s' b = with_refcnt (with_lock (node s b) None)
                               (wrap32 (refcnt (node s b) - 1))).
Proof. exact (brelse_holder pid b s l). Qed.

(** C10, as the code has it.  [bunpin] has no check and no [panic]: the
    count becomes the old one less one modulo 2^32 and nothing else
    changes.  From 0 it wraps to 2^32 - 1, which fails the [refcnt == 0]
    test of the recycling scan -- until increments bring it round to 0
    again: one [bpin] after the wrap does. *)
Theorem bunpin_wraps b s :
  refcnt (node (bunpin b s) b) = wrap32 (refcnt (node s b) - 1) /\
  core (node (bunpin b s) b) = core (node s b) /\
  prev (node (bunpin b s) b) = prev (node s b) /\
  next (node (bunpin b s) b) = next (node s b) /\
  (forall r, r <> b -> node (bunpin b s) r = node s r) /\
  (refcnt (node s b) = 0 ->
     refcnt (node (bunpin b s) b) = 2 ^ 32 - 1 /\
     is_unused (bunpin b s) b = false /\
     is_unused (bpin b (bunpin b s)) b = true).
Proof.
  unfold bunpin, bpin, is_unused, set_refcnt.
  rewrite !node_set_same. cbn [refcnt with_refcnt core prev next valid dev
                               blockno lock data].
  repeat split.
  - intros r Hr. now apply node_set_other.
  - rewrite H. reflexivity.
  - rewrite H. reflexivity.
  - rewrite H. reflexivity.
Qed.

(** C10 as stated fails: a slot unpinned at count 0 does satisfy the
    [refcnt == 0] test again, as soon as it is pinned once, and the next
    [bget] that misses recycles it. *)
Lemma unpinned_slot_unused_again :
  let s := bunpin (Slot 0 0) ex_cache in
  let s' := bpin (Slot 0 0) s in
  refcnt (node ex_cache (Slot 0 0)) = 0 /\
  refcnt (node s (Slot 0 0)) = 2 ^ 32 - 1 /\
  is_unused s' (Slot 0 0) = true /\
  match bget_locked 5 1 7 s' with
  | Done (b, _) => b = Slot 0 0
  | _ => False
  end.
Proof. vm_compute. auto. Qed.

(** ** Pinning *)

Lemma wrap32_up_down n : 0 <= n < 2 ^ 32 -> wrap32 (wrap32 (n + 1) - 1) = n.
Proof.
  intros H. unfold wrap32. rewrite Zminus_mod_idemp_l.
  replace (n + 1 - 1) with n by lia. now apply Z.mod_small.
Qed.

Lemma wrap32_down_up n : 0 <= n < 2 ^ 32 -> wrap32 (wrap32 (n - 1) + 1) = n.
Proof.
  intros H. unfold wrap32. rewrite Zplus_mod_idemp_l.
  replace (n - 1 + 1) with n by lia. now apply Z.mod_small.
Qed.

Lemma with_refcnt_twice b x : with_refcnt (with_refcnt b x) (refcnt b) = b.
Proof. now destruct b. Qed.

(** X6. [bpin] adds one to the count of the slot, modulo 2^32, and stores
    nothing else; [bunpin] after [bpin], and [bpin] after [bunpin], give
    back the cache exactly as it was, slot by slot.  At the top of the
    range the count wraps: a slot pinned at 2^32 - 1 ends with count 0
    and passes the [refcnt == 0] test of the recycling scan. *)
Theorem bpin_bunpin b s :
  0 <= refcnt (node s b) < 2 ^ 32 ->
  refcnt (node (bpin b s) b) = wrap32 (refcnt (node s b) + 1) /\
  core (node (bpin b s) b) = core (node s b) /\
  prev (node (bpin b s) b) = prev (node s b) /\
  next (node (bpin b s) b) = next (node s b) /\
  (forall r, r <> b -> node (bpin b s) r = node s r) /\
  (forall r, node (bunpin b (bpin b s)) r = node s r) /\
  (forall r, node (bpin b (bunpin b s)) r = node s r) /\
  (refcnt (node s b) = 2 ^ 32 - 1 -> is_unused (bpin b s) b = true).
Proof.
  intros Hr. unfold bpin, bunpin, is_unused, set_refcnt.
  rewrite !node_set_same. cbn [refcnt with_refcnt core prev next valid dev
                               blockno lock data].
  split; [reflexivity |]. do 3 (split; [reflexivity |]).
  split; [intros r Hne; now apply node_set_other |].
  split; [| split].
  - intros r. destruct (ref_eq_dec r b) as [-> | Hne].
    + rewrite node_set_same, wrap32_up_down by exact Hr.
      apply with_refcnt_twice.
    + now rewrite !node_set_other by auto.
  - intros r. destruct (ref_eq_dec r b) as [-> | Hne].
    + rewrite node_set_same, wrap32_down_up by exact Hr.
      apply with_refcnt_twice.
    + now rewrite !node_set_other by auto.
  - intros ->. reflexivity.
Qed.

(** X7. A pinned slot stays what it is: once [bpin] has been called on
    a slot (with the count below 2^32 - 1), whatever block [bget] is then
    asked for, its locked part leaves the slot's device, block number,
    valid flag, payload and lock alone, and returns the slot only if the
    slot holds the block asked for. *)
Theorem pinned_slot_stays fuel d bn s r b s1 :
  0 <= refcnt (node s r) < 2 ^ 32 - 1 ->
  bget_locked fuel d bn (bpin r s) = Done (b, s1) ->
  core (node s1 r) = core (node s r) /\
  (b = r -> is_block s d bn r = true).
Proof.
  intros Hr. set (s0 := bpin r s).
  assert (Hcnt : refcnt (node s0 r) <> 0).
  { unfold s0, bpin, set_refcnt. rewrite node_set_same. cbn [refcnt with_refcnt].
    unfold wrap32. rewrite Z.mod_small; lia. }
  assert (Hcore : forall x, core (node s0 x) = core (node s x)).
  { intros x. unfold s0, bpin. setter. }
  assert (Hblk : forall x, is_block s0 d bn x = is_block s d bn x).
  { intros x. unfold is_block.
    destruct (core_fields _ _ (Hcore x)) as (_ & -> & -> & _). reflexivity. }
  unfold bget_locked. cbv zeta.
  destruct (scan_cached _ _ _ _ _ _) as [[hit |] | |] eqn:Ehit; cbn [bind];
    try discriminate.
  - intros [= <- <-]. apply scan_cached_some in Ehit. split.
    + rewrite <- Hcore. setter.
    + intros ->. now rewrite <- Hblk.
  - destruct (scan_unused _ _ _ _) as [[free |] | |] eqn:Efree; cbn [bind];
      try discriminate.
    intros [= <- <-]. apply scan_unused_some in Efree.
    assert (Hne : r <> free) by (intros ->; contradiction).
    split; [| intros E; congruence].
    rewrite <- Hcore. unfold set_refcnt, set_valid, set_blockno, set_dev.
    now rewrite !node_set_other by auto.
Qed.

(** ** Two callers, one block *)

Lemma find_ext {A} (P Q : A -> bool) l :
  (forall x, In x l -> P x = Q x) -> find P l = find Q l.
Proof.
  induction l as [| a l IH]; intros H; simpl; [reflexivity |].
  rewrite (H a) by now left. destruct (Q a); [reflexivity |].
  apply IH. intros x Hx. apply H. now right.
Qed.

Lemma is_block_same s s' d bn x :
  dev (node s' x) = dev (node s x) ->
  blockno (node s' x) = blockno (node s x) ->
  is_block s' d bn x = is_block s d bn x.
Proof. unfold is_block. now intros -> ->. Qed.

(** After the locked part of [bget] the slot it returns is the first on
    the list that holds the block. *)
Lemma bget_locked_first fuel d bn s l b s1 :
  dll s (bucket_of bn) l -> (List.length l < fuel)%nat ->
  bget_locked fuel d bn s = Done (b, s1) ->
  In b l /\ find (is_block s1 d bn) l = Some b /\
  dll s1 (bucket_of bn) l /\
  (forall r, r <> b -> node s1 r = node s r) /\
  lock (node s1 b) = lock (node s b).
Proof.
  intros Hdll Hfuel Hrun.
  rewrite (bget_locked_find fuel d bn s l Hdll Hfuel) in Hrun.
  destruct (find (is_block s d bn) l) as [b0 |] eqn:Ef.
  - injection Hrun as <- <-. split; [now apply find_some in Ef |]. split.
    { rewrite <- Ef. apply find_ext. intros x _.
      apply is_block_same; setter. }
    split; [now apply dll_counted |]. split.
    + intros r Hr. unfold set_refcnt. now apply node_set_other.
    + setter.
  - destruct (find (is_unused s) (rev l)) as [b0 |] eqn:Eu; [| discriminate].
    injection Hrun as <- <-. apply find_some in Eu. destruct Eu as (Hin & _).
    apply in_rev in Hin. split; [exact Hin |].
    assert (Hoth : forall r, r <> b0 ->
              node (set_refcnt (set_valid (set_blockno (set_dev s b0 d) b0 bn)
                                          b0 0) b0 1) r = node s r).
    { intros r Hr. unfold set_refcnt, set_valid, set_blockno, set_dev.
      now rewrite !node_set_other by auto. }
    split.
    { destruct (in_split _ _ Hin) as (l1 & l2 & ->).
      assert (Hnd : NoDup (l1 ++ b0 :: l2)) by (destruct Hdll; auto).
      apply NoDup_remove_2 in Hnd. apply find_first.
      - intros x Hx.
        assert (Hxb : x <> b0).
        { intros ->. apply Hnd, in_or_app. now left. }
        unfold is_block. rewrite (Hoth x Hxb).
        apply (find_none _ _ Ef). apply in_or_app. now left.
      - unfold is_block, set_refcnt, set_valid, set_blockno, set_dev.
        rewrite !node_set_same. cbn. now rewrite !Z.eqb_refl. }
    split; [now apply dll_recycled |]. split; [exact Hoth |].
    unfold set_refcnt, set_valid, set_blockno, set_dev.
    rewrite !node_set_same. reflexivity.
Qed.

(** X8. Two callers after one block get one slot: when [bget] has
    returned a slot for a block, the locked part of the next [bget] for
    that block settles on the same slot and counts it once more, no other
    slot comes to hold the block, and that next [bget], whoever calls it,
    is left asleep on the slot's lock.  The holder itself is no
    exception: asking again for a block it holds, it sleeps. *)
Theorem bget_same_block_again fuel pid d bn s l b s1 :
  dll s (bucket_of bn) l -> (List.length l < fuel)%nat ->
  bget fuel pid d bn s = Done (Awake (b, s1)) ->
  bget_locked fuel d bn s1
  = Done (b, set_refcnt s1 b (wrap32 (refcnt (node s1 b) + 1))) /\
  (forall r, r <> b -> node s1 r = node s r) /\
  (forall pid', bget fuel pid' d bn s1 = Done Asleep).
Proof.
  intros Hdll Hfuel Hrun. unfold bget in Hrun.
  destruct (bget_locked fuel d bn s) as [[b0 s0] | |] eqn:E; cbn [bind fst snd] in Hrun;
    try discriminate.
  unfold acquiresleep in Hrun.
  destruct (lock (node s0 b0)) eqn:El; [discriminate |].
  injection Hrun as <- <-.
  destruct (bget_locked_first fuel d bn s l b0 s0 Hdll Hfuel E)
    as (Hin & Hfirst & Hdll0 & Hoth & _).
  assert (Hdll1 : dll (set_lock s0 b0 (Some pid)) (bucket_of bn) l)
    by now apply dll_locked.
  assert (E1 := bget_locked_find fuel d bn _ l Hdll1 Hfuel).
  replace (find (is_block (set_lock s0 b0 (Some pid)) d bn) l) with (Some b0) in E1.
  2:{ rewrite <- Hfirst. apply find_ext. intros x _. apply is_block_same; setter. }
  split; [exact E1 |]. split.
  { intros r Hr. unfold set_lock. rewrite node_set_other by auto. now apply Hoth. }
  intros pid'. rewrite (bget_after_locked _ pid' _ _ _ _ _ E1).
  replace (lock (node (set_refcnt (set_lock s0 b0 (Some pid)) b0
             (wrap32 (refcnt (node (set_lock s0 b0 (Some pid)) b0) + 1))) b0))
    with (Some pid); [reflexivity |].
  unfold set_refcnt, set_lock. rewrite !node_set_same. reflexivity.
Qed.

(** ** Running out of slots *)

(** X9. A shard is exhausted by holding one slot per distinct block:
    when a process has taken as many distinct blocks of an idle shard as
    the shard has slots, every [bget] returned, and [bget] of one more
    block of the shard, held by nobody, panics with "bget: no buffers". *)
Theorem bget_exhausts_shard fuel pid s l blks blk' :
  let i := bucket_of (snd blk') in
  dll s i l -> idle s l -> (List.length l < fuel)%nat ->
  List.length blks = List.length l -> NoDup blks ->
  (forall blk, In blk blks -> bucket_of (snd blk) = i) ->
  ~ In blk' blks ->
  exists ts s1,
    get_all fuel pid blks s = Done (Awake (ts, s1)) /\
    bget_locked fuel (fst blk') (snd blk') s1 = Panic "bget: no buffers" /\
    bget fuel pid (fst blk') (snd blk') s1 = Panic "bget: no buffers".
Proof.
  intros i Hdll Hidle Hfuel Hlen Hnd Hi Hnew.
  destruct (get_all_taken fuel pid i blks s l [] [])
    as (ts & s1 & Hget & Htk); auto.
  { split; [exact Hdll |]. split; [constructor |]. split; [intros t [] |].
    split; [| constructor]. intros r Hr _. now apply Hidle. }
  { simpl. lia. }
  simpl in Htk. destruct Htk as (Hdll1 & Hndts & Hheld & _ & Hholds).
  assert (Hall : forall r, In r l -> In r ts).
  { apply NoDup_length_incl; [exact Hndts | |].
    - apply Forall2_length in Hholds. lia.
    - intros t Ht. now apply Hheld. }
  exists ts, s1. split; [exact Hget |].
  assert (E := bget_locked_find fuel (fst blk') (snd blk') s1 l Hdll1 Hfuel).
  rewrite find_nowhere in E.
  - rewrite find_nowhere in E.
    + split; [exact E |]. unfold bget. now rewrite E.
    + intros x Hx. apply in_rev, Hall in Hx.
      destruct (Hheld x Hx) as (_ & Hc & _). unfold is_unused. now rewrite Hc.
  - intros x Hx. apply Hall in Hx.
    destruct (Forall2_In_l _ _ _ _ Hholds Hx) as (blk0 & Hblk0 & Hh0).
    destruct (is_block s1 (fst blk') (snd blk') x) eqn:Eb; [| reflexivity].
    exfalso. apply Hnew. unfold is_block in Eb. apply andb_prop in Eb.
    destruct Eb as (E1 & E2). apply Z.eqb_eq in E1, E2.
    rewrite (holds_same blk' blk0 s1 x); auto. now split.
Qed.

(** ** Reading a block twice *)

(** What a [bread] that returned has done. *)
Lemma bread_returned fuel pid d bn s b s1 :
  bread fuel pid d bn s = Done (Awake (b, s1)) ->
  exists s0,
    bget_locked fuel d bn s = Done (b, s0) /\
    valid (node s1 b) <> 0 /\ lock (node s1 b) = Some pid /\
    (forall r, next (node s1 r) = next (node s0 r) /\
               prev (node s1 r) = prev (node s0 r) /\
               dev (node s1 r) = dev (node s0 r) /\
               blockno (node s1 r) = blockno (node s0 r)).
Proof.
  unfold bread, bget.
  destruct (bget_locked fuel d bn s) as [[b0 s0] | |] eqn:E;
    cbn [bind fst snd]; try discriminate.
  unfold acquiresleep. destruct (lock (node s0 b0)) eqn:El;
    cbn [bind]; [discriminate |].
  destruct (valid (node (set_lock s0 b0 (Some pid)) b0) =? 0) eqn:Ev.
  - intros [= <- <-]. exists s0. split; [reflexivity |].
    unfold set_valid, virtio_disk_rw, set_data, set_lock, set_node.
    cbn [node disk iolog]. rewrite !ref_eqb_refl.
    cbn [valid lock with_valid with_data with_lock].
    split; [discriminate |]. split; [reflexivity |].
    intros r. destruct (ref_eqb_spec r b0) as [-> | _]; repeat split.
  - intros [= <- <-]. exists s0. split; [reflexivity |].
    split; [now apply Z.eqb_neq in Ev |].
    unfold set_lock, set_node. cbn [node]. rewrite !ref_eqb_refl.
    split; [reflexivity |].
    intros r. destruct (ref_eqb_spec r b0) as [-> | _]; repeat split.
Qed.

(** X10. The second read of a block is served from the cache: after a
    [bread] that returned and the [brelse] of its slot, a [bread] of the
    same block, by any process, returns the same slot with the payload
    the first one left, and asks the disk for nothing. *)
Theorem bread_again_hits fuel pid pid' d bn s l b s1 :
  dll s (bucket_of bn) l -> (List.length l < fuel)%nat ->
  bread fuel pid d bn s = Done (Awake (b, s1)) ->
  exists s2 s3,
    brelse pid b s1 = Done s2 /\
    bread fuel pid' d bn s2 = Done (Awake (b, s3)) /\
    iolog s3 = iolog s1 /\
    data (node s3 b) = data (node s1 b).
Proof.
  intros Hdll Hfuel Hread.
  destruct (bread_returned fuel pid d bn s b s1 Hread)
    as (s0 & E0 & Hvalid & Hlock & Hsame).
  destruct (bget_locked_first fuel d bn s l b s0 Hdll Hfuel E0)
    as (Hin & Hfirst & Hdll0 & _ & _).
  destruct (bget_locked_post fuel d bn s b s0 E0) as (_ & Hbn0 & _).
  assert (Hbn1 : blockno (node s1 b) = bn).
  { destruct (Hsame b) as (_ & _ & _ & ->). exact Hbn0. }
  assert (Hdll1 : dll s1 (bucket_of bn) l).
  { revert Hdll0. apply dll_same_links; intros r; now destruct (Hsame r). }
  assert (Hfirst1 : find (is_block s1 d bn) l = Some b).
  { rewrite <- Hfirst. apply find_ext. intros x _.
    destruct (Hsame x) as (_ & _ & H3 & H4). now apply is_block_same. }
  destruct (brelse_holder pid b s1 l)
    as (s2 & Hrel & _ & _ & Hcore & Hothers & Hzero & Hpos).
  { exact Hlock. }
  { rewrite Hbn1. exact Hdll1. }
  { exact Hin. }
  rewrite Hbn1 in Hzero, Hpos.
  assert (Hio : iolog s2 = iolog s1).
  { unfold brelse in Hrel. apply holdingsleep_true in Hlock.
    rewrite Hlock in Hrel. cbn [negb] in Hrel. injection Hrel as <-.
    destruct (brelse_locked_keeps b (releasesleep s1 b) b)
      as (_ & _ & _ & _ & _ & _ & _ & _ & ->). reflexivity. }
  destruct (core_fields _ _ Hcore) as (Hv2 & Hd2 & Hb2 & Hl2 & Hda2).
  cbn [valid dev blockno lock data with_lock] in Hv2, Hd2, Hb2, Hl2, Hda2.
  assert (Hblk2 : forall x, is_block s2 d bn x = is_block s1 d bn x).
  { intros x. destruct (ref_eq_dec x b) as [-> | Hne].
    - now apply is_block_same.
    - destruct (Hothers x Hne) as (Hc & _).
      destruct (core_fields _ _ Hc) as (_ & H3 & H4 & _).
      now apply is_block_same. }
  assert (Hb1 : is_block s1 d bn b = true).
  { apply find_some in Hfirst1. now destruct Hfirst1. }
  assert (Hnd : NoDup l) by (destruct Hdll; auto).
  assert (Hlist : exists l2, dll s2 (bucket_of bn) l2 /\
                    (List.length l2 < fuel)%nat /\
                    find (is_block s2 d bn) l2 = Some b).
  { destruct (Z.eq_dec (refcnt (node s2 b)) 0) as [Hz | Hnz].
    - exists (b :: without b l). split; [now apply Hzero |]. split.
      + simpl. rewrite without_length; auto.
      + simpl. now rewrite Hblk2, Hb1.
    - exists l. destruct (Hpos Hnz) as (Hdll2 & _). split; [exact Hdll2 |].
      split; [exact Hfuel |]. rewrite <- Hfirst1. apply find_ext.
      intros x _. apply Hblk2. }
  destruct Hlist as (l2 & Hdll2 & Hfuel2 & Hfirst2).
  assert (E2 := bget_locked_find fuel d bn s2 l2 Hdll2 Hfuel2).
  rewrite Hfirst2 in E2.
  set (s3 := set_lock (set_refcnt s2 b (wrap32 (refcnt (node s2 b) + 1)))
                      b (Some pid')).
  assert (Hget : bget fuel pid' d bn s2 = Done (Awake (b, s3))).
  { rewrite (bget_after_locked _ pid' _ _ _ _ _ E2).
    replace (lock (node (set_refcnt s2 b (wrap32 (refcnt (node s2 b) + 1))) b))
      with (lock (node s2 b)) by (symmetry; setter).
    now rewrite Hl2. }
  exists s2, s3. split; [exact Hrel |].
  assert (Hv3 : valid (node s3 b) = valid (node s1 b)).
  { rewrite <- Hv2. unfold s3, set_lock, set_refcnt.
    rewrite !node_set_same. reflexivity. }
  split.
  { unfold bread. rewrite Hget. cbn [bind]. rewrite Hv3.
    apply Z.eqb_neq in Hvalid. now rewrite Hvalid. }
  split; [exact Hio |].
  rewrite <- Hda2. unfold s3, set_lock, set_refcnt.
  rewrite !node_set_same. reflexivity.
Qed.

(** ** One shard at a time *)

Lemma path_in f a l z x :
  path f a l z -> In x (a :: l) -> In (f x) (z :: l).
Proof.
  revert a. induction l as [| b l IH]; intros a; simpl.
  - intros <- [<- | []]. now left.
  - intros (<- & Hp) [<- | Hx]; [right; now left |].
    destruct (IH (f a) Hp Hx) as [<- | H]; [now left | right; now right].
Qed.

(** The links of a list never lead out of it. *)
Lemma dll_links_in s i l r :
  dll s i l -> In r (Head i :: l) ->
  In (next (node s r)) (Head i :: l) /\ In (prev (node s r)) (Head i :: l).
Proof.
  intros (_ & _ & Hnx & Hpv) Hr. split.
  - exact (path_in _ _ _ _ r Hnx Hr).
  - assert (Hr' : In r (Head i :: rev l)).
    { destruct Hr as [<- | Hr]; [now left | right; now apply in_rev in Hr]. }
    destruct (path_in _ _ _ _ r Hpv Hr') as [<- | H]; [now left |].
    right. now apply in_rev.
Qed.

Lemma buf_ext b1 b2 :
  core b1 = core b2 -> refcnt b1 = refcnt b2 ->
  prev b1 = prev b2 -> next b1 = next b2 -> b1 = b2.
Proof.
  destruct b1, b2. unfold core. cbn. intros [= -> -> -> -> ->] -> -> ->.
  reflexivity.
Qed.

(** The critical section of [brelse] stores to the slot, its two
    neighbours, the head and the head's first slot, all of the same list. *)
Lemma brelse_locked_outside b s l r :
  let i := bucket_of (blockno (node s b)) in
  dll s i l -> In b l -> ~ In r (Head i :: l) ->
  node (brelse_locked b s) r = node s r.
Proof.
  intros i Hdll Hin Hr.
  assert (HbH : b <> Head i).
  { intros E. destruct Hdll as (_ & HH & _). apply HH. now rewrite <- E. }
  assert (Hrb : r <> b) by (intros E; apply Hr; right; now rewrite E).
  assert (HrH : r <> Head i) by (intros E; apply Hr; now left).
  destruct (dll_links_in s i l b Hdll (or_intror Hin)) as (Hnb & Hpb).
  destruct (dll_links_in s i l (Head i) Hdll (or_introl eq_refl)) as (HnH & _).
  assert (Hrnb : r <> next (node s b)) by (intros ->; auto).
  assert (Hrpb : r <> prev (node s b)) by (intros ->; auto).
  assert (HrnH : r <> next (node s (Head i))) by (intros ->; auto).
  destruct (brelse_locked_keeps b s r)
    as (K1 & K2 & K3 & K4 & K5 & K6 & _).
  apply buf_ext.
  - unfold core. now rewrite K1, K2, K3, K4, K5.
  - now apply K6.
  - destruct (Z.eq_dec (wrap32 (refcnt (node s b) - 1)) 0) as [Hz | Hnz].
    + rewrite (brelse_locked_prev b s r Hz HbH). fold i. unfold fupd.
      assert (Hrn2 : r <> (if ref_eqb (Head i) (prev (node s b))
                           then next (node s b)
                           else next (node s (Head i))))
        by (destruct (ref_eqb (Head i) (prev (node s b))); assumption).
      ref_cases.
    + unfold brelse_locked. cbv zeta. unfold set_refcnt at 1.
      rewrite node_set_same. cbn [refcnt with_refcnt].
      apply Z.eqb_neq in Hnz. rewrite Hnz. now rewrite prev_set_refcnt.
  - destruct (Z.eq_dec (wrap32 (refcnt (node s b) - 1)) 0) as [Hz | Hnz].
    + rewrite (brelse_locked_next b s r Hz HbH). fold i. unfold fupd.
      ref_cases.
    + unfold brelse_locked. cbv zeta. unfold set_refcnt at 1.
      rewrite node_set_same. cbn [refcnt with_refcnt].
      apply Z.eqb_neq in Hnz. rewrite Hnz. now rewrite next_set_refcnt.
Qed.

(** X11. A release stays inside the shard of the slot's block: [brelse]
    of a slot on the list of shard [blockno % NBUCKETS] leaves every node
    that is neither that shard's head nor on its list as it was, links
    included, so the list of any shard that has no node in common with
    this one is still well formed, with the same slots in the same
    order. *)
Theorem brelse_stays_in_shard pid b s l s' :
  let i := bucket_of (blockno (node s b)) in
  dll s i l -> In b l -> brelse pid b s = Done s' ->
  (forall r, ~ In r (Head i :: l) -> node s' r = node s r) /\
  (forall i' l',
     dll s i' l' ->
     (forall r, In r (Head i' :: l') -> ~ In r (Head i :: l)) ->
     dll s' i' l').
Proof.
  intros i Hdll Hin Hrun.
  assert (Hout : forall r, ~ In r (Head i :: l) -> node s' r = node s r).
  { intros r Hr. unfold brelse in Hrun.
    destruct (negb (holdingsleep pid s b)); [discriminate |].
    injection Hrun as <-.
    assert (Hrb : r <> b) by (intros ->; apply Hr; now right).
    rewrite (brelse_locked_outside b (releasesleep s b) l r).
    - unfold releasesleep, set_lock. now apply node_set_other.
    - replace (blockno (node (releasesleep s b) b)) with (blockno (node s b))
        by (symmetry; unfold releasesleep; setter).
      now apply dll_locked.
    - exact Hin.
    - replace (blockno (node (releasesleep s b) b)) with (blockno (node s b))
        by (symmetry; unfold releasesleep; setter).
      exact Hr. }
  split; [exact Hout |].
  intros i' l' Hdll' Hapart. revert Hdll'. apply dll_frame.
  intros r Hr. rewrite Hout; [auto |]. apply Hapart.
  destruct Hr as [-> | Hr]; [now left | now right].
Qed.

(** ** The cache as [binit] leaves it *)

Section Boot.

Variable NBUF : nat.
Local Notation NSLOT := (NSLOT NBUF).

Lemma bucket_of_lt bn : (bucket_of bn < NBUCKETS)%nat.
Proof.
  unfold bucket_of, NBUCKETS.
  assert (0 <= bn mod Z.of_nat 7 < Z.of_nat 7) by (apply Z.mod_pos_bound; lia).
  lia.
Qed.

(** X12. [binit] gives every shard a well-formed list of
    [NBUF / NBUCKETS] slots of its own array, the slot initialised last
    standing first, so that the shards together hold at most [NBUF]
    slots.  The slots on the lists are unlocked; [binit] stores to no
    count, identity, validity flag or payload, so a shard whose counts
    were 0 before is idle after. *)
Theorem binit_shards s i :
  (i < NBUCKETS)%nat ->
  let s' := binit NBUF s in
  let l := shard_slots i NSLOT in
  dll s' i l /\
  l = map (Slot i) (rev (seq 0 (NBUF / NBUCKETS))) /\
  (NBUCKETS * List.length l <= NBUF)%nat /\
  (forall r, In r l -> lock (node s' r) = None) /\
  (forall r, valid (node s' r) = valid (node s r) /\
             dev (node s' r) = dev (node s r) /\
             blockno (node s' r) = blockno (node s r) /\
             refcnt (node s' r) = refcnt (node s r) /\
             data (node s' r) = data (node s r)) /\
  ((forall r, In r l -> refcnt (node s r) = 0) -> idle s' l).
Proof.
  intros Hi s' l.
  destruct (binit_spec NBUF s i Hi) as (Hdll & Hlen & Hfields).
  split; [exact Hdll |]. split; [reflexivity |]. split.
  { unfold l. rewrite Hlen. unfold Bio.NSLOT.
    apply Nat.Div0.mul_div_le. }
  split; [intros r Hr; now destruct (Hfields r Hr) |]. split.
  { intros r.
    destruct (binit_buckets_keeps NBUF NBUCKETS 0 s r)
      as (H1 & H2 & H3 & H4 & H5 & _).
    unfold s', binit. auto. }
  intros Hz r Hr. destruct (Hfields r Hr) as (Hl & Hc & _).
  split; [| exact Hl]. unfold s'. rewrite Hc. now apply Hz.
Qed.

(** X13. The first [bget] of a block after [binit], in a shard whose
    counts were 0 and none of whose slots carried the block's identity:
    with no slot in the shard ([NBUF < NBUCKETS]) it panics with
    "bget: no buffers"; otherwise it returns the slot the shard's array
    starts with, the one [binit] linked in first, recycled for the block
    ([valid] 0, count 1, locked by the caller), and no other node
    changes. *)
Theorem first_bget_after_binit fuel pid d bn s :
  let i := bucket_of bn in
  (forall k, (k < NSLOT)%nat ->
     refcnt (node s (Slot i k)) = 0 /\ is_block s d bn (Slot i k) = false) ->
  (NSLOT < fuel)%nat ->
  ((NBUF < NBUCKETS)%nat ->
     bget fuel pid d bn (binit NBUF s) = Panic "bget: no buffers") /\
  ((NBUCKETS <= NBUF)%nat ->
     exists s1,
       bget fuel pid d bn (binit NBUF s) = Done (Awake (Slot i 0, s1)) /\
       node s1 (Slot i 0)
       = mkBuf 0 d bn (Some pid) 1
           (prev (node (binit NBUF s) (Slot i 0)))
           (next (node (binit NBUF s) (Slot i 0)))
           (data (node s (Slot i 0))) /\
       (forall r, r <> Slot i 0 -> node s1 r = node (binit NBUF s) r)).
Proof.
  intros i Hs Hfuel.
  assert (Hi : (i < NBUCKETS)%nat) by apply bucket_of_lt.
  destruct (binit_spec NBUF s i Hi) as (Hdll & Hlen & Hfields).
  assert (Hfuel' : (List.length (shard_slots i NSLOT) < fuel)%nat)
    by (rewrite Hlen; exact Hfuel).
  assert (E := bget_locked_find fuel d bn (binit NBUF s)
                 (shard_slots i NSLOT) Hdll Hfuel').
  rewrite find_nowhere in E.
  2:{ intros x Hx. destruct (Hfields x Hx) as (_ & _ & Hd & Hb & _).
      rewrite (is_block_same s (binit NBUF s)) by auto.
      apply In_shard_slots in Hx. destruct Hx as (k & Hk & ->).
      now apply Hs. }
  split.
  - intros Hsmall.
    assert (Hn : NSLOT = 0%nat)
      by (unfold Bio.NSLOT; apply Nat.div_small; exact Hsmall).
    rewrite Hn in E. cbn [shard_slots seq rev map find] in E.
    unfold bget. rewrite E. reflexivity.
  - intros Hbig.
    assert (Hn : (0 < NSLOT)%nat).
    { unfold Bio.NSLOT. apply Nat.div_str_pos. unfold NBUCKETS in *. lia. }
    destruct NSLOT as [| n] eqn:En; [lia |].
    assert (Hrev : rev (shard_slots i (S n))
                   = Slot i 0 :: map (Slot i) (seq 1 n)).
    { unfold shard_slots. rewrite <- map_rev, rev_involutive. reflexivity. }
    assert (H0 : In (Slot i 0) (shard_slots i (S n))).
    { apply In_shard_slots. exists 0%nat. split; [lia | reflexivity]. }
    destruct (Hfields _ H0) as (Hl0 & Hc0 & Hd0 & Hb0 & Hv0).
    destruct (Hs 0%nat ltac:(lia)) as (Hz0 & _).
    rewrite Hrev in E. cbn [find] in E.
    unfold is_unused in E. rewrite Hc0, Hz0 in E. cbn [Z.eqb] in E.
    eexists. split.
    { rewrite (bget_after_locked _ pid _ _ _ _ _ E).
      replace (lock (node _ (Slot i 0))) with (@None Z); [reflexivity |].
      rewrite <- Hl0. setter. }
    split.
    { unfold set_lock, set_refcnt, set_valid, set_blockno, set_dev.
      rewrite !node_set_same.
      destruct (binit_buckets_keeps NBUF NBUCKETS 0 s (Slot i 0))
        as (_ & _ & _ & _ & H5 & _).
      fold (binit NBUF s) in H5. cbn in H5. rewrite <- H5.
      reflexivity. }
    intros r Hr. setter.
Qed.

End Boot.

(** ** The calls on the example cache *)

Ltac not_in :=
  let H := fresh in
  intros H; simpl in H;
  repeat (destruct H as [H | H]; [discriminate H |]); exact H.

Ltac no_dup := repeat (constructor; [not_in |]); constructor.

Ltac each_in tac :=
  let x := fresh in
  let H := fresh in
  intros x H; simpl in H;
  repeat (destruct H as [H | H]; [subst x; tac |]); destruct H.

(** Shard 0 after [binit]: the slots in the order the loop linked them,
    last linked first. *)
Lemma ex_cache_dll :
  dll ex_cache 0 [Slot 0 3; Slot 0 2; Slot 0 1; Slot 0 0].
Proof.
  split; [no_dup |]. split; [not_in |]. split; vm_compute; auto.
Qed.

Lemma ex_cache_idle : idle ex_cache [Slot 0 3; Slot 0 2; Slot 0 1; Slot 0 0].
Proof. each_in ltac:(vm_compute; auto). Qed.

Lemma bwrite_brelse_lock_witness :
  bwrite 1 (Slot 0 3) ex_cache = Panic "bwrite" /\
  brelse 1 (Slot 0 3) ex_cache = Panic "brelse".
Proof.
  apply (bwrite_brelse_lock 1 (Slot 0 3) ex_cache). vm_compute. discriminate.
Defined.

Lemma bread_spec_witness :
  exists s2,
    bread 5 1 1 7 ex_cache = Done (Awake (Slot 0 0, s2)) /\
    iolog s2 = [DiskRead 1 7].
Proof.
  assert (H := bread_spec 5 1 1 7 ex_cache).
  destruct (bget 5 1 1 7 ex_cache) as [[[b s1] |] | |] eqn:E;
    try (vm_compute in E; discriminate E).
  destruct H as (_ & Hlog & H).
  assert (Hb : b = Slot 0 0) by (vm_compute in E; congruence).
  assert (Hv : valid (node s1 b) = 0) by (vm_compute in E; injection E as <- <-; reflexivity).
  assert (Hl : iolog ex_cache = []) by reflexivity.
  rewrite Hv in H. cbn [Z.eqb] in H.
  destruct H as (s2 & Hrun & Hio & _). exists s2. subst b.
  split; [exact Hrun |]. rewrite Hio, Hl. reflexivity.
Defined.


Lemma brelse_spec_witness :
  let s := set_lock (set_refcnt ex_cache (Slot 0 1) 1) (Slot 0 1) (Some 1) in
  exists s',
    brelse 1 (Slot 0 1) s = Done s' /\
    dll s' 0 [Slot 0 1; Slot 0 3; Slot 0 2; Slot 0 0].
Proof.
  intros s.
  destruct (brelse_spec 1 (Slot 0 1) s
              [Slot 0 3; Slot 0 2; Slot 0 1; Slot 0 0])
    as (s' & Hrun & Hcnt & _ & _ & _ & Hzero & _).
  - reflexivity.
  - split; [no_dup |]. split; [not_in |]. split; vm_compute; auto.
  - simpl. auto.
  - exists s'. split; [exact Hrun |]. apply Hzero. rewrite Hcnt. reflexivity.
Defined.

Lemma lru_recycles_oldest_witness :
  exists victim slots s1 s2,
    get_release_all 5 1 [(1, 7); (1, 14); (1, 21); (1, 28)] ex_cache
    = Done (Awake (victim :: slots, s1)) /\
    holds s1 victim (1, 7) /\
    bget 5 1 1 35 s1 = Done (Awake (victim, s2)) /\
    holds s2 victim (1, 35).
Proof.
  destruct (lru_recycles_oldest 5 1 ex_cache
              [Slot 0 3; Slot 0 2; Slot 0 1; Slot 0 0]
              (1, 7) [(1, 14); (1, 21); (1, 28)] (1, 35))
    as ((victim & slots & s1 & s2 & l1 & Hrun & Hold & _ & _ & Hget & Hnew & _)
        & _).
  - split; [no_dup |]. split; [not_in |]. split; vm_compute; auto.
  - each_in ltac:(vm_compute; auto).
  - simpl. lia.
  - reflexivity.
  - no_dup.
  - each_in ltac:(reflexivity).
  - not_in.
  - exists victim, slots, s1, s2. auto.
Defined.

Lemma bunpin_wraps_witness :
  refcnt (node (bunpin (Slot 0 0) ex_cache) (Slot 0 0)) = 2 ^ 32 - 1.
Proof.
  apply (bunpin_wraps (Slot 0 0) ex_cache). reflexivity.
Defined.

Lemma bpin_bunpin_witness :
  refcnt (node (bpin (Slot 0 0) ex_cache) (Slot 0 0)) = 1 /\
  (forall r, node (bunpin (Slot 0 0) (bpin (Slot 0 0) ex_cache)) r
             = node ex_cache r).
Proof.
  destruct (bpin_bunpin (Slot 0 0) ex_cache) as (H1 & _ & _ & _ & _ & H2 & _).
  - vm_compute. split; [discriminate | reflexivity].
  - split; [rewrite H1; reflexivity | exact H2].
Defined.

Lemma pinned_slot_stays_witness :
  exists b s1,
    bget_locked 5 1 7 (bpin (Slot 0 0) ex_cache) = Done (b, s1) /\
    b <> Slot 0 0 /\
    core (node s1 (Slot 0 0)) = core (node ex_cache (Slot 0 0)).
Proof.
  destruct (bget_locked 5 1 7 (bpin (Slot 0 0) ex_cache))
    as [[b s1] | |] eqn:E; try (vm_compute in E; discriminate E).
  exists b, s1. split; [reflexivity |].
  destruct (pinned_slot_stays 5 1 7 ex_cache (Slot 0 0) b s1) as (Hc & Hb).
  - vm_compute. split; [discriminate | reflexivity].
  - exact E.
  - split; [| exact Hc]. intros Eb. specialize (Hb Eb).
    vm_compute in Hb. discriminate Hb.
Defined.

Lemma bget_same_block_again_witness :
  exists b s1,
    bget 5 1 1 7 ex_cache = Done (Awake (b, s1)) /\
    bget 5 2 1 7 s1 = Done Asleep.
Proof.
  destruct (bget 5 1 1 7 ex_cache) as [[[b s1] |] | |] eqn:E;
    try (vm_compute in E; discriminate E).
  exists b, s1. split; [reflexivity |].
  destruct (bget_same_block_again 5 1 1 7 ex_cache
              [Slot 0 3; Slot 0 2; Slot 0 1; Slot 0 0] b s1) as (_ & _ & H).
  - split; [no_dup |]. split; [not_in |]. split; vm_compute; auto.
  - simpl. lia.
  - exact E.
  - apply H.
Defined.

Lemma bget_exhausts_shard_witness :
  exists ts s1,
    get_all 5 1 [(1, 7); (1, 14); (1, 21); (1, 28)] ex_cache
    = Done (Awake (ts, s1)) /\
    bget 5 1 1 35 s1 = Panic "bget: no buffers".
Proof.
  destruct (bget_exhausts_shard 5 1 ex_cache
              [Slot 0 3; Slot 0 2; Slot 0 1; Slot 0 0]
              [(1, 7); (1, 14); (1, 21); (1, 28)] (1, 35))
    as (ts & s1 & H1 & _ & H2).
  - split; [no_dup |]. split; [not_in |]. split; vm_compute; auto.
  - each_in ltac:(vm_compute; auto).
  - simpl. lia.
  - reflexivity.
  - no_dup.
  - each_in ltac:(reflexivity).
  - not_in.
  - exists ts, s1. split; [exact H1 | exact H2].
Defined.

Lemma bread_again_hits_witness :
  exists b s1 s2 s3,
    bread 5 1 1 7 ex_cache = Done (Awake (b, s1)) /\
    brelse 1 b s1 = Done s2 /\
    bread 5 2 1 7 s2 = Done (Awake (b, s3)) /\
    iolog s3 = iolog s1.
Proof.
  destruct (bread 5 1 1 7 ex_cache) as [[[b s1] |] | |] eqn:E;
    try (vm_compute in E; discriminate E).
  destruct (bread_again_hits 5 1 2 1 7 ex_cache
              [Slot 0 3; Slot 0 2; Slot 0 1; Slot 0 0] b s1)
    as (s2 & s3 & H1 & H2 & H3 & _).
  - split; [no_dup |]. split; [not_in |]. split; vm_compute; auto.
  - simpl. lia.
  - exact E.
  - exists b, s1, s2, s3. auto.
Defined.

Lemma brelse_stays_in_shard_witness :
  let s := set_lock (set_refcnt ex_cache (Slot 0 1) 1) (Slot 0 1) (Some 1) in
  exists s',
    brelse 1 (Slot 0 1) s = Done s' /\
    dll s' 1 [Slot 1 3; Slot 1 2; Slot 1 1; Slot 1 0].
Proof.
  intros s.
  destruct (brelse 1 (Slot 0 1) s) as [s' | |] eqn:E;
    try (vm_compute in E; discriminate E).
  exists s'. split; [reflexivity |].
  destruct (brelse_stays_in_shard 1 (Slot 0 1) s
              [Slot 0 3; Slot 0 2; Slot 0 1; Slot 0 0] s') as (_ & H).
  - split; [no_dup |]. split; [not_in |]. split; vm_compute; auto.
  - simpl. auto.
  - exact E.
  - apply H.
    + split; [no_dup |]. split; [not_in |]. split; vm_compute; auto.
    + each_in ltac:(not_in).
Defined.

Lemma binit_shards_witness :
  dll ex_cache 0 [Slot 0 3; Slot 0 2; Slot 0 1; Slot 0 0] /\
  idle ex_cache [Slot 0 3; Slot 0 2; Slot 0 1; Slot 0 0].
Proof.
  destruct (binit_shards 30 cache0 0) as (H1 & _ & _ & _ & _ & H2).
  - unfold NBUCKETS. lia.
  - split; [exact H1 |]. apply H2. intros r _. reflexivity.
Defined.

Lemma first_bget_after_binit_witness :
  exists s1,
    bget 5 1 1 8 ex_cache = Done (Awake (Slot 1 0, s1)) /\
    node s1 (Slot 1 0) = mkBuf 0 1 8 (Some 1) 1 (Slot 1 1) (Head 1) [].
Proof.
  destruct (first_bget_after_binit 30 5 1 1 8 cache0) as (_ & H).
  - intros k _. split; reflexivity.
  - vm_compute. lia.
  - destruct H as (s1 & Hrun & Hnode & _).
    + unfold NBUCKETS. lia.
    + exists s1. split; [exact Hrun |].
      etransitivity; [exact Hnode | vm_compute; reflexivity].
Defined.

End BioFacts.
